(** * Homology mod 2 of a hypergraph: a shallow embedding of
      [hypernetx/algorithms/homology_mod2.py] and the verification of its
      specification.

    The numpy arrays of the source are records holding a shape and the
    rows; Python exceptions are the [Raise] results of a small error
    monad; the linear algebra over the two-element field is interpreted
    in MathComp's matrices over ['F_2], whose [\rank] is the rank the
    specification speaks of. *)

Set Warnings "-notation-overridden,-ambiguous-paths".
From Stdlib Require Import ZArith ZifyClasses Zify ZifyInst ZifyBool Lia.
From Stdlib Require String.
From HB Require Import structures.
From mathcomp Require Import ssreflect ssrfun ssrbool eqtype ssrnat seq.
From mathcomp Require Import choice fintype bigop finfun tuple path div prime.
From mathcomp Require Import order perm ssralg ssrnum ssrint zmodp matrix.
From mathcomp Require Import mxalgebra.

Set Implicit Arguments.
Unset Strict Implicit.
Unset Printing Implicit Defensive.
Set Warnings "-rewrite-rw,-redundant-canonical-projection".

(** ** Linear arithmetic on [ssrnat]

    [lia] is taught the operations of [ssrnat]; [slia] unfolds the
    coercion of booleans to propositions first. *)
Module SsrZify.

#[global] Instance Op_addn : BinOp addn := Op_plus.
Add Zify BinOp Op_addn.
#[global] Instance Op_subn : BinOp subn := Op_sub.
Add Zify BinOp Op_subn.
#[global] Instance Op_muln : BinOp muln := Op_mul.
Add Zify BinOp Op_muln.

Lemma leq_inj (n m : nat) : inj (n <= m) = Z.leb (inj n) (inj m).
Proof.
apply/idP/idP => /=.
- by move/leP => H; apply/Z.leb_le/Nat2Z.inj_le.
- by move/Z.leb_le/Nat2Z.inj_le/leP.
Qed.
#[global] Instance Op_leq : BinOp leq := { TBOp := Z.leb; TBOpInj := leq_inj }.
Add Zify BinOp Op_leq.

Lemma eqn_inj (n m : nat) : inj (eqn n m) = Z.eqb (inj n) (inj m).
Proof.
apply/idP/idP => /=.
- by move/eqnP => ->; apply/Z.eqb_eq.
- by move/Z.eqb_eq/Nat2Z.inj => ->; apply/eqnP.
Qed.
#[global] Instance Op_eqn : BinOp eqn := { TBOp := Z.eqb; TBOpInj := eqn_inj }.
Add Zify BinOp Op_eqn.
#[global] Instance Op_eq_op_nat : BinOp (@eq_op nat : nat -> nat -> bool) :=
  Op_eqn.
Add Zify BinOp Op_eq_op_nat.

Lemma minn_inj (n m : nat) : inj (minn n m) = Z.min (inj n) (inj m).
Proof. by rewrite /minn /=; case: ltnP => /leP; lia. Qed.
#[global] Instance Op_minn : BinOp minn :=
  { TBOp := Z.min; TBOpInj := minn_inj }.
Add Zify BinOp Op_minn.

Lemma maxn_inj (n m : nat) : inj (maxn n m) = Z.max (inj n) (inj m).
Proof. by rewrite /maxn /=; case: ltnP => /leP; lia. Qed.
#[global] Instance Op_maxn : BinOp maxn :=
  { TBOp := Z.max; TBOpInj := maxn_inj }.
Add Zify BinOp Op_maxn.

#[global] Instance Op_predn : UnOp predn := Op_pred.
Add Zify UnOp Op_predn.

Lemma nat_of_bool_inj (b : bool) : inj (nat_of_bool b) = Z.b2z (inj b).
Proof. by case: b. Qed.
#[global] Instance Op_nat_of_bool : UnOp nat_of_bool :=
  { TUOp := Z.b2z; TUOpInj := nat_of_bool_inj }.
Add Zify UnOp Op_nat_of_bool.

Lemma addb_inj (a b : bool) :
  inj (a (+) b) = (inj a || inj b) && negb (Bool.eqb (inj a) (inj b)).
Proof. by case: a; case: b. Qed.
#[global] Instance Op_addb : BinOp addb :=
  { TBOp := fun x y => (x || y) && negb (Bool.eqb x y);
    TBOpInj := addb_inj }.
Add Zify BinOp Op_addb.

End SsrZify.

Ltac slia := unfold is_true in *; lia.

(** ** Exceptions *)

(** The exceptions the module can raise.  [OutOfFuel] is not a Python
    exception: it marks the exhaustion of the iteration bound given to the
    one [while] loop of the source, and is shown never to occur. *)
Inductive exn : Type :=
  | IndexError
  | ValueError
  | KeyError
  | TypeError
  | AttributeError
  | OSError
  | HyperNetXError
  | OutOfFuel.

Inductive result (A : Type) : Type :=
  | Ok (a : A)
  | Raise (e : exn).
Arguments Ok {A} a.
Arguments Raise {A} e.

Definition bind {A B : Type} (c : result A) (k : A -> result B) : result B :=
  match c with
  | Ok a => k a
  | Raise e => Raise e
  end.

Notation "'do' x <- c ; k" := (bind c (fun x => k))
  (at level 10, x name, c at level 100, k at level 200).
Notation "'do' ' p <- c ; k" := (bind c (fun x => let p := x in k))
  (at level 10, p pattern, c at level 100, k at level 200).

(** [for x in xs: st = body(st, x)] with a body that can raise. *)
Fixpoint foldM {A St : Type} (body : St -> A -> result St) (st : St)
    (xs : seq A) : result St :=
  match xs with
  | [::] => Ok st
  | x :: xs' => do st' <- body st x; foldM body st' xs'
  end.

(** [[f(x) for x in xs]] with an [f] that can raise. *)
Fixpoint mapM {A B : Type} (f : A -> result B) (xs : seq A)
    : result (seq B) :=
  match xs with
  | [::] => Ok [::]
  | x :: xs' => do y <- f x; do ys <- mapM f xs'; Ok (y :: ys)
  end.

(** Python's [range(a, b)]. *)
Definition range (a b : nat) : seq nat := iota a (b - a).

(** ** numpy arrays *)

(** A two-dimensional integer array: its [shape] and its rows.  The
    entries of interest are 0 and 1; numpy's truth value of an entry is
    [!= 0]. *)
Record ndarray : Type := Ndarray {
  nrows : nat;
  ncols : nat;
  data : seq (seq nat)
}.

Definition ndarray_to_tuple (A : ndarray) := (nrows A, ncols A, data A).
Definition tuple_to_ndarray (t : nat * nat * seq (seq nat)) :=
  Ndarray t.1.1 t.1.2 t.2.
Lemma ndarray_tupleK : cancel ndarray_to_tuple tuple_to_ndarray.
Proof. by case. Qed.
HB.instance Definition _ := Equality.copy ndarray (can_type ndarray_tupleK).

Definition getrow (A : ndarray) (i : nat) : seq nat := nth [::] (data A) i.
Definition item (A : ndarray) (i j : nat) : nat := nth 0 (getrow A i) j.

(** The array with entry [f i j] at [(i, j)]. *)
Definition build (m n : nat) (f : nat -> nat -> nat) : ndarray :=
  Ndarray m n (mkseq (fun i => mkseq (fun j => f i j) n) m).

(** [np.zeros((m, n), dtype=int)] and [np.eye(n, dtype=int)]. *)
Definition zeros (m n : nat) : ndarray := Ndarray m n (nseq m (nseq n 0)).
Definition eye (n : nat) : ndarray := build n n (fun i j => (i == j) : nat).

(** [A.transpose()], read as a value. *)
Definition transpose (A : ndarray) : ndarray :=
  build (ncols A) (nrows A) (fun j i => item A i j).

(** [A[i]], raising [IndexError] out of range. *)
Definition row_at (A : ndarray) (i : nat) : result (seq nat) :=
  if i < nrows A then Ok (getrow A i) else Raise IndexError.

(** [A[i] = r] on an index in range. *)
Definition setrow (A : ndarray) (i : nat) (r : seq nat) : ndarray :=
  Ndarray (nrows A) (ncols A) (set_nth [::] (data A) i r).

(** [A[i, j] = v] on indices in range. *)
Definition setitem (A : ndarray) (i j : nat) (v : nat) : ndarray :=
  setrow A i (set_nth 0 (getrow A i) j v).

(** [np.sum(A)], [np.any(r)]. *)
Definition np_sum (A : ndarray) : nat := sumn (map sumn (data A)).
Definition np_any (r : seq nat) : bool := has (fun x => x != 0) r.

(** [1 * np.logical_xor(r1, r2)] on two rows. *)
Definition logical_xor (r1 r2 : seq nat) : seq nat :=
  [seq ((p.1 != 0) (+) (p.2 != 0) : nat) | p <- zip r1 r2].

(** ** Elementary operations, as values *)

Definition _rswap (i j : nat) (Sm : ndarray) : result ndarray :=
  let N := Sm in
  do row <- row_at N i;
  do rj <- row_at N j;
  let N := setrow N i rj in
  let N := setrow N j row in
  Ok N.

Definition _cswap (i j : nat) (Sm : ndarray) : result ndarray :=
  do N <- _rswap i j (transpose Sm);
  Ok (transpose N).

Definition swap_rows (i j : nat) (args : seq ndarray) : result (seq ndarray) :=
  mapM (_rswap i j) args.

Definition swap_columns (i j : nat) (args : seq ndarray)
    : result (seq ndarray) :=
  mapM (_cswap i j) args.

Definition add_to_row (M : ndarray) (i j : nat) : result ndarray :=
  let N := M in
  do ri <- row_at N i;
  do rj <- row_at N j;
  Ok (setrow N i (logical_xor ri rj)).

Definition add_to_column (M : ndarray) (i j : nat) : result ndarray :=
  let N := transpose M in
  do N' <- add_to_row N i j;
  Ok (transpose N').

(** ** Arithmetic over the two-element field *)

Definition logical_dot (ar1 ar2 : seq nat) : result nat :=
  if size ar1 != size ar2 then Raise HyperNetXError
  else Ok (foldr addb false
             [seq (p.1 != 0) && (p.2 != 0) | p <- zip ar1 ar2] : nat).

Definition logical_matmul (mat1 mat2 : ndarray) : result ndarray :=
  let L1 := nrows mat1 in let R1 := ncols mat1 in
  let L2 := nrows mat2 in let R2 := ncols mat2 in
  if R1 != L2 then Raise HyperNetXError
  else
    let mat2T := transpose mat2 in
    do rows <- mapM (fun i =>
                 if np_any (getrow mat1 i)
                 then mapM (fun j => logical_dot (getrow mat1 i)
                                                 (getrow mat2T j))
                           (range 0 R2)
                 else Ok (nseq R2 0))
               (range 0 L1);
    Ok (Ndarray L1 R2 rows).

Definition matmulreduce (arr : seq ndarray) (reverse : bool)
    : result ndarray :=
  let items := if reverse then rev arr else arr in
  match items with
  | [::] => Raise IndexError
  | P :: rest => foldM logical_matmul P rest
  end.

(** An argument of [logical_matadd]: an array of one dimension or of
    two. *)
Inductive nparray : Type :=
  | Array1 (v : seq nat)
  | Array2 (A : ndarray).

(** The shape of an array, as the tuple [a.shape]. *)
Definition shape (a : nparray) : seq nat :=
  match a with
  | Array1 v => [:: size v]
  | Array2 A => [:: nrows A; ncols A]
  end.

Definition logical_matadd (mat1 mat2 : nparray) : result nparray :=
  let S1 := shape mat1 in
  let S2 := shape mat2 in
  if S1 != S2 then Raise HyperNetXError
  else
    match mat1, mat2 with
    | Array1 v1, Array1 v2 =>
        Ok (Array1 [seq ((nth 0 v1 idx != 0) (+) (nth 0 v2 idx != 0) : nat)
                   | idx <- range 0 (size v1)])
    | Array2 A1, Array2 A2 =>
        Ok (Array2 (Ndarray (nrows A1) (ncols A1)
                      [seq [seq ((item A1 idx jdx != 0)
                                 (+) (item A2 idx jdx != 0) : nat)
                           | jdx <- range 0 (ncols A1)]
                      | idx <- range 0 (nrows A1)]))
    | _, _ => Raise HyperNetXError
    end.

(** ** Unpacking of returned lists *)

Definition unpack2 (l : seq ndarray) : result (ndarray * ndarray) :=
  if l is [:: a; b] then Ok (a, b) else Raise ValueError.

Definition first (l : seq ndarray) : result ndarray :=
  if l is a :: _ then Ok a else Raise IndexError.

Definition _sr (i j : nat) (M L : ndarray) : result (ndarray * ndarray) :=
  do l <- swap_rows i j [:: M; L]; unpack2 l.

Definition _sc (i j : nat) (M R : ndarray) : result (ndarray * ndarray) :=
  do l <- swap_columns i j [:: M; R]; unpack2 l.

Definition _ar (i j : nat) (M L : ndarray) : result (ndarray * ndarray) :=
  do M' <- add_to_row M i j;
  do L' <- add_to_row L i j;
  Ok (M', L').

Definition _ac (i j : nat) (M R : ndarray) : result (ndarray * ndarray) :=
  do M' <- add_to_column M i j;
  do R' <- add_to_column R i j;
  Ok (M', R').

(** ** Pivot search *)

(** The inner loop: the first row of [rs] whose entry in column [c] is
    true. *)
Fixpoint scan_rows (M : ndarray) (c : nat) (rs : seq nat) : option nat :=
  match rs with
  | [::] => None
  | r :: rs' => if item M r c != 0 then Some r else scan_rows M c rs'
  end.

Fixpoint scan_columns (M : ndarray) (rs cs : seq nat) : option (nat * nat) :=
  match cs with
  | [::] => None
  | c :: cs' =>
      match scan_rows M c rs with
      | Some r => Some (r, c)
      | None => scan_columns M rs cs'
      end
  end.

(** [s2] is Python's optional argument; [not s2] holds for [None] and for
    [0]. *)
Definition _get_next_pivot (M : ndarray) (s1 : nat) (s2 : option nat)
    : option (nat * nat) :=
  let m := nrows M in let n := ncols M in
  let s2 := match s2 with
            | Some (k.+1) => k.+1
            | _ => s1
            end in
  scan_columns M (range s1 m) (range s2 n).

(** ** Smith normal form *)

Definition snf_add_rows (s : nat) (st : ndarray * ndarray * ndarray)
    (rdx : nat) : result (ndarray * ndarray * ndarray) :=
  let '(Sm, L, Linv) := st in
  do '(Sm, L) <- _ar rdx s Sm L;
  do Linv <- add_to_column Linv s rdx;
  Ok (Sm, L, Linv).

Definition snf_add_columns (s : nat) (st : ndarray * ndarray) (cdx : nat)
    : result (ndarray * ndarray) :=
  let '(Sm, R) := st in _ac cdx s Sm R.

(** One iteration of the [for s] loop on a pivot [(rdx, cdx)]. *)
Definition snf_step (dimL dimR s rdx cdx : nat)
    (st : ndarray * ndarray * ndarray * ndarray)
    : result (ndarray * ndarray * ndarray * ndarray) :=
  let '(L, R, Sm, Linv) := st in
  do '(Sm, L, Linv) <-
    (if s < rdx then
       do '(Sm, L) <- _sr s rdx Sm L;
       do l <- swap_columns rdx s [:: Linv];
       do Linv <- first l;
       Ok (Sm, L, Linv)
     else Ok (Sm, L, Linv));
  do '(Sm, R) <- (if s < cdx then _sc s cdx Sm R else Ok (Sm, R));
  let row_indices := [seq idx <- range s.+1 dimL | item Sm idx s == 1] in
  do '(Sm, L, Linv) <- foldM (snf_add_rows s) (Sm, L, Linv) row_indices;
  let column_indices := [seq jdx <- range s.+1 dimR | item Sm s jdx == 1] in
  do '(Sm, R) <- foldM (snf_add_columns s) (Sm, R) column_indices;
  Ok (L, R, Sm, Linv).

(** The [for s in range(min(dimL, dimR))] loop with its [break]. *)
Fixpoint snf_loop (dimL dimR : nat) (ss : seq nat)
    (st : ndarray * ndarray * ndarray * ndarray)
    : result (ndarray * ndarray * ndarray * ndarray) :=
  match ss with
  | [::] => Ok st
  | s :: ss' =>
      match _get_next_pivot st.1.2 s None with
      | None => Ok st
      | Some (rdx, cdx) =>
          do st' <- snf_step dimL dimR s rdx cdx st;
          snf_loop dimL dimR ss' st'
      end
  end.

(** Returns [(L, R, Sm, Linv)]. *)
Definition smith_normal_form_mod2 (M : ndarray)
    : result (ndarray * ndarray * ndarray * ndarray) :=
  let Sm := M in
  let dimL := nrows M in let dimR := ncols M in
  let L := eye dimL in
  let R := eye dimR in
  let Linv := eye dimL in
  snf_loop dimL dimR (range 0 (minn dimL dimR)) (L, R, Sm, Linv).

(** ** Reduced row echelon form *)

Definition rref_add_rows (s1 : nat) (st : ndarray * ndarray * ndarray)
    (idx : nat) : result (ndarray * ndarray * ndarray) :=
  let '(Sm, L, Linv) := st in
  do '(Sm, L) <- _ar idx s1 Sm L;
  do Linv <- add_to_column Linv s1 idx;
  Ok (Sm, L, Linv).

(** The [while s2 <= dimR and s1 <= dimL] loop; [fuel] bounds the number
    of iterations.  The state is [(L, Sm, Linv)]. *)
Fixpoint rref_loop (fuel dimL dimR s1 s2 : nat)
    (st : ndarray * ndarray * ndarray)
    : result (ndarray * ndarray * ndarray) :=
  let '(L, Sm, Linv) := st in
  if (s2 <= dimR) && (s1 <= dimL) then
    match fuel with
    | 0 => Raise OutOfFuel
    | fuel'.+1 =>
        match _get_next_pivot Sm s1 (Some s2) with
        | None => Ok (L, Sm, Linv)
        | Some (rdx, cdx) =>
            do '(Sm, L, Linv) <-
              (if s1 < rdx then
                 do '(Sm, L) <- _sr s1 rdx Sm L;
                 do l <- swap_columns rdx s1 [:: Linv];
                 do Linv <- first l;
                 Ok (Sm, L, Linv)
               else Ok (Sm, L, Linv));
            let row_indices :=
              [seq idx <- range 0 dimL | (idx != s1) && (item Sm idx cdx == 1)]
            in
            do '(Sm, L, Linv) <-
              foldM (rref_add_rows s1) (Sm, L, Linv) row_indices;
            rref_loop fuel' dimL dimR s1.+1 cdx.+1 (L, Sm, Linv)
        end
    end
  else Ok (L, Sm, Linv).

(** Returns [(L, Sm, Linv)]. *)
Definition reduced_row_echelon_form_mod2 (M : ndarray)
    : result (ndarray * ndarray * ndarray) :=
  let Sm := M in
  let dimL := nrows M in let dimR := ncols M in
  let Linv := eye dimL in
  let L := eye dimL in
  rref_loop dimL.+2 dimL dimR 0 0 (L, Sm, Linv).

(** ** Chain bases and boundary matrices *)

(** A k-chain is the tuple of its vertex identifiers, here numbers. *)
Definition chain : Type := seq nat.

(** Modelled from the spec: the hypergraph class is an external
    collaborator that "must expose iteration over edges, each edge
    exposing its member vertex identifiers as a set".  An edge is given by
    the list of its members, whose repetitions do not count: [uidset e] is
    the set [e.uidset] and [len e] is [len(e)]; a hypergraph is the list
    [h.edges()]. *)
Definition Entity : Type := seq nat.
Definition uidset (e : Entity) : seq nat := undup e.
Definition len (e : Entity) : nat := size (uidset e).
Definition Hypergraph : Type := seq Entity.

(** [sorted(e.uidset)]. *)
Definition sorted_uidset (e : Entity) : chain := sort leq (uidset e).

(** [itertools.combinations(s, r)], in the order itertools emits them. *)
Fixpoint combinations (s : seq nat) (r : nat) : seq chain :=
  match r with
  | 0 => [:: [::]]
  | r'.+1 =>
      match s with
      | [::] => [::]
      | x :: s' => [seq x :: c | c <- combinations s' r'] ++ combinations s' r
      end
  end.

(** Python's order on tuples of numbers. *)
Fixpoint tuple_le (s t : chain) : bool :=
  match s, t with
  | [::], _ => true
  | _ :: _, [::] => false
  | x :: s', y :: t' => (x < y) || ((x == y) && tuple_le s' t')
  end.

(** The chains one edge contributes to the set [kchains]. *)
Definition edge_kchains (k : nat) (e : Entity) : seq chain :=
  if len e == k.+1 then [:: sorted_uidset e]
  else if k.+1 < len e then combinations (sorted_uidset e) k.+1
  else [::].

(** The set [kchains] is the duplicate-free list of what the edges
    contribute; [sorted] puts it in the order of tuples. *)
Definition kchainbasis (h : Hypergraph) (k : nat) : seq chain :=
  let kchains := undup (flatten [seq edge_kchains k e | e <- h]) in
  sort tuple_le kchains.

Definition interpret (Ck : seq chain) (arr : seq (seq nat))
    : result (seq (seq chain)) :=
  mapM (fun vec =>
          if size Ck != size vec then Raise HyperNetXError
          else Ok [seq nth [::] Ck idx
                  | idx <- range 0 (size vec) & nth 0 vec idx == 1])
       arr.

(** [basis.index(x)]: the first position of [x], [ValueError] when [x] is
    not in the list. *)
Definition index_of (basis : seq chain) (x : chain) : result nat :=
  if x \in basis then Ok (index x basis) else Raise ValueError.

(** [cell[:idx] + cell[idx + 1:]]. *)
Definition face (cell : chain) (idx : nat) : chain :=
  take idx cell ++ drop idx.+1 cell.

Definition bk_mark (km1basis kbasis : seq chain) (cell : chain)
    (bk : ndarray) (idx : nat) : result ndarray :=
  let face := face cell idx in
  do row <- index_of km1basis face;
  do col <- index_of kbasis cell;
  Ok (setitem bk row col 1).

Definition bkMatrix (km1basis kbasis : seq chain) : result ndarray :=
  let bk := zeros (size km1basis) (size kbasis) in
  foldM (fun bk cell =>
           foldM (bk_mark km1basis kbasis cell) bk (range 0 (size cell)))
        bk kbasis.

(** ** Cosets and the homology basis *)

(** Slices [A[:, r:]], [A[:, :r]] and [A[r:, :]]. *)
Definition cols_from (A : ndarray) (r : nat) : ndarray :=
  Ndarray (nrows A) (ncols A - r) [seq drop r row | row <- data A].
Definition cols_upto (A : ndarray) (r : nat) : ndarray :=
  Ndarray (nrows A) (minn r (ncols A)) [seq take r row | row <- data A].
Definition rows_from (A : ndarray) (r : nat) : ndarray :=
  Ndarray (nrows A - r) (ncols A) (drop r (data A)).

(** [itertools.product([0, 1], repeat=dim)]. *)
Fixpoint product01 (dim : nat) : seq (seq nat) :=
  match dim with
  | 0 => [:: [::]]
  | d.+1 => [seq 0 :: a | a <- product01 d] ++ [seq 1 :: a | a <- product01 d]
  end.

(** [np.logical_xor.reduce(rows, dtype=int)] on a list of vectors whose
    last one has length [n].  The call returns no vector: the list is
    made an array first, and vectors of different lengths do not make
    one, a [ValueError]; the reduction then asks for the loop of
    [logical_xor] that takes and gives integers, and numpy has none,
    the results of [logical_xor] being booleans: a [TypeError]. *)
Definition xor_reduce (n : nat) (rows : seq (seq nat)) : result (seq nat) :=
  if all (fun r => size r == n) rows
  then Raise TypeError
  else Raise ValueError.

(** One pass of the loop over [alpha]; the state is [(coset, sh_len)]. *)
Definition coset_step (image_basis : ndarray) (bs : seq nat)
    (shortest : bool) (st : seq (seq nat) * nat) (alpha : seq nat)
    : result (seq (seq nat) * nat) :=
  let '(coset, sh_len) := st in
  let scaled := [seq [seq nth 0 alpha idx * x | x <- getrow image_basis idx]
                | idx <- range 0 (size alpha)] in
  do temp <- xor_reduce (size bs) (scaled ++ [:: bs]);
  if shortest then
    if sumn temp == sh_len then Ok (rcons coset temp, sh_len)
    else if sumn temp < sh_len then Ok ([:: temp], sumn temp)
    else Ok (coset, sh_len)
  else Ok (rcons coset temp, sh_len).

(** The result is [None] or the list of the elements kept. *)
Definition coset (im2 : ndarray) (bs : seq nat) (shortest : bool)
    : result (option (seq (seq nat))) :=
  if np_sum im2 == 0 then Ok None
  else
    let image_basis := transpose im2 in
    let dim := nrows image_basis in
    let sh_len := sumn bs in
    do st <- foldM (coset_step image_basis bs shortest) ([::], sh_len)
                   (product01 dim);
    Ok (Some st.1).

(** The loop [for idx, bs in enumerate(proj)] of the shortest-basis
    search. *)
Definition shortest_search (im2 : ndarray) (proj : seq (seq nat))
    : result (seq (option (seq (seq nat)))) :=
  mapM (fun bs => coset im2 bs true) proj.

(** What [homology_basis] returns: an array of generators, their
    interpretation as lists of chains, or, for a shortest-basis search, a
    list with one interpretation per coset. *)
Inductive basis_result : Type :=
  | Generators (proj : seq (seq nat))
  | Chains (basis : seq (seq chain))
  | ShortestChains (basis : seq (seq (seq chain))).

(** ** The persistence log *)

(** The keys and values that the source stores in the log dictionary. *)
Inductive logkey : Type :=
  | Key_k | Key_betti (k : nat) | Key_ker | Key_im | Key_proj | Key_basis
  | Key_maxdim | Key_kchains | Key_bd.

Inductive logval : Type :=
  | LogInt (z : int)
  | LogArray (A : ndarray)
  | LogRows (rows : seq (seq nat))
  | LogCosets (cs : seq (option (seq (seq nat))))
  | LogBasis (b : basis_result)
  | LogChainDict (C : seq (nat * seq chain))
  | LogArrayDict (bd : seq (nat * ndarray)).

Definition logkey_eqb (a b : logkey) : bool :=
  match a, b with
  | Key_k, Key_k | Key_ker, Key_ker | Key_im, Key_im | Key_proj, Key_proj
  | Key_basis, Key_basis | Key_maxdim, Key_maxdim | Key_kchains, Key_kchains
  | Key_bd, Key_bd => true
  | Key_betti i, Key_betti j => i == j
  | _, _ => false
  end.

Definition logdict : Type := seq (logkey * logval).

Fixpoint dict_set (d : logdict) (key : logkey) (v : logval) : logdict :=
  match d with
  | [::] => [:: (key, v)]
  | (key', v') :: d' =>
      if logkey_eqb key' key then (key, v) :: d'
      else (key', v') :: dict_set d' key v
  end.

(** An element of a set: the name of a key of the log, or another
    hashable object, told from the others by a number. *)
Inductive hashable : Type :=
  | KeyName (key : logkey)
  | Hashed (id : nat).

Definition hashable_eqb (a b : hashable) : bool :=
  match a, b with
  | KeyName k1, KeyName k2 => logkey_eqb k1 k2
  | Hashed i, Hashed j => i == j
  | _, _ => false
  end.

(** [s.add(x)] on a set. *)
Definition set_add (s : seq hashable) (x : hashable) : seq hashable :=
  if has (hashable_eqb x) s then s else rcons s x.

(** Modelled from the spec: the persistence sink is "an external keyed
    store: read existing store (treat unreadable/corrupt as empty), update
    keyed entries, write back", whose "write failures are surfaced".  It
    is the file system as [open] and [pickle] of Python's library see it:
    a file holds a pickled dictionary, a pickled set, which is no
    dictionary and has an [update] method, a pickled object without an
    [update] method, a list or a number, or bytes that do not unpickle;
    a path can refuse to be opened for writing. *)
Inductive stored : Type :=
  | PickledDict (d : logdict)
  | PickledSet (s : seq hashable)
  | PickledOther
  | Corrupt.

Record world : Type := World {
  files : seq (String.string * stored);
  unwritable : seq String.string
}.

Fixpoint lookup {V : Type} (fs : seq (String.string * V)) (path : String.string)
    : option V :=
  match fs with
  | [::] => None
  | (p, v) :: fs' => if String.eqb p path then Some v else lookup fs' path
  end.

(** The object [pickle.load(open(log, 'rb'))] yields: a dictionary, a
    set or an object without an [update] method. *)
Inductive loaded : Type :=
  | LoadedDict (d : logdict)
  | LoadedSet (s : seq hashable)
  | LoadedOther.

Definition pickle_load (w : world) (path : String.string) : result loaded :=
  match lookup (files w) path with
  | Some (PickledDict d) => Ok (LoadedDict d)
  | Some (PickledSet s) => Ok (LoadedSet s)
  | Some PickledOther => Ok LoadedOther
  | Some Corrupt => Raise ValueError
  | None => Raise OSError
  end.

(** [logdict.update(entries)] on the object loaded, whatever it is: a
    dictionary takes the entries, a set takes their keys, and an object
    without the method gives an [AttributeError].  The result is the
    object after the update. *)
Definition dict_update (obj : loaded) (entries : logdict) : result loaded :=
  match obj with
  | LoadedDict d =>
      Ok (LoadedDict (foldl (fun d kv => dict_set d kv.1 kv.2) d entries))
  | LoadedSet s =>
      Ok (LoadedSet (foldl (fun s kv => set_add s (KeyName kv.1)) s entries))
  | LoadedOther => Raise AttributeError
  end.

(** What [pickle.dump] writes for an object. *)
Definition pickled (obj : loaded) : stored :=
  match obj with
  | LoadedDict d => PickledDict d
  | LoadedSet s => PickledSet s
  | LoadedOther => PickledOther
  end.

Definition pickle_dump (w : world) (path : String.string) (obj : loaded)
    : result world :=
  if has (String.eqb path) (unwritable w) then Raise OSError
  else Ok (World ((path, pickled obj)
                    :: [seq f <- files w | ~~ String.eqb f.1 path])
                 (unwritable w)).

(** The block [if log: try: ... except: ...; logdict.update(...);
    pickle.dump(...)], shared by the two functions that log. *)
Definition write_log (log : option String.string) (entries : logdict) (w : world)
    : result world :=
  match log with
  | Some path =>
      if path is String.EmptyString then Ok w
      else
        let logdict := match pickle_load w path with
                       | Ok obj => obj
                       | Raise _ => LoadedDict [::]
                       end in
        do logdict <- dict_update logdict entries;
        pickle_dump w path logdict
  | None => Ok w
  end.

(** ** The homology basis *)

Fixpoint dict_get (bd : seq (nat * ndarray)) (k : nat) : result ndarray :=
  match bd with
  | [::] => Raise KeyError
  | (k', A) :: bd' => if k' == k then Ok A else dict_get bd' k
  end.

(** [if C:] holds for a non-empty list. *)
Definition truthy (C : option (seq chain)) : bool :=
  if C is Some (_ :: _) then true else false.

(** [interpret(C, sb)] on an entry of [shortest_basis]; iterating over
    [None] is a [TypeError]. *)
Definition interpret_coset (C : seq chain) (sb : option (seq (seq nat)))
    : result (seq (seq chain)) :=
  match sb with
  | Some arr => interpret C arr
  | None => Raise TypeError
  end.

Definition homology_basis (bd : seq (nat * ndarray)) (k : nat)
    (C : option (seq chain)) (shortest : bool) (log : option String.string)
    (w : world) : result (basis_result * world) :=
  do bdk <- dict_get bd k;
  do '(L1, R1, S1, L1inv) <- smith_normal_form_mod2 bdk;
  do bdk1 <- dict_get bd k.+1;
  do '(L2, R2, S2, L2inv) <- smith_normal_form_mod2 bdk1;
  let rank1 := np_sum S1 in
  let rank2 := np_sum S2 in
  let nullity1 := ncols S1 - rank1 in
  let betti1 := ((ncols S1)%:Z - rank1%:Z - rank2%:Z)%R in
  let ker1 := cols_from R1 rank1 in
  let im2 := cols_upto L2inv rank2 in
  let cokernel2 := cols_from L2inv rank2 in
  let cokproj2 := rows_from L2 rank2 in
  do prod <- matmulreduce [:: cokernel2; cokproj2; ker1] false;
  let proj := transpose prod in
  do '(_, proj, _) <- reduced_row_echelon_form_mod2 proj;
  let proj := [seq row <- data proj | np_any row] in
  do '(basis, proj) <-
    (if shortest then
       do shortest_basis <- shortest_search im2 proj;
       do basis <- (if C is Some (c :: C') then
                      do b <- mapM (interpret_coset (c :: C')) shortest_basis;
                      Ok (ShortestChains b)
                    else Ok (ShortestChains [::]));
       Ok (basis, LogCosets shortest_basis)
     else
       do basis <- (if C is Some (c :: C') then
                      do b <- interpret (c :: C') proj; Ok (Chains b)
                    else Ok (Generators proj));
       Ok (basis, LogRows proj));
  do w' <- write_log log
             [:: (Key_k, LogInt k%:Z); (Key_betti k, LogInt betti1);
                 (Key_ker, LogArray ker1); (Key_im, LogArray im2);
                 (Key_proj, proj); (Key_basis, LogBasis basis)] w;
  Ok (basis, w').

(** What [hypergraph_homology_basis] returns: the string ['wrong dim'] or
    a homology basis. *)
Inductive hhb_result : Type :=
  | WrongDim
  | Basis (b : basis_result).

(** [np.max(xs)]; the maximum of no numbers is a [ValueError]. *)
Definition np_max (xs : seq nat) : result nat :=
  if xs is x :: xs' then Ok (foldl maxn x xs') else Raise ValueError.

Definition hypergraph_homology_basis (h : Hypergraph) (k : int)
    (shortest : bool) (log : option String.string) (w : world)
    : result (hhb_result * world) :=
  do mx <- np_max [seq len e | e <- h];
  let max_dim := (mx%:Z - 1)%R in
  if ((max_dim < k) || (k < 1))%R then Ok (WrongDim, w)
  else
    let k := absz k in
    let C := [seq (i, kchainbasis h i) | i <- range k.-1 k.+2] in
    let Cat i := nth [::] [seq c.2 | c <- C] (i - k.-1) in
    do bd <- mapM (fun i => do b <- bkMatrix (Cat i.-1) (Cat i); Ok (i, b))
                  (range k k.+2);
    do w' <- write_log log
               [:: (Key_maxdim, LogInt max_dim); (Key_kchains, LogChainDict C);
                   (Key_bd, LogArrayDict bd)] w;
    do '(b, w'') <- homology_basis bd k (Some (Cat k)) shortest log w';
    Ok (Basis b, w'').

(** ** Elementary operations on a store of array buffers

    The elementary operations once more, now with the sharing that numpy
    has: an array object is a view of a buffer in a store, [transpose]
    makes a second view of the same buffer, [copy.deepcopy] allocates a
    buffer, and an assignment to a row writes through the view. *)
Module Heap.

Definition heap : Type := seq ndarray.

Record aref : Type := ARef {
  base : nat;
  transposed : bool
}.

Definition buffer (h : heap) (l : nat) : ndarray := nth (zeros 0 0) h l.

(** The array that the view shows. *)
Definition read (h : heap) (a : aref) : ndarray :=
  if transposed a then transpose (buffer h (base a)) else buffer h (base a).

Definition alloc (h : heap) (A : ndarray) : aref * heap :=
  (ARef (size h) false, rcons h A).

(** [copy.deepcopy(a)]. *)
Definition deepcopy (h : heap) (a : aref) : aref * heap :=
  alloc h (read h a).

(** [a.transpose()]. *)
Definition transpose_view (a : aref) : aref :=
  ARef (base a) (~~ transposed a).

(** [copy.deepcopy(a[i])] and other one-dimensional temporaries: a fresh
    buffer of one row. *)
Definition alloc_row (h : heap) (r : seq nat) : aref * heap :=
  alloc h (Ndarray 1 (size r) [:: r]).

Definition row_view (h : heap) (a : aref) (i : nat) : result (seq nat) :=
  row_at (read h a) i.

Definition read_row (h : heap) (t : aref) : seq nat :=
  getrow (buffer h (base t)) 0.

(** [a[i] = r]: the write reaches the buffer under the view. *)
Definition write_row (h : heap) (a : aref) (i : nat) (r : seq nat) : heap :=
  let B := buffer h (base a) in
  let B' := if transposed a then transpose (setrow (transpose B) i r)
            else setrow B i r in
  set_nth (zeros 0 0) h (base a) B'.

Definition _rswap (i j : nat) (Sm : aref) (h : heap)
    : result (aref * heap) :=
  let '(N, h) := deepcopy h Sm in
  do ri <- row_view h N i;
  let '(row, h) := alloc_row h ri in
  do rj <- row_view h N j;
  let '(tmp, h) := alloc_row h rj in
  let h := write_row h N i (read_row h tmp) in
  let h := write_row h N j (read_row h row) in
  Ok (N, h).

Definition _cswap (i j : nat) (Sm : aref) (h : heap)
    : result (aref * heap) :=
  do '(N, h) <- _rswap i j (transpose_view Sm) h;
  Ok (transpose_view N, h).

Fixpoint map_heap (f : aref -> heap -> result (aref * heap))
    (args : seq aref) (h : heap) : result (seq aref * heap) :=
  match args with
  | [::] => Ok ([::], h)
  | M :: args' =>
      do '(N, h) <- f M h;
      do '(output, h) <- map_heap f args' h;
      Ok (N :: output, h)
  end.

Definition swap_rows (i j : nat) (args : seq aref) (h : heap)
    : result (seq aref * heap) :=
  map_heap (_rswap i j) args h.

Definition swap_columns (i j : nat) (args : seq aref) (h : heap)
    : result (seq aref * heap) :=
  map_heap (_cswap i j) args h.

Definition add_to_row (M : aref) (i j : nat) (h : heap)
    : result (aref * heap) :=
  let '(N, h) := deepcopy h M in
  do ri <- row_view h N i;
  do rj <- row_view h N j;
  let '(tmp, h) := alloc_row h (logical_xor ri rj) in
  let h := write_row h N i (read_row h tmp) in
  Ok (N, h).

Definition add_to_column (M : aref) (i j : nat) (h : heap)
    : result (aref * heap) :=
  let N := transpose_view M in
  do '(N', h) <- add_to_row N i j h;
  Ok (transpose_view N', h).

(** Every buffer of [h] is still in [h'], with the contents it had. *)
Definition unchanged (h h' : heap) : Prop := take (size h) h' = h.

(** The view reads a buffer that [h] did not have. *)
Definition fresh (h : heap) (a : aref) : Prop := size h <= base a.

(** The array is one of the store. *)
Definition valid (h : heap) (a : aref) : Prop := base a < size h.

End Heap.

(** ** The properties of the specification *)

(** A rectangular 0/1 matrix. *)
Definition rectangular (A : ndarray) : bool :=
  (size (data A) == nrows A) && all (fun r => size r == ncols A) (data A).

Definition binary (A : ndarray) : bool :=
  all (all (fun x => x <= 1)) (data A).

Definition matrix01 (A : ndarray) : bool := rectangular A && binary A.

(** The entries off the diagonal are zero. *)
Definition is_diagonal (A : ndarray) : bool :=
  all (fun i => all (fun j => (i == j) || (item A i j == 0))
                    (range 0 (ncols A)))
      (range 0 (nrows A)).

(** The number of ones on the diagonal. *)
Definition diagonal_ones (A : ndarray) : nat :=
  count (fun i => item A i i == 1) (range 0 (minn (nrows A) (ncols A))).

(** The column of the pivot of row [i]: its first non-zero entry, or
    [ncols A] for a zero row. *)
Definition pivot_col (A : ndarray) (i : nat) : nat :=
  find (fun x => x != 0) (take (ncols A) (getrow A i)).

(** Reduced row echelon form: the pivot of a non-zero row is the only
    non-zero entry of its column and lies to the right of the pivots of
    the rows above, which are all non-zero. *)
Definition is_rref (A : ndarray) : bool :=
  all (fun i =>
         (pivot_col A i < ncols A) ==>
           all (fun r => (r == i) || (item A r (pivot_col A i) == 0))
               (range 0 (nrows A))
           && all (fun r => pivot_col A r < pivot_col A i) (range 0 i))
      (range 0 (nrows A)).

(** The matrix over the two-element field that an array denotes. *)
Definition mx_of (m n : nat) (A : ndarray) : 'M['F_2]_(m, n) :=
  (\matrix_(i, j) ((item A i j)%:R))%R.

(** ** Definitions for the proofs *)

(** A rectangular 0/1 matrix of a given shape. *)
Definition wf (m n : nat) (A : ndarray) : Prop :=
  [/\ nrows A = m, ncols A = n, rectangular A & binary A].

(** The elementary operations, entry by entry: the index that a swap of
    [i] and [j] reads, the sum of two entries, and the results of the four
    operations on an [m] by [n] array. *)
Definition swapn (i j r : nat) : nat :=
  if r == j then i else if r == i then j else r.

Definition xor01 (a b : nat) : nat := (a != 0) (+) (b != 0).

Definition rsw (m n i j : nat) (A : ndarray) : ndarray :=
  build m n (fun r c => item A (swapn i j r) c).
Definition csw (m n i j : nat) (A : ndarray) : ndarray :=
  build m n (fun r c => item A r (swapn i j c)).
Definition radd (m n i j : nat) (A : ndarray) : ndarray :=
  build m n (fun r c => if r == i then xor01 (item A i c) (item A j c)
                        else item A r c).
Definition cadd (m n i j : nat) (A : ndarray) : ndarray :=
  build m n (fun r c => if c == i then xor01 (item A r i) (item A r j)
                        else item A r c).

(** The entry of the product that the source computes. *)
Definition dot01 (n : nat) (A B : ndarray) (i j : nat) : nat :=
  foldr addb false
    [seq (item A i k != 0) && (item B k j != 0) | k <- iota 0 n].

Section Invariants.

Import GRing.Theory.
Local Open Scope ring_scope.

(** The matrix that adds row [j] to row [i] when applied on the left, and
    column [i] to column [j] when applied on the right. *)
Definition add_mx m (i j : 'I_m) : 'M['F_2]_m := 1%:M + delta_mx i j.

(** The relation that the working matrices [L], [R], [Sm], [Linv] keep
    with the input [M], an [m] by [n] matrix. *)
Definition related (m n : nat) (M : ndarray)
    (st : ndarray * ndarray * ndarray * ndarray) : Prop :=
  let '(L, R, Sm, Linv) := st in
  [/\ [/\ wf m m L, wf n n R, wf m n Sm & wf m m Linv],
      mx_of m m L *m mx_of m n M *m mx_of n n R = mx_of m n Sm,
      mx_of m m L *m mx_of m m Linv = 1%:M
    & mx_of n n R \in unitmx].

End Invariants.

(** The rows and columns before [s] are those of a diagonal matrix with
    ones on the diagonal. *)
Definition diag_upto (m n s : nat) (Sm : ndarray) : Prop :=
  forall i j, i < m -> j < n -> (i < s) || (j < s) -> item Sm i j = (i == j).

(** A diagonal matrix whose diagonal is [t] ones followed by zeros. *)
Definition pdiag (m n t : nat) (Sm : ndarray) : Prop :=
  forall i j, i < m -> j < n -> item Sm i j = ((i == j) && (i < t)).

(** The rows before [s1] carry the pivots found so far, all in columns
    before [s2]; the rows from [s1] on are zero in these columns. *)
Record rref_inv (m n s1 s2 : nat) (Sm : ndarray) : Prop := RrefInv {
  inv_pivot : forall i, i < s1 -> pivot_col Sm i < s2;
  inv_sole : forall i r, i < s1 -> r < m -> r != i ->
             item Sm r (pivot_col Sm i) = 0;
  inv_incr : forall i' i, i' < i -> i < s1 -> pivot_col Sm i' < pivot_col Sm i;
  inv_zero : forall r c, s1 <= r < m -> c < s2 -> c < n -> item Sm r c = 0
}.

(** The faces of a cell, in the order in which [bkMatrix] visits them. *)
Definition faces (cell : chain) : seq chain :=
  [seq face cell idx | idx <- range 0 (size cell)].

(** The marks that the cells of a list leave in the matrix. *)
Definition marked (km1basis kbasis cells : seq chain) (r c : nat) : bool :=
  has (fun cell =>
         (c == index cell kbasis)
         && has (fun idx => index (face cell idx) km1basis == r)
                (range 0 (size cell)))
      cells.

Definition faces_present (km1basis : seq chain) (cell : chain) : bool :=
  all (fun idx => face cell idx \in km1basis) (range 0 (size cell)).

(** The incidence matrices that [bkMatrix] builds. *)
Definition incidence (U V : seq chain) : ndarray :=
  build (size U) (size V)
        (fun r c => (nth [::] U r \in faces (nth [::] V c)) : nat).

(** ** Statements about runs *)

(** What a call returns, the store of files left aside. *)
Definition returned {A : Type} (c : result (A * world)) : result A :=
  do x <- c; Ok x.1.

(** The largest edge size of a hypergraph, and the dimension of its
    largest simplex. *)
Definition max_edge_size (h : Hypergraph) : nat :=
  foldr maxn 0 [seq len e | e <- h].
Definition max_simplex_dim (h : Hypergraph) : int :=
  ((max_edge_size h)%:Z - 1)%R.

(** A matrix without a non-zero entry. *)
Definition all_zeros (A : ndarray) : bool :=
  all (all (fun x => x == 0)) (data A).

(** The value that the log at [path] holds under [key]. *)
Fixpoint dict_lookup (d : logdict) (key : logkey) : option logval :=
  match d with
  | [::] => None
  | (key', v) :: d' => if logkey_eqb key' key then Some v else dict_lookup d' key
  end.

Definition logged (w : world) (path : String.string) (key : logkey)
    : option logval :=
  match lookup (files w) path with
  | Some (PickledDict d) => dict_lookup d key
  | _ => None
  end.

(** The exception, if any, with which the update of the log at [path]
    ends.  There is none when the path is the empty string, which turns
    the log off.  Otherwise the file at the path is read: when it holds
    an object without an [update] method, the update is an
    [AttributeError]; when it is missing or does not unpickle, or holds a
    dictionary or a set, the update is made and the file is written, an
    [OSError] when the path cannot be opened for writing. *)
Definition log_failure (w : world) (path : String.string) : option exn :=
  if path is String.EmptyString then None
  else match lookup (files w) path with
       | Some PickledOther => Some AttributeError
       | _ => if has (String.eqb path) (unwritable w) then Some OSError
              else None
       end.

(** How the result [r1] of a run that logs to [path] compares with the
    result [r0] of the same run without a log, both started in [w]: an
    exception of the run without a log is raised with the log too; a
    value is returned with the log too when the update of the log ends
    without an exception, and the exception of the update replaces it
    otherwise. *)
Definition same_unless_log_fails {A : Type} (w : world) (path : String.string)
    (r0 r1 : result (A * world)) : Prop :=
  match r0 with
  | Raise e => r1 = Raise e
  | Ok (b, w0) =>
      w0 = w
      /\ match log_failure w path with
         | None => returned r1 = Ok b
         | Some e => r1 = Raise e
         end
  end.

(** The hypergraph whose only edge is {1, 2, 3}, the one with the three
    sides of that triangle as edges, and the boundary matrix they share in
    dimension 1. *)
Definition triangle : Hypergraph := [:: [:: 1; 2; 3]].
Definition hollow_triangle : Hypergraph := [:: [:: 1; 2]; [:: 1; 3]; [:: 2; 3]].
Definition triangle_bd1 : ndarray :=
  Ndarray 3 3 [:: [:: 1; 1; 0]; [:: 1; 0; 1]; [:: 0; 1; 1]].

(** The boundary matrices of the triangle, keyed by dimension. *)
Definition triangle_bd : seq (nat * ndarray) :=
  [:: (1, triangle_bd1); (2, Ndarray 3 1 [:: [:: 1]; [:: 1]; [:: 1]])].

(** A store without files, and one whose path [log] cannot be written. *)
Definition no_files : world := World [::] [::].
Section Paths.
Import String.
Definition log_path : string := "log"%string.
End Paths.
Definition read_only : world := World [::] [:: log_path].

(** What the frame of an elementary operation on the array [M] of the
    store [h] promises of its outcome [c]: it returns an array [N] and a
    store in which every buffer of [h] is as it was, so that [M] reads as
    before, and the buffer of [N] is a new one, not the buffer of [M]. *)
Definition returns_fresh (h : Heap.heap) (M : Heap.aref)
    (c : result (Heap.aref * Heap.heap)) : Prop :=
  exists N h',
    [/\ c = Ok (N, h'), Heap.unchanged h h', Heap.read h' M = Heap.read h M,
        Heap.fresh h N & Heap.base N != Heap.base M].

(** The same of an operation on the arrays [args], which returns one
    array for each. *)
Definition returns_fresh_list (h : Heap.heap) (args : seq Heap.aref)
    (c : result (seq Heap.aref * Heap.heap)) : Prop :=
  exists output h',
    [/\ c = Ok (output, h'), size output = size args, Heap.unchanged h h',
        all (fun M => Heap.read h' M == Heap.read h M) args
      & all (fun N => (size h <= Heap.base N)
                      && all (fun M => Heap.base N != Heap.base M) args)
            output].

(** A store of one array and the two views of it. *)
Definition one_array : Heap.heap := [:: Ndarray 2 3 [:: [:: 1; 0; 1]; [:: 0; 1; 1]]].
Definition its_view : Heap.aref := Heap.ARef 0 false.

(** A matrix with a single one, below the diagonal. *)
Definition lower_left : ndarray := Ndarray 2 2 [:: [:: 0; 0]; [:: 1; 0]].

(** ** Definitions for the further properties *)

(** A list of rectangular 0/1 matrices that can be multiplied in order:
    the first has [m] rows, each has as many columns as the next has
    rows, and the last has [p] columns. *)
Fixpoint chainable (m : nat) (arr : seq ndarray) (p : nat) : bool :=
  match arr with
  | [::] => m == p
  | A :: arr' => [&& matrix01 A, nrows A == m & chainable (ncols A) arr' p]
  end.

(** What a pivot search from row [s1] and column [s2] has to return: the
    first non-zero entry of the submatrix [M[s1:, s2:]], columns taken in
    turn and the rows of a column from the top, or nothing when the
    submatrix is zero. *)
Definition first_nonzero (M : ndarray) (s1 s2 : nat)
    (pivot : option (nat * nat)) : Prop :=
  match pivot with
  | Some (r, c) =>
      [/\ s1 <= r < nrows M, s2 <= c < ncols M, item M r c != 0,
          forall r' c', s1 <= r' < nrows M -> s2 <= c' < c -> item M r' c' = 0
        & forall r', s1 <= r' < r -> item M r' c = 0]
  | None =>
      forall r' c', s1 <= r' < nrows M -> s2 <= c' < ncols M -> item M r' c' = 0
  end.

Section SelectorMatrix.

Import GRing.Theory.
Local Open Scope ring_scope.

(** The matrix whose product on the right keeps the columns from [r] on
    of a matrix with [n] columns. *)
Definition sel (n r : nat) : 'M['F_2]_(n, n - r) :=
  \matrix_(k, j) ((k : nat) == (r + j)%N)%:R.

End SelectorMatrix.

(** * Verification *)

(** ** Ranges and arrays *)

Lemma mem_range a b x : (x \in range a b) = (a <= x < b).
Proof.
by rewrite /range mem_iota; slia. Qed.

Lemma range_uniq a b : uniq (range a b).
Proof. exact: iota_uniq. Qed.

Lemma range_cons a b : a < b -> range a b = a :: range a.+1 b.
Proof.
move=> Hab; rewrite /range; have -> : b - a = (b - a.+1).+1 by slia.
by [].
Qed.

Lemma range_nil a b : b <= a -> range a b = [::].
Proof. by move=> Hab; rewrite /range; have -> : b - a = 0 by slia. Qed.

Lemma item_build m n f i j : i < m -> j < n -> item (build m n f) i j = f i j.
Proof. by move=> Hi Hj; rewrite /item /getrow /= nth_mkseq // nth_mkseq. Qed.

Lemma build_ext m n f g :
  (forall i j, i < m -> j < n -> f i j = g i j) -> build m n f = build m n g.
Proof.
move=> H; congr Ndarray; apply: (@eq_from_nth _ [::]); rewrite !size_mkseq //.
move=> i Hi; rewrite !nth_mkseq //.
apply: (@eq_from_nth _ 0); rewrite !size_mkseq // => j Hj.
by rewrite !nth_mkseq //; apply: H.
Qed.

Lemma rectangular_build m n f : rectangular (build m n f).
Proof.
rewrite /rectangular /= size_mkseq eqxx /=.
by apply/allP => r /mapP[i _ ->]; rewrite size_mkseq.
Qed.

Lemma binary_build m n f :
  (forall i j, i < m -> j < n -> f i j <= 1) -> binary (build m n f).
Proof.
move=> H; apply/allP => r /mapP[i]; rewrite mem_iota add0n => /andP[_ Hi] ->.
by apply/allP => x /mapP[j]; rewrite mem_iota add0n => /andP[_ Hj] ->; apply: H.
Qed.

Lemma binary_item A i j : binary A -> item A i j <= 1.
Proof.
move=> /allP H; rewrite /item /getrow.
case: (ltnP i (size (data A))) => Hi; last by rewrite (@nth_default _ [::] (data A)) // nth_nil.
have /allP Hr := H _ (mem_nth [::] Hi).
case: (ltnP j (size (nth [::] (data A) i))) => Hj; last by rewrite nth_default.
exact: Hr (mem_nth 0 Hj).
Qed.

Lemma wf_matrix01 A : matrix01 A -> wf (nrows A) (ncols A) A.
Proof. by case/andP. Qed.

Lemma wf_build m n f :
  (forall i j, i < m -> j < n -> f i j <= 1) -> wf m n (build m n f).
Proof. by move=> H; split=> //; [apply: rectangular_build | apply: binary_build]. Qed.

Lemma wf_item m n A i j : wf m n A -> item A i j <= 1.
Proof. by case=> _ _ _; apply: binary_item. Qed.

Lemma wf_getrow m n A i : wf m n A -> i < m -> getrow A i = mkseq (item A i) n.
Proof.
case=> Hm Hn /andP[/eqP Hs /allP Hr] _ Hi.
have Hsz : size (getrow A i) = n.
  by rewrite -Hn; apply/eqP/Hr/mem_nth; rewrite Hs Hm.
apply: (@eq_from_nth _ 0); rewrite ?size_mkseq // => j; rewrite Hsz => Hj.
by rewrite nth_mkseq.
Qed.

Lemma wf_eq m n A : wf m n A -> A = build m n (item A).
Proof.
move=> H; case: (H) => Hm Hn /andP[/eqP Hs _] _.
case: A Hm Hn Hs H => m' n' d /= -> -> Hs H; congr Ndarray.
apply: (@eq_from_nth _ [::]); rewrite ?size_mkseq // => i; rewrite Hs => Hi.
by rewrite nth_mkseq // -(wf_getrow H).
Qed.

Lemma wf_ext m n A B :
  wf m n A -> wf m n B ->
  (forall i j, i < m -> j < n -> item A i j = item B i j) -> A = B.
Proof. by move=> HA HB H; rewrite (wf_eq HA) (wf_eq HB); apply: build_ext. Qed.

Lemma wf_zeros m n : wf m n (zeros m n).
Proof.
split=> //; rewrite /rectangular /binary /= ?size_nseq ?eqxx /=.
  by apply/allP => r /nseqP[-> _]; rewrite size_nseq.
by apply/allP => r /nseqP[-> _]; apply/allP => x /nseqP[-> _].
Qed.

Lemma item_zeros m n i j : item (zeros m n) i j = 0.
Proof.
rewrite /item /getrow /= nth_nseq; case: ifP => _; last by rewrite nth_nil.
by rewrite nth_nseq; case: ifP.
Qed.

Lemma wf_eye n : wf n n (eye n).
Proof. by apply: wf_build => i j _ _; case: (i == j). Qed.

Lemma transposeE m n A :
  wf m n A -> transpose A = build n m (fun j i => item A i j).
Proof. by case=> Hm Hn _ _; rewrite /transpose Hm Hn. Qed.

Lemma wf_transpose m n A : wf m n A -> wf n m (transpose A).
Proof.
by move=> H; rewrite (transposeE H); apply: wf_build => i j _ _; apply: wf_item H.
Qed.

Lemma item_transpose m n A i j :
  wf m n A -> i < n -> j < m -> item (transpose A) i j = item A j i.
Proof. by move=> H Hi Hj; rewrite (transposeE H) item_build. Qed.

Lemma rectangular_eq A :
  rectangular A -> A = build (nrows A) (ncols A) (item A).
Proof.
case: A => m n d /andP[/= /eqP Hs /allP Hr]; congr Ndarray.
apply: (@eq_from_nth _ [::]); rewrite ?size_mkseq // => i; rewrite Hs => Hi.
rewrite nth_mkseq //.
have Hsz : size (nth [::] d i) = n by apply/eqP/Hr/mem_nth; rewrite Hs.
apply: (@eq_from_nth _ 0); rewrite ?size_mkseq // => j; rewrite Hsz => Hj.
by rewrite nth_mkseq.
Qed.

Lemma transposeK A : rectangular A -> transpose (transpose A) = A.
Proof.
move=> HA; rewrite {2}(rectangular_eq HA) /transpose /=.
by apply: build_ext => i j Hi Hj; rewrite item_build.
Qed.

Lemma transpose_build m n f :
  transpose (build m n f) = build n m (fun j i => f i j).
Proof. by rewrite /transpose /=; apply: build_ext => j i Hj Hi; rewrite item_build. Qed.

(** ** The elementary operations, entry by entry *)

Lemma xor01_le1 a b : xor01 a b <= 1.
Proof. by rewrite /xor01; case: (_ (+) _). Qed.

Lemma swapn_lt m i j r : i < m -> j < m -> r < m -> swapn i j r < m.
Proof. by rewrite /swapn => Hi Hj Hr; case: ifP => _ //; case: ifP. Qed.

Lemma rswapE m n A i j :
  wf m n A -> i < m -> j < m ->
  _rswap i j A = Ok (build m n (fun r c => item A (swapn i j r) c)).
Proof.
move=> H Hi Hj; case: (H) => Hm Hn /andP[/eqP Hs _] _.
rewrite /_rswap /row_at Hm Hi Hj /=; congr Ok.
rewrite /setrow /build /= Hm Hn; congr Ndarray.
apply: (@eq_from_nth _ [::]).
  by rewrite !size_set_nth size_mkseq Hs Hm; slia.
move=> r; rewrite !size_set_nth Hs Hm => Hr0; have Hr : r < m by slia.
rewrite nth_mkseq // /swapn nth_set_nth /=.
case: (r == j); first by rewrite (wf_getrow H).
rewrite nth_set_nth /=; case: (r == i); first by rewrite (wf_getrow H).
by rewrite -(wf_getrow H).
Qed.

Lemma cswapE m n A i j :
  wf m n A -> i < n -> j < n ->
  _cswap i j A = Ok (build m n (fun r c => item A r (swapn i j c))).
Proof.
move=> H Hi Hj; rewrite /_cswap (rswapE (wf_transpose H)) //=.
rewrite transpose_build; congr Ok; apply: build_ext => r c Hr Hc.
by rewrite (item_transpose H) // swapn_lt.
Qed.

Lemma nth_logical_xor r1 r2 c :
  size r1 = size r2 -> c < size r1 ->
  nth 0 (logical_xor r1 r2) c = xor01 (nth 0 r1 c) (nth 0 r2 c).
Proof.
move=> Hs Hc; rewrite /logical_xor (nth_map (0, 0)) ?size_zip -?Hs ?minnn //.
by rewrite nth_zip.
Qed.

Lemma add_to_rowE m n A i j :
  wf m n A -> i < m -> j < m ->
  add_to_row A i j =
  Ok (build m n (fun r c => if r == i then xor01 (item A i c) (item A j c)
                            else item A r c)).
Proof.
move=> H Hi Hj; case: (H) => Hm Hn /andP[/eqP Hs _] _.
rewrite /add_to_row /row_at Hm Hi Hj /=; congr Ok.
rewrite /setrow /build /= Hm Hn; congr Ndarray.
apply: (@eq_from_nth _ [::]).
  by rewrite !size_set_nth size_mkseq Hs Hm; slia.
move=> r; rewrite !size_set_nth Hs Hm => Hr0; have Hr : r < m by slia.
rewrite !nth_set_nth /= nth_mkseq //.
case: ifP => _; last by rewrite -(wf_getrow H).
have Hsi : size (getrow A i) = n by rewrite (wf_getrow H) // size_mkseq.
have Hsj : size (getrow A j) = n by rewrite (wf_getrow H) // size_mkseq.
apply: (@eq_from_nth _ 0).
  by rewrite size_map size_zip Hsi Hsj minnn size_mkseq.
move=> c; rewrite size_map size_zip Hsi Hsj minnn => Hc.
by rewrite nth_logical_xor ?Hsi ?Hsj // nth_mkseq.
Qed.

Lemma add_to_columnE m n A i j :
  wf m n A -> i < n -> j < n ->
  add_to_column A i j =
  Ok (build m n (fun r c => if c == i then xor01 (item A r i) (item A r j)
                            else item A r c)).
Proof.
move=> H Hi Hj; rewrite /add_to_column (add_to_rowE (wf_transpose H)) //=.
rewrite transpose_build; congr Ok; apply: build_ext => r c Hr Hc.
by rewrite !(item_transpose H).
Qed.

(** ** Arrays as matrices over the two-element field *)

Section FieldOfTwo.

Import GRing.Theory.
Local Open Scope ring_scope.

Lemma F2_cases (x : 'F_2) : x = 0 \/ x = 1.
Proof.
case: x => [[|[|k]]] Hk; [left | right | by []]; exact: val_inj.
Qed.

Lemma F2_addxx (x : 'F_2) : x + x = 0.
Proof. by case: (F2_cases x) => ->; apply: val_inj. Qed.

Lemma F2_natr (a : nat) : (a <= 1)%N -> (a%:R == 0 :> 'F_2) = (a == 0%N).
Proof. by case: a => [|[|a]]. Qed.

Lemma F2_natr_inj (a b : nat) :
  (a <= 1)%N -> (b <= 1)%N -> a%:R = b%:R :> 'F_2 -> a = b.
Proof. by case: a => [|[|a]] //; case: b => [|[|b]]. Qed.

Lemma F2_xor01 (a b : nat) :
  (a <= 1)%N -> (b <= 1)%N -> (xor01 a b)%:R = a%:R + b%:R :> 'F_2.
Proof. by case: a => [|[|a]] //; case: b => [|[|b]] // _ _; apply: val_inj. Qed.

Lemma F2_addb (a b : bool) : (a (+) b)%:R = a%:R + b%:R :> 'F_2.
Proof. by case: a; case: b; apply: val_inj. Qed.

Lemma F2_and01 (a b : nat) :
  (a <= 1)%N -> (b <= 1)%N ->
  ((a != 0%N) && (b != 0%N))%:R = a%:R * b%:R :> 'F_2.
Proof. by case: a => [|[|a]] //; case: b => [|[|b]] // _ _; apply: val_inj. Qed.

Lemma mxF2_addxx m n (A : 'M['F_2]_(m, n)) : A + A = 0.
Proof. by apply/matrixP => i j; rewrite !mxE F2_addxx. Qed.

Lemma mx_of_build m n f :
  mx_of m n (build m n f) = \matrix_(i, j) (f i j)%:R.
Proof. by apply/matrixP => i j; rewrite !mxE item_build. Qed.

Lemma mx_ofE m n A (i : 'I_m) (j : 'I_n) : mx_of m n A i j = (item A i j)%:R.
Proof. by rewrite mxE. Qed.

Lemma mx_of_inj m n A B :
  wf m n A -> wf m n B -> mx_of m n A = mx_of m n B -> A = B.
Proof.
move=> HA HB /matrixP H; apply: (wf_ext HA HB) => i j Hi Hj.
have := H (Ordinal Hi) (Ordinal Hj); rewrite !mxE /=.
by apply: F2_natr_inj; [apply: wf_item HA | apply: wf_item HB].
Qed.

Lemma mx_of_eye n : mx_of n n (eye n) = 1%:M.
Proof. by apply/matrixP => i j; rewrite !mxE item_build. Qed.

Lemma mx_of_zeros m n : mx_of m n (zeros m n) = 0.
Proof. by apply/matrixP => i j; rewrite !mxE item_zeros. Qed.

Lemma add_mx_mull m n (i j : 'I_m) (A : 'M['F_2]_(m, n)) :
  add_mx i j *m A = \matrix_(r, c) (if r == i then A i c + A j c else A r c).
Proof.
apply/matrixP => r c; rewrite /add_mx mulmxDl mul1mx !mxE.
rewrite (bigD1 j) //= big1 ?addr0.
  by move=> k Hk; rewrite !mxE (negbTE Hk) andbF mul0r.
rewrite !mxE eqxx andbT; case: eqP => [->|_]; first by rewrite mul1r.
by rewrite mul0r addr0.
Qed.

Lemma add_mx_mulr m n (i j : 'I_n) (A : 'M['F_2]_(m, n)) :
  A *m add_mx i j = \matrix_(r, c) (if c == j then A r j + A r i else A r c).
Proof.
apply/matrixP => r c; rewrite /add_mx mulmxDr mulmx1 !mxE.
rewrite (bigD1 i) //= big1 ?addr0.
  by move=> k Hk; rewrite !mxE (negbTE Hk) /= mulr0.
rewrite !mxE eqxx /=; case: eqP => [->|_]; first by rewrite mulr1.
by rewrite mulr0 addr0.
Qed.

Lemma add_mx_invol m (i j : 'I_m) : i != j -> add_mx i j *m add_mx i j = 1%:M.
Proof.
move=> Hij; rewrite /add_mx mulmxDl mul1mx mulmxDr mulmx1 mul_delta_mx_cond.
rewrite eq_sym (negbTE Hij) mulr0n addr0 addrAC -addrA mxF2_addxx addr0.
by [].
Qed.

Lemma add_mx_unit m (i j : 'I_m) : i != j -> add_mx i j \in unitmx.
Proof. by move=> /add_mx_invol /mulmx1_unit[]. Qed.

Lemma tperm_mx_invol m (i j : 'I_m) :
  tperm_mx i j *m tperm_mx i j = 1%:M :> 'M['F_2]_m.
Proof. by rewrite -perm_mxM tperm2 perm_mx1. Qed.

Section Elementary.

Variables (m n : nat) (A : ndarray).
Hypothesis HA : wf m n A.

Lemma mx_rswap (i j : 'I_m) :
  mx_of m n (build m n (fun r c => item A (swapn i j r) c))
  = tperm_mx i j *m mx_of m n A.
Proof.
rewrite -xrowE mx_of_build; apply/matrixP => r c; rewrite !mxE /swapn.
case: tpermP => [->|->|/eqP Hi /eqP Hj].
- by case: eqP => [->|_] //; rewrite eqxx.
- by rewrite eqxx.
- by rewrite -!val_eqE /= in Hi Hj; rewrite (negbTE Hi) (negbTE Hj).
Qed.

Lemma mx_cswap (i j : 'I_n) :
  mx_of m n (build m n (fun r c => item A r (swapn i j c)))
  = mx_of m n A *m tperm_mx i j.
Proof.
rewrite -xcolE mx_of_build; apply/matrixP => r c; rewrite !mxE /swapn.
case: tpermP => [->|->|/eqP Hi /eqP Hj].
- by case: eqP => [->|_] //; rewrite eqxx.
- by rewrite eqxx.
- by rewrite -!val_eqE /= in Hi Hj; rewrite (negbTE Hi) (negbTE Hj).
Qed.

Lemma mx_add_to_row (i j : 'I_m) :
  mx_of m n (build m n (fun r c => if r == i
                                   then xor01 (item A i c) (item A j c)
                                   else item A r c))
  = add_mx i j *m mx_of m n A.
Proof.
rewrite add_mx_mull mx_of_build; apply/matrixP => r c; rewrite !mxE.
rewrite -val_eqE /=; case: ifP => _ //.
by rewrite F2_xor01 //; apply: wf_item HA.
Qed.

Lemma mx_add_to_column (i j : 'I_n) :
  mx_of m n (build m n (fun r c => if c == i
                                   then xor01 (item A r i) (item A r j)
                                   else item A r c))
  = mx_of m n A *m add_mx j i.
Proof.
rewrite add_mx_mulr mx_of_build; apply/matrixP => r c; rewrite !mxE.
rewrite -val_eqE /=; case: ifP => _ //.
by rewrite F2_xor01 //; apply: wf_item HA.
Qed.

End Elementary.

(** *** The matrix product *)

Lemma mapM_ok_mem (T : eqType) (U : Type) (f : T -> result U) (g : T -> U)
    (xs : seq T) :
  {in xs, forall x, f x = Ok (g x)} -> mapM f xs = Ok (map g xs).
Proof.
elim: xs => [|x xs IH] //= H.
rewrite H ?mem_head //= IH // => y Hy.
by apply: H; rewrite inE Hy orbT.
Qed.

Lemma F2_foldr_addb (b : nat -> bool) (s : seq nat) :
  (foldr addb false [seq b k | k <- s] : nat)%:R
  = \sum_(k <- s) (b k)%:R :> 'F_2.
Proof.
elim: s => [|k s IH] /=; first by rewrite big_nil.
by rewrite big_cons -IH F2_addb.
Qed.

Lemma mx_dot01 m n p A B :
  wf m n A -> wf n p B ->
  mx_of m p (build m p (dot01 n A B)) = mx_of m n A *m mx_of n p B.
Proof.
move=> HA HB; rewrite mx_of_build; apply/matrixP => i j; rewrite !mxE /dot01.
have -> : iota 0 n = index_iota 0 n by rewrite /index_iota subn0.
rewrite F2_foldr_addb big_mkord; apply: eq_bigr => k _.
by rewrite !mxE F2_and01 //; [apply: wf_item HA | apply: wf_item HB].
Qed.

Lemma logical_dotE n r1 r2 :
  size r1 = n -> size r2 = n ->
  logical_dot r1 r2 =
  Ok (foldr addb false
        [seq (nth 0%N r1 k != 0%N) && (nth 0%N r2 k != 0%N) | k <- iota 0 n]
      : nat).
Proof.
move=> H1 H2; rewrite /logical_dot H1 H2 eqxx /=; do 3 congr (_ _).
apply: (@eq_from_nth _ false); rewrite !size_map size_zip H1 H2 minnn ?size_iota //.
move=> k Hk; rewrite (nth_map (0%N, 0%N)) ?size_zip ?H1 ?H2 ?minnn //.
by rewrite nth_zip ?H1 ?H2 //= (nth_map 0%N) ?size_iota // nth_iota.
Qed.

Lemma logical_matmulE m n p A B :
  wf m n A -> wf n p B ->
  logical_matmul A B = Ok (build m p (dot01 n A B)).
Proof.
move=> HA HB; case: (HA) => HAm HAn _ _; case: (HB) => HBn HBp _ _.
rewrite /logical_matmul HAm HAn HBn HBp eqxx /=.
rewrite (@mapM_ok_mem _ _ _ (fun i => mkseq (dot01 n A B i) p)) /=; last first.
  by rewrite /build /mkseq /range subn0.
move=> i; rewrite mem_range /= => Hi.
have Hrow : forall j, (j < p)%N ->
    logical_dot (getrow A i) (getrow (transpose B) j) = Ok (dot01 n A B i j).
  have HsA : size (getrow A i) = n by rewrite (wf_getrow HA) ?size_mkseq.
  move=> j Hj; rewrite (@logical_dotE n) //.
    by rewrite (wf_getrow (wf_transpose HB)) ?size_mkseq.
  rewrite /dot01; congr (Ok (nat_of_bool (foldr addb false _))).
  apply/eq_in_map => k; rewrite mem_iota add0n /= => Hk.
  by rewrite -/(item A i k) -/(item (transpose B) j k) (item_transpose HB).
case: ifP => Hany.
  rewrite (@mapM_ok_mem _ _ _ (dot01 n A B i)) /range ?subn0 //.
  by move=> j; rewrite mem_iota add0n /=; apply: Hrow.
congr Ok; apply: (@eq_from_nth _ 0%N); rewrite size_nseq ?size_mkseq //.
move=> j Hj; rewrite nth_nseq Hj nth_mkseq // /dot01.
have -> : [seq (item A i k != 0%N) && (item B k j != 0%N) | k <- iota 0 n]
          = [seq false | k <- iota 0 n].
  apply/eq_in_map => k; rewrite mem_iota add0n /= => Hk.
  move/negbT: Hany; rewrite /np_any -all_predC (wf_getrow HA) // => /allP H.
  have /= := H (item A i k); rewrite negbK => -> //.
  by apply/mapP; exists k => //; rewrite mem_iota.
by elim: (iota 0 n) => //= k s <-.
Qed.

Lemma wf_dot01 m n p A B : wf m p (build m p (dot01 n A B)).
Proof. by apply: wf_build => i j _ _; rewrite /dot01; case: (foldr _ _ _). Qed.

Lemma logical_matmul_mx m n p A B C :
  wf m n A -> wf n p B -> wf m p C ->
  mx_of m n A *m mx_of n p B = mx_of m p C -> logical_matmul A B = Ok C.
Proof.
move=> HA HB HC H; rewrite (logical_matmulE HA HB); congr Ok.
by apply: (mx_of_inj (wf_dot01 m n p A B) HC); rewrite mx_dot01.
Qed.

End FieldOfTwo.

(** ** The pivot search *)

Lemma scan_rows_iota M c a k :
  match scan_rows M c (iota a k) with
  | Some r => [/\ a <= r < a + k, item M r c != 0
                & forall r', a <= r' < r -> item M r' c = 0]
  | None => forall r', a <= r' < a + k -> item M r' c = 0
  end.
Proof.
elim: k a => [|k IH] a /=; first by move=> r'; slia.
case: ifP => [H|/negbT H]; first by split=> //; [slia | move=> r'; slia].
rewrite negbK in H; case: (scan_rows _ _ _) (IH a.+1) => [r [H1 H2 H3]|H1].
  split=> //; first by slia.
  move=> r' Hr'; case: (r' =P a) => [->|Hne]; first exact/eqP.
  by apply: H3; slia.
move=> r' Hr'; case: (r' =P a) => [->|Hne]; first exact/eqP.
by apply: H1; slia.
Qed.

Lemma scan_rows_range M c a m :
  match scan_rows M c (range a m) with
  | Some r => [/\ a <= r < m, item M r c != 0
                & forall r', a <= r' < r -> item M r' c = 0]
  | None => forall r', a <= r' < m -> item M r' c = 0
  end.
Proof.
rewrite /range; case: (scan_rows _ _ _) (scan_rows_iota M c a (m - a)).
  by move=> r [H1 H2 H3]; split=> //; slia.
by move=> H r' Hr'; apply: H; slia.
Qed.

Lemma scan_columns_iota M a m b k :
  match scan_columns M (range a m) (iota b k) with
  | Some (r, c) =>
      [/\ a <= r < m, b <= c < b + k, item M r c != 0,
          forall r' c', a <= r' < m -> b <= c' < c -> item M r' c' = 0
        & forall r', a <= r' < r -> item M r' c = 0]
  | None => forall r' c', a <= r' < m -> b <= c' < b + k -> item M r' c' = 0
  end.
Proof.
elim: k b => [|k IH] b /=; first by move=> r' c' _; slia.
case: (scan_rows _ _ _) (scan_rows_range M b a m) => [r [H1 H2 H3]|H1].
  by split=> //; [slia | move=> r' c' _; slia].
case: (scan_columns _ _ _) (IH b.+1) => [[r c] [H2 H3 H4 H5 H6]|H2].
  split=> //; first by slia.
  move=> r' c' Hr' Hc'; case: (c' =P b) => [->|Hne]; first exact: H1.
  by apply: H5 => //; slia.
move=> r' c' Hr' Hc'; case: (c' =P b) => [->|Hne]; first exact: H1.
by apply: H2 => //; slia.
Qed.

(** The pivot search from row [s1] and column [s2], when the column
    given is the column used: [s2] is not [0], or [s1] is [0] as well. *)
Lemma get_next_pivot_from M s1 s2 :
  (0 < s2) || (s1 == 0) ->
  match _get_next_pivot M s1 (Some s2) with
  | Some (r, c) =>
      [/\ s1 <= r < nrows M, s2 <= c < ncols M, item M r c != 0,
          forall r' c', s1 <= r' < nrows M -> s2 <= c' < c -> item M r' c' = 0
        & forall r', s1 <= r' < r -> item M r' c = 0]
  | None => forall r' c', s1 <= r' < nrows M -> s2 <= c' < ncols M ->
                          item M r' c' = 0
  end.
Proof.
move=> Hs; rewrite /_get_next_pivot.
have -> : match s2 with k.+1 => k.+1 | _ => s1 end = s2.
  by case: s2 Hs => [|k] //=; move/eqP.
rewrite {2}/range.
case: (scan_columns _ _ _) (scan_columns_iota M s1 (nrows M) s2 (ncols M - s2)).
  by move=> [r c] [H1 H2 H3 H4 H5]; split=> //; slia.
by move=> H r' c' Hr' Hc'; apply: H => //; slia.
Qed.

(** The search that starts on the diagonal, as Smith normal form calls
    it. *)
Lemma get_next_pivot_diag M s :
  match _get_next_pivot M s None with
  | Some (r, c) =>
      [/\ s <= r < nrows M, s <= c < ncols M & item M r c != 0]
  | None => forall r' c', s <= r' < nrows M -> s <= c' < ncols M ->
                          item M r' c' = 0
  end.
Proof.
rewrite /_get_next_pivot {2}/range.
case: (scan_columns _ _ _) (scan_columns_iota M s (nrows M) s (ncols M - s)).
  by move=> [r c] [H1 H2 H3 H4 H5]; split=> //; slia.
by move=> H r' c' Hr' Hc'; apply: H => //; slia.
Qed.

(** ** The elementary operations as matrix products *)

Section Operations.

Variables (m n : nat) (A B : ndarray).
Hypothesis HA : wf m n A.

Lemma wf_rsw i j : wf m n (rsw m n i j A).
Proof. by apply: wf_build => r c _ _; apply: wf_item HA. Qed.

Lemma wf_csw i j : wf m n (csw m n i j A).
Proof. by apply: wf_build => r c _ _; apply: wf_item HA. Qed.

Lemma wf_radd i j : wf m n (radd m n i j A).
Proof.
apply: wf_build => r c _ _; case: ifP => _; first exact: xor01_le1.
exact: wf_item HA.
Qed.

Lemma wf_cadd i j : wf m n (cadd m n i j A).
Proof.
apply: wf_build => r c _ _; case: ifP => _; first exact: xor01_le1.
exact: wf_item HA.
Qed.

Lemma swap_rows1 i j :
  i < m -> j < m -> swap_rows i j [:: A] = Ok [:: rsw m n i j A].
Proof. by move=> Hi Hj; rewrite /swap_rows /= (rswapE HA). Qed.

Lemma swap_columns1 i j :
  i < n -> j < n -> swap_columns i j [:: A] = Ok [:: csw m n i j A].
Proof. by move=> Hi Hj; rewrite /swap_columns /= (cswapE HA). Qed.

Lemma add_to_column_cadd i j :
  i < n -> j < n -> add_to_column A i j = Ok (cadd m n i j A).
Proof. exact: add_to_columnE. Qed.

Variable p : nat.
Hypothesis HB : wf m p B.

Lemma srE i j :
  i < m -> j < m -> _sr i j A B = Ok (rsw m n i j A, rsw m p i j B).
Proof.
by move=> Hi Hj; rewrite /_sr /swap_rows /= (rswapE HA) //= (rswapE HB).
Qed.

Lemma arE i j :
  i < m -> j < m -> _ar i j A B = Ok (radd m n i j A, radd m p i j B).
Proof.
by move=> Hi Hj; rewrite /_ar (add_to_rowE HA) //= (add_to_rowE HB).
Qed.

End Operations.

Lemma scE m n p A B i j :
  wf m n A -> wf p n B -> i < n -> j < n ->
  _sc i j A B = Ok (csw m n i j A, csw p n i j B).
Proof.
by move=> HA HB Hi Hj; rewrite /_sc /swap_columns /= (cswapE HA) //= (cswapE HB).
Qed.

Lemma acE m n p A B i j :
  wf m n A -> wf p n B -> i < n -> j < n ->
  _ac i j A B = Ok (cadd m n i j A, cadd p n i j B).
Proof.
move=> HA HB Hi Hj.
by rewrite /_ac (add_to_columnE HA) //= (add_to_columnE HB).
Qed.

(** ** The working matrices of a reduction *)

Section Reduction.

Import GRing.Theory.
Local Open Scope ring_scope.

Variables (m n : nat) (M : ndarray).

Lemma related_init : wf m n M -> related m n M (eye m, eye n, M, eye m).
Proof.
move=> HM; split; first by split; [apply: wf_eye | apply: wf_eye | | apply: wf_eye].
- by rewrite !mx_of_eye mul1mx mulmx1.
- by rewrite !mx_of_eye mul1mx.
- by rewrite mx_of_eye unitmx1.
Qed.

Lemma related_rsw L R Sm Linv i j :
  (i < m)%N -> (j < m)%N -> related m n M (L, R, Sm, Linv) ->
  related m n M (rsw m m i j L, R, rsw m n i j Sm, csw m m j i Linv).
Proof.
move=> Hi Hj [[HL HR HS HLi] H1 H2 H3]; split; last exact: H3.
- by split; [apply: wf_rsw | exact: HR | apply: wf_rsw | apply: wf_csw].
- by rewrite /rsw (mx_rswap m L (Ordinal Hi) (Ordinal Hj))
             (mx_rswap n Sm (Ordinal Hi) (Ordinal Hj)) -H1 !mulmxA.
- rewrite /rsw /csw (mx_rswap m L (Ordinal Hi) (Ordinal Hj))
          (mx_cswap m Linv (Ordinal Hj) (Ordinal Hi)).
  rewrite mulmxA -(mulmxA _ (mx_of m m L)) H2 mulmx1 /tperm_mx tpermC.
  exact: tperm_mx_invol.
Qed.

Lemma related_csw L R Sm Linv i j :
  (i < n)%N -> (j < n)%N -> related m n M (L, R, Sm, Linv) ->
  related m n M (L, csw n n i j R, csw m n i j Sm, Linv).
Proof.
move=> Hi Hj [[HL HR HS HLi] H1 H2 H3]; split.
- by split; [exact: HL | apply: wf_csw | apply: wf_csw | exact: HLi].
- by rewrite /csw (mx_cswap n R (Ordinal Hi) (Ordinal Hj))
             (mx_cswap m Sm (Ordinal Hi) (Ordinal Hj)) -H1 !mulmxA.
- exact: H2.
- rewrite /csw (mx_cswap n R (Ordinal Hi) (Ordinal Hj)) unitmx_mul H3 /=.
  exact: unitmx_perm.
Qed.

Lemma related_radd L R Sm Linv i j :
  (i < m)%N -> (j < m)%N -> i != j -> related m n M (L, R, Sm, Linv) ->
  related m n M (radd m m i j L, R, radd m n i j Sm, cadd m m j i Linv).
Proof.
move=> Hi Hj Hij [[HL HR HS HLi] H1 H2 H3]; split; last exact: H3.
- by split; [apply: wf_radd | exact: HR | apply: wf_radd | apply: wf_cadd].
- by rewrite /radd (mx_add_to_row HL (Ordinal Hi) (Ordinal Hj))
             (mx_add_to_row HS (Ordinal Hi) (Ordinal Hj)) -H1 !mulmxA.
- rewrite /radd /cadd (mx_add_to_row HL (Ordinal Hi) (Ordinal Hj))
          (mx_add_to_column HLi (Ordinal Hj) (Ordinal Hi)).
  rewrite mulmxA -(mulmxA _ (mx_of m m L)) H2 mulmx1.
  exact: add_mx_invol.
Qed.

Lemma related_cadd L R Sm Linv i j :
  (i < n)%N -> (j < n)%N -> i != j -> related m n M (L, R, Sm, Linv) ->
  related m n M (L, cadd n n i j R, cadd m n i j Sm, Linv).
Proof.
move=> Hi Hj Hij [[HL HR HS HLi] H1 H2 H3]; split.
- by split; [exact: HL | apply: wf_cadd | apply: wf_cadd | exact: HLi].
- by rewrite /cadd (mx_add_to_column HR (Ordinal Hi) (Ordinal Hj))
             (mx_add_to_column HS (Ordinal Hi) (Ordinal Hj)) -H1 !mulmxA.
- exact: H2.
- rewrite /cadd (mx_add_to_column HR (Ordinal Hi) (Ordinal Hj)) unitmx_mul H3 /=.
  by apply: add_mx_unit; rewrite eq_sym.
Qed.

(** *** Adding a row to a list of rows *)

Lemma add_rows_fold s rows L R Sm Linv :
  (s < m)%N -> uniq rows -> s \notin rows -> all (fun r => (r < m)%N) rows ->
  related m n M (L, R, Sm, Linv) ->
  exists L' Sm' Linv',
    [/\ foldM (snf_add_rows s) (Sm, L, Linv) rows = Ok (Sm', L', Linv'),
        related m n M (L', R, Sm', Linv')
      & forall r c, (r < m)%N -> (c < n)%N ->
          item Sm' r c = if r \in rows
                         then xor01 (item Sm r c) (item Sm s c)
                         else item Sm r c].
Proof.
move=> Hs; elim: rows L Sm Linv => [|x rows IH] L Sm Linv /=.
  by move=> _ _ _ H; exists L, Sm, Linv.
move=> /andP[Hx Hu]; rewrite inE negb_or => /andP[Hsx Hsr] /andP[Hxm Hall] H.
case: (H) => [[HL HR HS HLi] _ _ _].
have Hxs : x != s by rewrite eq_sym.
have [L' [Sm' [Linv' [H1 H2 H3]]]] :=
  IH _ _ _ Hu Hsr Hall (related_radd Hxm Hs Hxs H).
exists L', Sm', Linv'; split=> //.
  by rewrite (arE HS HL) //= (add_to_column_cadd HLi) //=.
move=> r c Hr Hc; rewrite H3 // inE /radd !item_build //.
rewrite (negbTE Hsx); case: (r =P x) => [->|_] /=; first by rewrite (negbTE Hx).
by [].
Qed.

Lemma add_columns_fold s cols L R Sm Linv :
  (s < n)%N -> uniq cols -> s \notin cols -> all (fun c => (c < n)%N) cols ->
  related m n M (L, R, Sm, Linv) ->
  exists R' Sm',
    [/\ foldM (snf_add_columns s) (Sm, R) cols = Ok (Sm', R'),
        related m n M (L, R', Sm', Linv)
      & forall r c, (r < m)%N -> (c < n)%N ->
          item Sm' r c = if c \in cols
                         then xor01 (item Sm r c) (item Sm r s)
                         else item Sm r c].
Proof.
move=> Hs; elim: cols R Sm => [|x cols IH] R Sm /=.
  by move=> _ _ _ H; exists R, Sm.
move=> /andP[Hx Hu]; rewrite inE negb_or => /andP[Hsx Hsr] /andP[Hxm Hall] H.
case: (H) => [[HL HR HS HLi] _ _ _].
have Hxs : x != s by rewrite eq_sym.
have [R' [Sm' [H1 H2 H3]]] := IH _ _ Hu Hsr Hall (related_cadd Hxm Hs Hxs H).
exists R', Sm'; split=> //.
  by rewrite (acE HS HR) //=.
move=> r c Hr Hc; rewrite H3 // inE /cadd !item_build //.
rewrite (negbTE Hsx); case: (c =P x) => [->|_] /=; first by rewrite (negbTE Hx).
by [].
Qed.

End Reduction.

Arguments related : simpl never.

(** ** Smith normal form *)

Section SwapPhases.

Variables (m n : nat) (M : ndarray).

(** The swap that brings the pivot row [p] to row [s]. *)
Lemma swap_rows_phase s p L R Sm Linv :
  s <= p < m -> related m n M (L, R, Sm, Linv) ->
  exists L1 S1 Linv1,
    [/\ (if s < p then
           do '(Sm, L) <- _sr s p Sm L;
           do l <- swap_columns p s [:: Linv];
           do Linv <- first l;
           Ok (Sm, L, Linv)
         else Ok (Sm, L, Linv)) = Ok (S1, L1, Linv1),
        related m n M (L1, R, S1, Linv1)
      & forall r c, r < m -> c < n -> item S1 r c = item Sm (swapn s p r) c].
Proof.
move=> Hp H; case: (H) => [[HL HR HS HLi] _ _ _].
have Hs : s < m by slia.
have Hpm : p < m by slia.
case: ifP => Hsp.
  exists (rsw m m s p L), (rsw m n s p Sm), (csw m m p s Linv); split.
  - by rewrite (srE HS HL) //= (swap_columns1 HLi).
  - exact: related_rsw.
  - by move=> r c Hr Hc; rewrite item_build.
exists L, Sm, Linv; split=> // r c Hr Hc.
have -> : p = s by slia.
by rewrite /swapn; case: eqP => [->|].
Qed.

(** The swap that brings the pivot column [q] to column [s]. *)
Lemma swap_columns_phase s q L R Sm Linv :
  s <= q < n -> related m n M (L, R, Sm, Linv) ->
  exists R1 S1,
    [/\ (if s < q then _sc s q Sm R else Ok (Sm, R)) = Ok (S1, R1),
        related m n M (L, R1, S1, Linv)
      & forall r c, r < m -> c < n -> item S1 r c = item Sm r (swapn s q c)].
Proof.
move=> Hq H; case: (H) => [[HL HR HS HLi] _ _ _].
have Hs : s < n by slia.
have Hqn : q < n by slia.
case: ifP => Hsq.
  exists (csw n n s q R), (csw m n s q Sm); split.
  - by rewrite (scE HS HR).
  - exact: related_csw.
  - by move=> r c Hr Hc; rewrite item_build.
exists R, Sm; split=> // r c Hr Hc.
have -> : q = s by slia.
by rewrite /swapn; case: eqP => [->|].
Qed.

End SwapPhases.

Section SmithNormalForm.

Variables (m n : nat) (M : ndarray).

Lemma mem_rows_below (A : ndarray) s c r :
  (r \in [seq idx <- range s.+1 m | item A idx c == 1])
  = (item A r c == 1) && (s < r < m).
Proof. by rewrite mem_filter mem_range. Qed.

Lemma mem_columns_right (A : ndarray) s r c :
  (c \in [seq jdx <- range s.+1 n | item A r jdx == 1])
  = (item A r c == 1) && (s < c < n).
Proof. by rewrite mem_filter mem_range. Qed.

Lemma diag_upto_swap s p q Sm S2 :
  s <= p < m -> s <= q < n -> diag_upto m n s Sm ->
  (forall r c, r < m -> c < n ->
     item S2 r c = item Sm (swapn s p r) (swapn s q c)) ->
  diag_upto m n s S2.
Proof.
move=> Hp Hq HD J r c Hr Hc Hrc.
by rewrite J // HD /swapn; repeat case: ifP => ?; slia.
Qed.

(** The entries after the step that clears column [s] and row [s]. *)
Lemma diag_upto_clear s S2 S3 S4 :
  s < m -> s < n -> diag_upto m n s S2 -> item S2 s s = 1 ->
  (forall r c, item S2 r c <= 1) -> (forall r c, item S3 r c <= 1) ->
  (forall r c, r < m -> c < n ->
     item S3 r c =
     if r \in [seq idx <- range s.+1 m | item S2 idx s == 1]
     then xor01 (item S2 r c) (item S2 s c) else item S2 r c) ->
  (forall r c, r < m -> c < n ->
     item S4 r c =
     if c \in [seq jdx <- range s.+1 n | item S3 s jdx == 1]
     then xor01 (item S3 r c) (item S3 r s) else item S3 r c) ->
  diag_upto m n s.+1 S4.
Proof.
move=> Hsm Hsn D2 P2 B2 B3 I3 I4.
have K3a : forall r, r < m -> item S3 r s = (r == s).
  move=> r Hr; rewrite I3 // mem_rows_below.
  have := D2 r s Hr Hsn; have := B2 r s; have := P2.
  by case: (ltngtP r s) => [Hrs|Hrs|Ers]; rewrite ?Ers /xor01; case: ifP; slia.
have K3b : forall r c, r < m -> c < n -> (r < s) || (c < s) ->
    item S3 r c = (r == c).
  move=> r c Hr Hc Hrc; rewrite I3 // mem_rows_below.
  have := D2 r c Hr Hc; have := D2 s c Hsm Hc; have := B2 r c.
  by rewrite /xor01; case: ifP; slia.
have K3c : forall c, c < n -> item S3 s c = item S2 s c.
  by move=> c Hc; rewrite I3 // mem_rows_below; case: ifP => //; slia.
move=> r c Hr Hc Hrc; rewrite I4 // mem_columns_right.
have := K3a r Hr; have := K3b r c Hr Hc; have := B3 s c; have := B3 r c.
rewrite /xor01.
case: (ltngtP r s) => [Hrs|Hrs|Ers]; rewrite ?Ers;
  case: (ltngtP c s) => [Hcs|Hcs|Ecs]; rewrite ?Ecs; case: ifP; slia.
Qed.

Lemma snf_step_ok s p q L R Sm Linv :
  s <= p < m -> s <= q < n -> item Sm p q != 0 ->
  related m n M (L, R, Sm, Linv) -> diag_upto m n s Sm ->
  exists L' R' Sm' Linv',
    [/\ snf_step m n s p q (L, R, Sm, Linv) = Ok (L', R', Sm', Linv'),
        related m n M (L', R', Sm', Linv') & diag_upto m n s.+1 Sm'].
Proof.
move=> Hp Hq Hpq H HD.
have Hsm : s < m by slia.
have Hsn : s < n by slia.
have [L1 [S1 [Linv1 [E1 H1 I1]]]] := swap_rows_phase Hp H.
have [R2 [S2 [E2 H2 I2]]] := swap_columns_phase Hq H1.
pose rows := [seq idx <- range s.+1 m | item S2 idx s == 1].
have Hrows : [/\ uniq rows, s \notin rows & all (fun r => r < m) rows].
  split; first by rewrite filter_uniq // range_uniq.
    by rewrite mem_rows_below; slia.
  by apply/allP => r; rewrite mem_rows_below; slia.
case: Hrows => Hr1 Hr2 Hr3.
have [L3 [S3 [Linv3 [E3 H3 I3]]]] := add_rows_fold Hsm Hr1 Hr2 Hr3 H2.
pose cols := [seq jdx <- range s.+1 n | item S3 s jdx == 1].
have Hcols : [/\ uniq cols, s \notin cols & all (fun c => c < n) cols].
  split; first by rewrite filter_uniq // range_uniq.
    by rewrite mem_columns_right; slia.
  by apply/allP => c; rewrite mem_columns_right; slia.
case: Hcols => Hc1 Hc2 Hc3.
have [R4 [S4 [E4 H4 I4]]] := add_columns_fold Hsn Hc1 Hc2 Hc3 H3.
exists L3, R4, S4, Linv3; split.
- by rewrite /snf_step E1 /= E2 /= -/rows E3 /= -/cols E4.
- exact: H4.
case: (H) => [[_ _ HS _] _ _ _].
case: (H2) => [[_ _ HS2 _] _ _ _].
case: (H3) => [[_ _ HS3 _] _ _ _].
have J2 : forall r c, r < m -> c < n ->
    item S2 r c = item Sm (swapn s p r) (swapn s q c).
  by move=> r c Hr Hc; rewrite I2 // I1 // swapn_lt //; slia.
apply: (@diag_upto_clear s S2 S3 S4) => //.
- exact: diag_upto_swap J2.
- have := wf_item p q HS; move: Hpq; rewrite J2 // /swapn !eqxx.
  by case: (s =P p) => [<-|_]; case: (s =P q) => [<-|_]; slia.
- by move=> r c; apply: wf_item HS2.
- by move=> r c; apply: wf_item HS3.
Qed.

Arguments snf_step : simpl never.

(** The loop, started at [s] with [k] iterations left. *)
Lemma snf_loop_ok k s L R Sm Linv :
  s + k = minn m n ->
  related m n M (L, R, Sm, Linv) -> diag_upto m n s Sm ->
  exists L' R' Sm' Linv' t,
    [/\ snf_loop m n (iota s k) (L, R, Sm, Linv) = Ok (L', R', Sm', Linv'),
        related m n M (L', R', Sm', Linv'), t <= minn m n & pdiag m n t Sm'].
Proof.
elim: k s L R Sm Linv => [|k IH] s L R Sm Linv Hk H HD /=.
  exists L, R, Sm, Linv, s; split=> //; first by slia.
  move=> i j Hi Hj; case: (boolP ((i < s) || (j < s))) => Hij.
    by rewrite HD //; slia.
  by slia.
case: (H) => [[_ _ [Hm Hn _ _] _] _ _ _].
have := get_next_pivot_diag Sm s; rewrite Hm Hn.
case: (_get_next_pivot Sm s None) => [[p q] [Hp Hq Hpq]|Hz].
  have [L1 [R1 [S1 [Linv1 [E1 H1 D1]]]]] := snf_step_ok Hp Hq Hpq H HD.
  have Hk1 : s.+1 + k = minn m n by slia.
  have [L' [R' [Sm' [Linv' [t [E2 H2 Ht P2]]]]]] := IH _ _ _ _ _ Hk1 H1 D1.
  by exists L', R', Sm', Linv', t; split=> //; rewrite E1.
exists L, R, Sm, Linv, s; split=> //; first by slia.
move=> i j Hi Hj; case: (boolP ((i < s) || (j < s))) => Hij.
  by rewrite HD //; slia.
by rewrite Hz; slia.
Qed.

End SmithNormalForm.

Lemma count_ltn_iota t k : count (fun i => i < t) (iota 0 k) = minn t k.
Proof.
elim: k => [|k IH]; first by rewrite /= minn0.
by rewrite -addn1 iotaD count_cat IH /= add0n; slia.
Qed.

Section SmithNormalFormResult.

Import GRing.Theory.
Local Open Scope ring_scope.

Variables (m n : nat) (M : ndarray).

Lemma pdiag_is_diagonal t Sm : wf m n Sm -> pdiag m n t Sm -> is_diagonal Sm.
Proof.
move=> [Hm Hn _ _] HP; rewrite /is_diagonal Hm Hn.
apply/allP => i; rewrite mem_range => /= Hi.
apply/allP => j; rewrite mem_range => /= Hj.
by rewrite HP //; case: (i == j).
Qed.

Lemma pdiag_diagonal_ones t Sm :
  wf m n Sm -> (t <= minn m n)%N -> pdiag m n t Sm -> diagonal_ones Sm = t.
Proof.
move=> [Hm Hn _ _] Ht HP; rewrite /diagonal_ones Hm Hn /range subn0.
rewrite (@eq_in_count _ _ (fun i => (i < t)%N)).
  move=> i; rewrite mem_iota add0n /= => Hi.
  by rewrite HP ?eqxx /=; [slia | slia | case: (i < t)%N].
by rewrite count_ltn_iota; slia.
Qed.

Lemma pdiag_mx t Sm : pdiag m n t Sm -> mx_of m n Sm = pid_mx t.
Proof.
move=> HP; apply/matrixP => i j; rewrite !mxE HP //.
Qed.

Lemma related_rank L R Sm Linv :
  related m n M (L, R, Sm, Linv) -> \rank (mx_of m n Sm) = \rank (mx_of m n M).
Proof.
move=> [_ <- H2 H3].
have HRf : row_free (mx_of n n R) by rewrite row_free_unit; exact: H3.
rewrite (mxrankMfree _ HRf).
have [HLu _] := mulmx1_unit H2.
have HL : row_full (mx_of m m L) by rewrite row_full_unit; exact: HLu.
exact: (eqmxMfull _ HL).1.
Qed.

Lemma related_products L R Sm Linv :
  wf m n M -> related m n M (L, R, Sm, Linv) ->
  matmulreduce [:: L; M; R] false = Ok Sm
  /\ logical_matmul L Linv = Ok (eye m).
Proof.
move=> HM [[HL HR HS HLi] H1 H2 _]; split.
  rewrite /matmulreduce /= (logical_matmulE HL HM) /=.
  rewrite (@logical_matmul_mx m n n _ _ Sm) //; first exact: wf_dot01.
  by rewrite mx_dot01.
by apply: (logical_matmul_mx HL HLi (wf_eye m)); rewrite mx_of_eye.
Qed.

End SmithNormalFormResult.

(** What [smith_normal_form_mod2] returns on a rectangular 0/1 matrix. *)
Lemma smith_normal_form_mod2_spec (M : ndarray) :
  matrix01 M ->
  exists L R Sm Linv t,
    [/\ smith_normal_form_mod2 M = Ok (L, R, Sm, Linv),
        related (nrows M) (ncols M) M (L, R, Sm, Linv),
        t <= minn (nrows M) (ncols M)
      & pdiag (nrows M) (ncols M) t Sm].
Proof.
move=> /wf_matrix01 HM; rewrite /smith_normal_form_mod2 /range subn0.
apply: snf_loop_ok; [by rewrite add0n | exact: related_init | by []].
Qed.

(** ** Reduced row echelon form *)

Section PivotColumns.

Variables (m n : nat) (A : ndarray).
Hypothesis HA : wf m n A.

Lemma pivot_colE i :
  i < m -> pivot_col A i = find (fun x => x != 0) (mkseq (item A i) n).
Proof.
move=> Hi; case: (HA) => _ Hn _ _.
by rewrite /pivot_col Hn (wf_getrow HA) // take_oversize // size_mkseq.
Qed.

Lemma pivot_col_le i : i < m -> pivot_col A i <= n.
Proof.
by move=> Hi; rewrite pivot_colE //; have := find_size (fun x => x != 0)
  (mkseq (item A i) n); rewrite size_mkseq.
Qed.

Lemma pivot_col_lt i :
  i < m -> pivot_col A i < n ->
  item A i (pivot_col A i) != 0 /\
  forall c, c < pivot_col A i -> item A i c = 0.
Proof.
move=> Hi; rewrite pivot_colE // => Hlt.
have Hsz : find (fun x => x != 0) (mkseq (item A i) n)
             < size (mkseq (item A i) n) by rewrite size_mkseq.
split; first by have := nth_find 0 (etrans (has_find _ _) Hsz); rewrite nth_mkseq.
move=> c Hc; have Hcn : c < n by slia.
by have := before_find 0 Hc; rewrite nth_mkseq // => /negbFE/eqP.
Qed.

Lemma pivot_col_eq i q :
  i < m -> q < n -> item A i q != 0 -> (forall c, c < q -> item A i c = 0) ->
  pivot_col A i = q.
Proof.
move=> Hi Hq Hnz Hz; rewrite pivot_colE //.
set s := mkseq _ _; set a := fun x => _.
have Hs : size s = n by rewrite size_mkseq.
have Hhas : has a s.
  by apply/hasP; exists (item A i q) => //; apply/mapP; exists q; rewrite ?mem_iota.
case: (ltngtP (find a s) q) => // Hf.
- have Hfn : find a s < n by slia.
  by have := nth_find 0 Hhas; rewrite /s nth_mkseq // /a Hz // eqxx.
- by have := before_find 0 Hf; rewrite /s nth_mkseq // /a (negbTE Hnz).
Qed.

Lemma pivot_col_zero i :
  i < m -> (forall c, c < n -> item A i c = 0) -> pivot_col A i = n.
Proof.
move=> Hi Hz; rewrite pivot_colE //.
have := find_size (fun x => x != 0) (mkseq (item A i) n).
rewrite size_mkseq leq_eqVlt => /orP[/eqP //|Hlt].
have Hsz : find (fun x => x != 0) (mkseq (item A i) n)
             < size (mkseq (item A i) n) by rewrite size_mkseq.
have := nth_find 0 (etrans (has_find _ _) Hsz); rewrite nth_mkseq //.
by rewrite Hz.
Qed.

End PivotColumns.

Section EchelonForm.

Variables (m n : nat) (M : ndarray).

Lemma rref_inv_init Sm : rref_inv m n 0 0 Sm.
Proof. by split. Qed.

Lemma mem_rows_other (A : ndarray) s c r :
  (r \in [seq idx <- range 0 m | (idx != s) && (item A idx c == 1)])
  = [&& r != s, item A r c == 1 & r < m].
Proof. by rewrite mem_filter mem_range /= andbA. Qed.

(** The entries after a pivot at [(p, q)] is brought to row [s1] and
    cleared from the other rows. *)
Lemma rref_inv_step s1 s2 p q Sm S1 S2 :
  wf m n Sm -> wf m n S1 -> wf m n S2 ->
  s1 <= p < m -> s2 <= q < n -> item Sm p q != 0 ->
  (forall r' c', s1 <= r' < m -> s2 <= c' < q -> item Sm r' c' = 0) ->
  rref_inv m n s1 s2 Sm ->
  (forall r c, r < m -> c < n -> item S1 r c = item Sm (swapn s1 p r) c) ->
  (forall r c, r < m -> c < n ->
     item S2 r c =
     if r \in [seq idx <- range 0 m | (idx != s1) && (item S1 idx q == 1)]
     then xor01 (item S1 r c) (item S1 s1 c) else item S1 r c) ->
  rref_inv m n s1.+1 q.+1 S2.
Proof.
move=> HS HS1 HS2 Hp Hq Hpq Hz [Ia Ib Ic Id] I1 I2.
have Hs1 : s1 < m by slia.
have Hqn : q < n by slia.
have B1 := wf_item _ _ HS1.
have Zlow : forall r c, s1 <= r < m -> c < q -> item Sm r c = 0.
  move=> r c Hr Hc; case: (ltnP c s2) => Hc2; first by apply: Id => //; slia.
  by apply: Hz => //; slia.
have F5 : forall i c, i < s1 -> c < n -> item S1 i c = item Sm i c.
  move=> i c Hi Hc; have Him : i < m by slia.
  by rewrite I1 // /swapn; repeat case: ifP => ?; slia.
have F6 : forall r c, s1 <= r < m -> c < q -> item S1 r c = 0.
  move=> r c Hr Hc; have Hrm : r < m by slia.
  have Hcn : c < n by slia.
  by rewrite I1 //; apply: Zlow => //; rewrite /swapn; repeat case: ifP => ?; slia.
have F2 : item S1 s1 q = 1.
  have := B1 s1 q; rewrite I1 // /swapn eqxx.
  by move: Hpq; case: (s1 =P p) => [<-|_]; slia.
have F3 : forall r c, r < m -> c < q -> item S2 r c = item S1 r c.
  move=> r c Hr Hc; have Hcn : c < n by slia.
  have Hs1' : s1 <= s1 < m by slia.
  have := B1 r c; rewrite I2 // (F6 s1 c) // /xor01.
  by case: ifP => _ //; slia.
have F4 : forall r, r < m -> item S2 r q = (r == s1).
  move=> r Hr; rewrite I2 // mem_rows_other F2.
  have := B1 r q; rewrite /xor01.
  by case: (r =P s1) => [->|_] /=; rewrite ?F2; try case: ifP; slia.
have P1 : forall i, i < s1 -> pivot_col S2 i = pivot_col Sm i.
  move=> i Hi; have Him : i < m by slia.
  have Hlt := Ia i Hi; have Hpn : pivot_col Sm i < n by slia.
  have [Hnz Hbef] := pivot_col_lt HS Him Hpn.
  have Hpq' : pivot_col Sm i < q by slia.
  apply: (pivot_col_eq HS2) => //; first by rewrite F3 // F5.
  move=> c Hc; have Hcq : c < q by slia.
  have Hcn : c < n by slia.
  by rewrite F3 // F5 // Hbef.
have P2 : pivot_col S2 s1 = q.
  apply: (pivot_col_eq HS2) => //; first by rewrite F4 // eqxx.
  by move=> c Hc; rewrite F3 // F6 //; slia.
have Hs1' : s1 <= s1 < m by slia.
split.
- move=> i; rewrite ltnS leq_eqVlt => /orP[/eqP ->|Hi]; first by rewrite P2.
  by rewrite P1 //; have := Ia i Hi; slia.
- move=> i r; rewrite ltnS leq_eqVlt => /orP[/eqP ->|Hi] Hr Hri.
    by rewrite P2 F4 // (negbTE Hri).
  have Hlt := Ia i Hi; have Hpq' : pivot_col Sm i < q by slia.
  have Hpn : pivot_col Sm i < n by slia.
  have Hpm : p < m by slia.
  rewrite P1 // F3 // I1 //; apply: Ib => //; first by rewrite swapn_lt.
  by move: Hri; rewrite /swapn; repeat case: ifP => ?; slia.
- move=> i' i Hi'; rewrite ltnS leq_eqVlt => /orP[/eqP Ei|Hi].
    have Hi's : i' < s1 by slia.
    by rewrite Ei P2 P1 //; have := Ia i' Hi's; slia.
  have Hi's : i' < s1 by slia.
  by rewrite !P1 //; apply: Ic.
- move=> r c Hr; rewrite ltnS leq_eqVlt => /orP[/eqP ->|Hc] Hcn.
    have Hrm : r < m by slia.
    by rewrite F4 //; slia.
  have Hrm : r < m by slia.
  have Hr' : s1 <= r < m by slia.
  by rewrite F3 ?F6.
Qed.

(** When no pivot is left the matrix is in reduced row echelon form. *)
Lemma rref_inv_final s1 s2 Sm :
  wf m n Sm -> rref_inv m n s1 s2 Sm ->
  (forall r' c', s1 <= r' < m -> s2 <= c' < n -> item Sm r' c' = 0) ->
  is_rref Sm.
Proof.
move=> HS [Ia Ib Ic Id] Hz; case: (HS) => Hm Hn _ _.
have Hrest : forall r, s1 <= r < m -> pivot_col Sm r = n.
  move=> r Hr; apply: (pivot_col_zero HS); first by slia.
  move=> c Hc; case: (ltnP c s2) => Hc2; first exact: Id.
  by apply: Hz => //; slia.
rewrite /is_rref Hm Hn; apply/allP => i; rewrite mem_range /= => Hi.
apply/implyP => Hpc.
have Hi1 : i < s1.
  by case: (ltnP i s1) => // Hge; move: Hpc; rewrite Hrest; slia.
apply/andP; split; apply/allP => r; rewrite mem_range /= => Hr.
  by case: (r =P i) => //= /eqP Hri; rewrite Ib.
exact: Ic.
Qed.

End EchelonForm.

Section EchelonLoop.

Variables (m n : nat) (M : ndarray).

Lemma rref_add_rowsE : rref_add_rows = snf_add_rows.
Proof. by []. Qed.

(** One iteration of the [while] loop on a pivot [(p, q)]. *)
Lemma rref_step_ok s1 s2 p q L Sm Linv :
  s1 <= p < m -> s2 <= q < n -> item Sm p q != 0 ->
  (forall r' c', s1 <= r' < m -> s2 <= c' < q -> item Sm r' c' = 0) ->
  related m n M (L, eye n, Sm, Linv) -> rref_inv m n s1 s2 Sm ->
  exists L1 S1 Linv1 L' Sm' Linv',
    [/\ (if s1 < p then
           do '(Sm, L) <- _sr s1 p Sm L;
           do l <- swap_columns p s1 [:: Linv];
           do Linv <- first l;
           Ok (Sm, L, Linv)
         else Ok (Sm, L, Linv)) = Ok (S1, L1, Linv1),
        foldM (rref_add_rows s1) (S1, L1, Linv1)
          [seq idx <- range 0 m | (idx != s1) && (item S1 idx q == 1)]
        = Ok (Sm', L', Linv'),
        related m n M (L', eye n, Sm', Linv')
      & rref_inv m n s1.+1 q.+1 Sm'].
Proof.
move=> Hp Hq Hpq Hz H HI.
have Hs1 : s1 < m by slia.
have [L1 [S1 [Linv1 [E1 H1 I1]]]] := swap_rows_phase Hp H.
pose rows := [seq idx <- range 0 m | (idx != s1) && (item S1 idx q == 1)].
have Hr1 : uniq rows by rewrite filter_uniq // range_uniq.
have Hr2 : s1 \notin rows by rewrite mem_rows_other eqxx.
have Hr3 : all (fun r => r < m) rows.
  by apply/allP => r; rewrite mem_rows_other => /and3P[].
have [L2 [S2 [Linv2 [E2 H2 I2]]]] := add_rows_fold Hs1 Hr1 Hr2 Hr3 H1.
exists L1, S1, Linv1, L2, S2, Linv2; split.
- exact: E1.
- by rewrite rref_add_rowsE -/rows E2.
- exact: H2.
case: (H) => [[_ _ HS _] _ _ _].
case: (H1) => [[_ _ HS1 _] _ _ _].
case: (H2) => [[_ _ HS2 _] _ _ _].
exact: (rref_inv_step HS HS1 HS2 Hp Hq Hpq Hz HI I1 I2).
Qed.

Arguments rref_add_rows : simpl never.

Lemma rref_loop_ok fuel s1 s2 L Sm Linv :
  m - s1 < fuel -> s1 <= m -> s2 <= n -> (0 < s2) || (s1 == 0) ->
  related m n M (L, eye n, Sm, Linv) -> rref_inv m n s1 s2 Sm ->
  exists L' Sm' Linv',
    [/\ rref_loop fuel m n s1 s2 (L, Sm, Linv) = Ok (L', Sm', Linv'),
        related m n M (L', eye n, Sm', Linv') & is_rref Sm'].
Proof.
elim: fuel s1 s2 L Sm Linv => [|fuel IH] s1 s2 L Sm Linv Hf Hs1 Hs2 Hs H HI.
  by slia.
case: (H) => [[_ _ HS _] _ _ _]; case: (HS) => Hm Hn _ _.
rewrite /= Hs1 Hs2 /=.
have := get_next_pivot_from Sm Hs; rewrite Hm Hn.
case: (_get_next_pivot Sm s1 (Some s2)) => [[p q] [Hp Hq Hpq Hz _]|Hz].
  have [L1 [S1 [Linv1 [L2 [S2 [Linv2 [E1 E2 H2 D2]]]]]]] :=
    rref_step_ok Hp Hq Hpq Hz H HI.
  have [L' [Sm' [Linv' [E3 H3 P3]]]] :
    exists L' Sm' Linv',
      [/\ rref_loop fuel m n s1.+1 q.+1 (L2, S2, Linv2) = Ok (L', Sm', Linv'),
          related m n M (L', eye n, Sm', Linv') & is_rref Sm'].
    by apply: IH => //; slia.
  by exists L', Sm', Linv'; split=> //; rewrite E1 /= E2.
exists L, Sm, Linv; split=> //.
exact: rref_inv_final HS HI Hz.
Qed.

End EchelonLoop.

(** What [reduced_row_echelon_form_mod2] returns on a rectangular 0/1
    matrix. *)
Lemma reduced_row_echelon_form_mod2_spec (M : ndarray) :
  matrix01 M ->
  exists L Sm Linv,
    [/\ reduced_row_echelon_form_mod2 M = Ok (L, Sm, Linv),
        related (nrows M) (ncols M) M (L, eye (ncols M), Sm, Linv)
      & is_rref Sm].
Proof.
move=> /wf_matrix01 HM; rewrite /reduced_row_echelon_form_mod2.
apply: rref_loop_ok => //; [by slia | exact: related_init].
Qed.

(** ** Faces of a chain *)

Lemma face0 a (cell : chain) : face (a :: cell) 0 = cell.
Proof. by rewrite /face /= drop0. Qed.

Lemma faceS a (cell : chain) idx :
  face (a :: cell) idx.+1 = a :: face cell idx.
Proof. by []. Qed.

Lemma faces_cons a (cell : chain) :
  faces (a :: cell) = cell :: [seq a :: f | f <- faces cell].
Proof.
rewrite /faces /range !subn0 /= face0; congr (_ :: _).
by rewrite -[1]/(1 + 0) iotaDl -!map_comp.
Qed.

Lemma mem_faces (cell f : chain) :
  reflect (exists2 idx, idx < size cell & f = face cell idx) (f \in faces cell).
Proof.
apply: (iffP mapP) => [[idx]|[idx Hidx ->]].
  by rewrite mem_range => /= Hidx ->; exists idx.
by exists idx => //; rewrite mem_range.
Qed.

Lemma face_subseq (cell : chain) idx : subseq (face cell idx) cell.
Proof.
rewrite /face -{3}(cat_take_drop idx cell); apply: cat_subseq => //.
rewrite -add1n -drop_drop; exact: drop_subseq.
Qed.

Lemma size_face (cell : chain) idx :
  idx < size cell -> size (face cell idx) = (size cell).-1.
Proof. by move=> H; rewrite /face size_cat size_take size_drop H; slia. Qed.

Lemma faces_sub (cell f : chain) : f \in faces cell -> {subset f <= cell}.
Proof. by case/mem_faces => idx _ ->; apply: mem_subseq; apply: face_subseq. Qed.

Lemma faces_uniq (cell : chain) : uniq cell -> uniq (faces cell).
Proof.
elim: cell => [|a cell IH] //; rewrite cons_uniq => /andP[Ha Hu].
have Hinj : injective (cons a) by move=> x y [].
rewrite faces_cons /= (map_inj_uniq Hinj) IH // andbT.
apply/negP => /mapP[f Hf Ecell]; move: Ha; rewrite Ecell.
by rewrite mem_head.
Qed.

(** A face of a face is reached through exactly two faces, or through
    none. *)
Lemma double_face_even (cell rho : chain) :
  uniq cell -> ~~ odd (count (fun f => rho \in faces f) (faces cell)).
Proof.
elim: cell rho => [|a cell IH] rho //; rewrite cons_uniq => /andP[Ha Hu].
rewrite faces_cons /= oddD count_map.
have Hsplit : forall f, f \in faces cell ->
    (preim (cons a) (fun f' => rho \in faces f')) f
    = (pred1 rho f) || (rho \in [seq a :: t | t <- faces f]).
  by move=> f _; rewrite /= faces_cons inE eq_sym.
rewrite (eq_in_count Hsplit).
have Hdisj : count (predI (pred1 rho)
                 (fun f => rho \in [seq a :: t | t <- faces f])) (faces cell) = 0.
  apply/eqP; rewrite -leqn0 leqNgt -has_count; apply/hasPn => f Hf /=.
  apply/negP => /andP[/eqP Ef /mapP[t _ Erho]].
  have Hin : a \in cell by apply: (faces_sub Hf); rewrite Ef Erho mem_head.
  by rewrite Hin in Ha.
have := count_predUI (pred1 rho)
          (fun f => rho \in [seq a :: t | t <- faces f]) (faces cell).
rewrite Hdisj addn0 => ->.
rewrite oddD (count_uniq_mem _ (faces_uniq Hu)) addbA addbb /= {Hsplit Hdisj}.
case: rho => [|b rho].
  rewrite (@eq_count _ _ pred0) ?count_pred0 // => f /=.
  by apply/negP => /mapP[].
case: (b =P a) => [->|Hba].
  rewrite (@eq_count _ _ (fun f => rho \in faces f)); last exact: IH.
  by move=> f /=; rewrite mem_map // => x y [].
rewrite (@eq_count _ _ pred0) ?count_pred0 // => f /=.
by apply/negP => /mapP[t _ [Eb _]]; apply: Hba.
Qed.

(** ** Combinations *)

Lemma mem_combinations (s c : seq nat) r :
  (c \in combinations s r) = subseq c s && (size c == r).
Proof.
elim: s c r => [|x s IH] c [|r] /=.
- by rewrite inE; case: c.
- by case: c.
- by rewrite inE; case: c => //= y c; rewrite andbF.
rewrite mem_cat IH; case: c => [|y c] /=.
  by rewrite sub0seq /= orbF; apply/negP => /mapP[].
rewrite eqSS; case: (y =P x) => [->|Hyx].
  have Hinj : injective (cons x) by move=> u v [].
  rewrite (mem_map Hinj) IH; case Hsz: (size c == r); rewrite ?andbF //= !andbT.
  case Hsub: (subseq c s) => //=; apply/negP => Hxc.
  by move: Hsub; rewrite (subseq_trans (subseq_cons c x) Hxc).
have -> : (y :: c \in [seq x :: c0 | c0 <- combinations s r]) = false.
  by apply/negP => /mapP[t _ [Ey _]]; apply: Hyx.
by [].
Qed.

(** ** Chain bases *)

Lemma size_sorted_uidset e : size (sorted_uidset e) = len e.
Proof. by rewrite /sorted_uidset size_sort. Qed.

Lemma sorted_uidset_uniq e : uniq (sorted_uidset e).
Proof. by rewrite /sorted_uidset sort_uniq undup_uniq. Qed.

Lemma mem_edge_kchains k e (c : chain) :
  (c \in edge_kchains k e)
  = [&& k < len e, subseq c (sorted_uidset e) & size c == k.+1].
Proof.
rewrite /edge_kchains; case: (len e =P k.+1) => [E|/eqP Hne].
  rewrite inE E ltnSn /=; apply/eqP/andP => [->|[Hsub /eqP Hsz]].
    by rewrite subseq_refl size_sorted_uidset E eqxx.
  apply/eqP; rewrite -(size_subseq_leqif Hsub) Hsz size_sorted_uidset E.
  by [].
case: (ltnP k.+1 (len e)) => Hlt; first by rewrite mem_combinations (ltnW Hlt).
by rewrite in_nil; have -> : (k < len e) = false by slia.
Qed.

Lemma mem_kchainbasis h k (c : chain) :
  (c \in kchainbasis h k) = has (fun e => c \in edge_kchains k e) h.
Proof.
rewrite /kchainbasis mem_sort mem_undup.
apply/flatten_mapP/hasP => [[e He Hc]|[e He Hc]]; by exists e.
Qed.

Lemma kchainbasis_uniq h k : uniq (kchainbasis h k).
Proof. by rewrite /kchainbasis sort_uniq undup_uniq. Qed.

Lemma kchainbasis_chain_uniq h k (c : chain) : c \in kchainbasis h k -> uniq c.
Proof.
rewrite mem_kchainbasis => /hasP[e _]; rewrite mem_edge_kchains.
by case/and3P => _ Hsub _; apply: subseq_uniq Hsub (sorted_uidset_uniq e).
Qed.

(** The chain bases of a hypergraph are closed under taking faces. *)
Lemma kchainbasis_face h k (c : chain) idx :
  c \in kchainbasis h k.+1 -> idx < size c -> face c idx \in kchainbasis h k.
Proof.
rewrite !mem_kchainbasis => /hasP[e He]; rewrite mem_edge_kchains.
case/and3P => Hk Hsub /eqP Hsz Hidx; apply/hasP; exists e => //.
rewrite mem_edge_kchains (ltnW Hk) size_face // Hsz eqxx andbT /=.
exact: subseq_trans (face_subseq c idx) Hsub.
Qed.

(** ** The boundary matrix *)

Lemma setitemE m n A r0 c0 v :
  wf m n A -> r0 < m -> c0 < n ->
  setitem A r0 c0 v
  = build m n (fun r c => if (r == r0) && (c == c0) then v else item A r c).
Proof.
move=> H Hr Hc; case: (H) => Hm Hn /andP[/eqP Hs _] _.
rewrite /setitem /setrow /build Hm Hn; congr Ndarray.
apply: (@eq_from_nth _ [::]).
  by rewrite size_set_nth size_mkseq Hs Hm; slia.
move=> r; rewrite size_set_nth Hs Hm => Hr0; have Hrm : r < m by slia.
rewrite nth_set_nth /= nth_mkseq //.
case: (r =P r0) => [->|_] /=; last by rewrite -(wf_getrow H).
have Hsz : size (getrow A r0) = n by rewrite (wf_getrow H) // size_mkseq.
apply: (@eq_from_nth _ 0).
  by rewrite size_set_nth size_mkseq Hsz; slia.
move=> c; rewrite size_set_nth Hsz => Hc0; have Hcn : c < n by slia.
by rewrite nth_set_nth /= nth_mkseq.
Qed.

Section BoundaryMatrix.

Variables km1basis kbasis : seq chain.
Let m := size km1basis.
Let n := size kbasis.

Lemma bk_mark_fold cell idxs bk :
  wf m n bk -> cell \in kbasis ->
  all (fun idx => face cell idx \in km1basis) idxs ->
  exists bk',
    [/\ foldM (bk_mark km1basis kbasis cell) bk idxs = Ok bk', wf m n bk'
      & forall r c, r < m -> c < n ->
          item bk' r c =
          if (c == index cell kbasis)
             && has (fun idx => index (face cell idx) km1basis == r) idxs
          then 1 else item bk r c].
Proof.
move=> Hbk Hcell; elim: idxs bk Hbk => [|idx idxs IH] bk Hbk /=.
  by move=> _; exists bk; split=> // r c _ _; rewrite andbF.
case/andP => Hf Hall.
have Hrow : index (face cell idx) km1basis < m by rewrite index_mem.
have Hcol : index cell kbasis < n by rewrite index_mem.
have Hbk1 : wf m n (setitem bk (index (face cell idx) km1basis)
                      (index cell kbasis) 1).
  rewrite (setitemE _ Hbk) //; apply: wf_build => r c _ _.
  by case: ifP => _ //; apply: wf_item Hbk.
have [bk' [E1 H1 I1]] := IH _ Hbk1 Hall.
exists bk'; split=> //.
  by rewrite {1}/bk_mark /index_of Hf Hcell /= E1.
move=> r c Hr Hc; rewrite I1 // (setitemE _ Hbk) // item_build //.
rewrite [index _ _ == r]eq_sym.
by case: (c == _); case: (r == _); case: (has _ _).
Qed.

Lemma bk_mark_fail cell idxs bk :
  cell \in kbasis -> has (fun idx => face cell idx \notin km1basis) idxs ->
  foldM (bk_mark km1basis kbasis cell) bk idxs = Raise ValueError.
Proof.
move=> Hcell; elim: idxs bk => [|idx idxs IH] bk //=.
rewrite {1}/bk_mark /index_of; case: ifP => Hf /=; last by [].
by rewrite Hcell /=; apply: IH.
Qed.

Lemma bk_fold_ok cells bk :
  wf m n bk -> {subset cells <= kbasis} -> all (faces_present km1basis) cells ->
  exists bk',
    [/\ foldM (fun bk cell =>
                 foldM (bk_mark km1basis kbasis cell) bk (range 0 (size cell)))
              bk cells = Ok bk', wf m n bk'
      & forall r c, r < m -> c < n ->
          item bk' r c = if marked km1basis kbasis cells r c then 1 else item bk r c].
Proof.
elim: cells bk => [|cell cells IH] bk Hbk Hsub /=.
  by move=> _; exists bk.
case/andP => Hp Hall.
have Hcell : cell \in kbasis by apply: Hsub; rewrite mem_head.
have Hsub' : {subset cells <= kbasis}.
  by move=> x Hx; apply: Hsub; rewrite inE Hx orbT.
have [bk1 [E1 H1 I1]] := bk_mark_fold Hbk Hcell Hp.
have [bk' [E2 H2 I2]] := IH _ H1 Hsub' Hall.
exists bk'; split=> //; first by rewrite E1 /= E2.
move=> r c Hr Hc; rewrite I2 // I1 // /marked /=.
by case: (has _ cells); case: (_ && _).
Qed.

Lemma bk_fold_fail cells bk :
  wf m n bk -> {subset cells <= kbasis} -> ~~ all (faces_present km1basis) cells ->
  foldM (fun bk cell =>
           foldM (bk_mark km1basis kbasis cell) bk (range 0 (size cell)))
        bk cells = Raise ValueError.
Proof.
elim: cells bk => [|cell cells IH] bk Hbk Hsub //=.
have Hcell : cell \in kbasis by apply: Hsub; rewrite mem_head.
have Hsub' : {subset cells <= kbasis}.
  by move=> x Hx; apply: Hsub; rewrite inE Hx orbT.
case Hp: (faces_present km1basis cell) => /= Hall.
  have [bk1 [-> H1 _]] := bk_mark_fold Hbk Hcell Hp.
  exact: IH.
rewrite bk_mark_fail //.
by move/negbT: Hp; rewrite /faces_present -has_predC.
Qed.

(** A face that is missing from the basis of the dimension below stops
    the construction. *)
Lemma bkMatrix_missing (cell : chain) idx :
  cell \in kbasis -> idx < size cell -> face cell idx \notin km1basis ->
  bkMatrix km1basis kbasis = Raise ValueError.
Proof.
move=> Hcell Hidx Hf; apply: bk_fold_fail => //; first exact: wf_zeros.
apply/allPn; exists cell => //; apply/allPn; exists idx => //.
by rewrite mem_range.
Qed.

Hypothesis Hu1 : uniq km1basis.
Hypothesis Hu : uniq kbasis.
Hypothesis Hclosed : forall cell idx,
  cell \in kbasis -> idx < size cell -> face cell idx \in km1basis.

Lemma markedE r c :
  r < m -> c < n ->
  marked km1basis kbasis kbasis r c = (nth [::] km1basis r \in faces (nth [::] kbasis c)).
Proof.
move=> Hr Hc; apply/hasP/mem_faces => [[cell Hcell /andP[/eqP Ec]]|[idx Hidx E]].
  case/hasP => idx; rewrite mem_range /= => Hidx /eqP Er.
  have Ecell : nth [::] kbasis c = cell by rewrite Ec nth_index.
  exists idx; rewrite Ecell // -Er nth_index //; exact: Hclosed.
exists (nth [::] kbasis c); first exact: mem_nth.
rewrite index_uniq // eqxx /=; apply/hasP; exists idx; first by rewrite mem_range.
by rewrite -E index_uniq.
Qed.

Lemma bkMatrix_ok :
  bkMatrix km1basis kbasis
  = Ok (build m n (fun r c =>
                     (nth [::] km1basis r \in faces (nth [::] kbasis c)) : nat)).
Proof.
have Hall : all (faces_present km1basis) kbasis.
  apply/allP => cell Hcell; apply/allP => idx; rewrite mem_range /= => Hidx.
  exact: Hclosed.
have [bk [E H I]] := bk_fold_ok (wf_zeros m n) (fun x Hx => Hx) Hall.
rewrite /bkMatrix E; congr Ok; rewrite (wf_eq H); apply: build_ext => r c Hr Hc.
by rewrite I // item_zeros markedE //; case: (_ \in _).
Qed.

End BoundaryMatrix.

(** ** The boundary of a boundary *)

Lemma foldr_addb_odd (T : Type) (b : T -> bool) (s : seq T) :
  foldr addb false [seq b k | k <- s] = odd (count b s).
Proof. by elim: s => //= x s ->; rewrite oddD oddb. Qed.

Lemma zerosE m n : zeros m n = build m n (fun _ _ => 0).
Proof.
apply: (wf_ext (wf_zeros m n)); first exact: wf_build.
by move=> i j Hi Hj; rewrite item_zeros item_build.
Qed.

Section BoundaryOfBoundary.

Variables X Y Z : seq chain.
Hypothesis HuY : uniq Y.
Hypothesis HuZ : forall c, c \in Z -> uniq c.
Hypothesis HZY : forall c idx, c \in Z -> idx < size c -> face c idx \in Y.

Lemma wf_incidence U V : wf (size U) (size V) (incidence U V).
Proof. by apply: wf_build => r c _ _; case: (_ \in _). Qed.

Lemma incidence_product :
  logical_matmul (incidence X Y) (incidence Y Z) = Ok (zeros (size X) (size Z)).
Proof.
rewrite (logical_matmulE (wf_incidence X Y) (wf_incidence Y Z)) zerosE.
congr Ok; apply: build_ext => i j Hi Hj.
rewrite /dot01 foldr_addb_odd.
set rho := nth [::] X i; set gamma := nth [::] Z j.
pose P : pred chain := predI (fun sigma => rho \in faces sigma)
                              (fun sigma => sigma \in faces gamma).
rewrite (@eq_in_count _ _ (fun k => P (nth [::] Y k))).
  move=> k; rewrite mem_iota add0n /= => Hk.
  rewrite /incidence !item_build // /P /= -/rho -/gamma.
  by case: (rho \in _); case: (_ \in faces gamma).
rewrite -[count _ _]/(count (preim (nth [::] Y) P) (iota 0 (size Y))).
rewrite -count_map -/(mkseq _ _) mkseq_nth.
have Hg : gamma \in Z by apply: mem_nth.
rewrite /P -count_filter.
have Hperm : perm_eq [seq sigma <- Y | sigma \in faces gamma] (faces gamma).
  apply: uniq_perm; [exact: filter_uniq | exact: faces_uniq (HuZ Hg) |].
  move=> sigma; rewrite mem_filter; case Hs: (sigma \in faces gamma) => //=.
  by case/mem_faces: Hs => idx Hidx ->; apply: HZY.
move/seq.permP: Hperm => ->.
by have := double_face_even rho (HuZ Hg); case: (odd _).
Qed.

End BoundaryOfBoundary.

(** The boundary matrices of three consecutive chain bases of a
    hypergraph. *)
Lemma bkMatrix_kchainbasis h k :
  bkMatrix (kchainbasis h k) (kchainbasis h k.+1)
  = Ok (incidence (kchainbasis h k) (kchainbasis h k.+1)).
Proof.
apply: bkMatrix_ok; [exact: kchainbasis_uniq | exact: kchainbasis_uniq |].
by move=> cell idx; apply: kchainbasis_face.
Qed.

Lemma boundary_matrices_compose h k :
  logical_matmul (incidence (kchainbasis h k) (kchainbasis h k.+1))
                 (incidence (kchainbasis h k.+1) (kchainbasis h k.+2))
  = Ok (zeros (size (kchainbasis h k)) (size (kchainbasis h k.+2))).
Proof.
apply: incidence_product; first exact: kchainbasis_uniq.
  by move=> c; apply: kchainbasis_chain_uniq.
by move=> c idx; apply: kchainbasis_face.
Qed.

(** ** The elementary operations on the store *)

Section Store.

(** The operations on values, under names that those of the store do not
    hide. *)
Local Abbreviation value_rswap := _rswap.
Local Abbreviation value_cswap := _cswap.
Local Abbreviation value_add_to_row := add_to_row.
Local Abbreviation value_add_to_column := add_to_column.

Import Heap.

Lemma set_nth_cat (T : Type) (x0 : T) (s1 s2 : seq T) k y :
  set_nth x0 (s1 ++ s2) (size s1 + k) y = s1 ++ set_nth x0 s2 k y.
Proof. by elim: s1 => [|x s1 IH] //=; rewrite IH. Qed.

Lemma buffer_cat (h l : heap) k : buffer (h ++ l) (size h + k) = buffer l k.
Proof.
rewrite /buffer nth_cat; have -> : (size h + k < size h) = false by slia.
by have -> : size h + k - size h = k by slia.
Qed.

Lemma buffer_old (h l : heap) k : k < size h -> buffer (h ++ l) k = buffer h k.
Proof. by move=> Hk; rewrite /buffer nth_cat Hk. Qed.

Lemma unchanged_cat (h l : heap) : unchanged h (h ++ l).
Proof. by rewrite /unchanged take_size_cat. Qed.

Lemma unchanged_size (h h' : heap) : unchanged h h' -> size h <= size h'.
Proof.
rewrite /unchanged => H; have := size_take (size h) h'; rewrite H.
by case: ltnP => //; slia.
Qed.

Lemma unchanged_trans (h1 h2 h3 : heap) :
  unchanged h1 h2 -> unchanged h2 h3 -> unchanged h1 h3.
Proof.
rewrite /unchanged => H12 H23.
rewrite -(cat_take_drop (size h2) h3) H23 -{1}(cat_take_drop (size h1) h2) H12.
by rewrite -catA take_size_cat.
Qed.

Lemma unchanged_buffer (h h' : heap) l :
  unchanged h h' -> l < size h -> buffer h' l = buffer h l.
Proof. by move=> H Hl; rewrite /buffer -(nth_take _ Hl) H. Qed.

Lemma unchanged_read (h h' : heap) a :
  unchanged h h' -> valid h a -> read h' a = read h a.
Proof. by move=> H Ha; rewrite /read (unchanged_buffer H). Qed.

Lemma unchanged_valid (h h' : heap) a :
  unchanged h h' -> valid h a -> valid h' a.
Proof. by move=> /unchanged_size Hs; rewrite /valid; slia. Qed.

Lemma take_set_nth (T : Type) (x0 : T) (s : seq T) n l y :
  n <= l -> n <= size s -> take n (set_nth x0 s l y) = take n s.
Proof.
elim: s n l => [|x s IH] [|n] [|l] //= Hnl Hn.
by rewrite IH.
Qed.

Lemma size_write_row (h : heap) a i r :
  valid h a -> size (write_row h a i r) = size h.
Proof. by rewrite /valid /write_row size_set_nth => Ha; slia. Qed.

Lemma unchanged_write_row (h0 h : heap) a i r :
  fresh h0 a -> unchanged h0 h -> unchanged h0 (write_row h a i r).
Proof.
rewrite /fresh /unchanged /write_row => Ha H.
by rewrite take_set_nth // (unchanged_size H).
Qed.

Lemma unchanged_rcons (h0 h : heap) A :
  unchanged h0 h -> unchanged h0 (rcons h A).
Proof.
move=> H; apply: (unchanged_trans H).
by rewrite -cats1; apply: unchanged_cat.
Qed.

Lemma buffer_rcons_new (h : heap) A : buffer (rcons h A) (size h) = A.
Proof. by rewrite /buffer nth_rcons ltnn eqxx. Qed.

Lemma buffer_rcons_old (h : heap) A l :
  l < size h -> buffer (rcons h A) l = buffer h l.
Proof. by move=> Hl; rewrite /buffer nth_rcons Hl. Qed.

Lemma buffer_write_same (h : heap) a i r :
  valid h a ->
  buffer (write_row h a i r) (base a)
  = if transposed a then transpose (setrow (transpose (buffer h (base a))) i r)
    else setrow (buffer h (base a)) i r.
Proof. by move=> Ha; rewrite /write_row {1}/buffer nth_set_nth /= eqxx. Qed.

Lemma buffer_write_other (h : heap) a i r l :
  l != base a -> buffer (write_row h a i r) l = buffer h l.
Proof.
by move=> Hl; rewrite /write_row {1}/buffer nth_set_nth /= (negbTE Hl).
Qed.

(** *** Row operations *)

Lemma heap_rswap i j (Sm : aref) (h : heap) :
  i < nrows (read h Sm) -> j < nrows (read h Sm) ->
  exists N h',
    [/\ Heap._rswap i j Sm h = Ok (N, h'), unchanged h h', fresh h N,
        valid h' N
      & transposed N = false
        /\ Ok (read h' N) = value_rswap i j (read h Sm)].
Proof.
move=> Hi Hj; set A := read h Sm.
pose N := ARef (size h) false.
pose h1 := rcons h A.
pose h2 := rcons h1 (Ndarray 1 (size (getrow A i)) [:: getrow A i]).
pose h3 := rcons h2 (Ndarray 1 (size (getrow A j)) [:: getrow A j]).
pose h4 := write_row h3 N i (getrow A j).
pose h5 := write_row h4 N j (getrow A i).
have R1 : read h1 N = A by rewrite /read /= buffer_rcons_new.
have R2 : read h2 N = A.
  by rewrite /read /= buffer_rcons_old ?buffer_rcons_new // size_rcons.
have V3 : valid h3 N by rewrite /valid /= !size_rcons; slia.
have V4 : valid h4 N by rewrite /valid size_write_row.
have B3 : buffer h3 (size h) = A.
  rewrite /h3 /h2 /h1.
  rewrite buffer_rcons_old; try by rewrite ?size_rcons; slia.
  rewrite buffer_rcons_old; try by rewrite ?size_rcons; slia.
  by rewrite buffer_rcons_new.
have E : Heap._rswap i j Sm h = Ok (N, h5).
  rewrite /Heap._rswap /deepcopy /alloc_row /alloc -/A -/h1 -/N.
  rewrite /row_view R1 /row_at Hi /= -/h2 R2 Hj /= -/h3.
  rewrite {1 2}/read_row /= buffer_rcons_new /= -/h4.
  rewrite /read_row /= buffer_write_other;
    try by rewrite /h1 size_rcons /=; slia.
  have -> : buffer h3 (size h1)
            = Ndarray 1 (size (getrow A i)) [:: getrow A i].
    rewrite /h3 buffer_rcons_old; try by rewrite /h2 size_rcons.
    by rewrite /h2 buffer_rcons_new.
  by [].
have FN : fresh h N by rewrite /fresh /=.
exists N, h5; split.
- exact: E.
- rewrite /h5 /h4 /h3 /h2 /h1.
  apply: unchanged_write_row; [exact: FN|].
  apply: unchanged_write_row; [exact: FN|].
  by do 3 apply: unchanged_rcons; rewrite /unchanged take_size.
- exact: FN.
- by rewrite /h5 /valid size_write_row.
- split=> //; rewrite /h5 /h4 /read /= buffer_write_same //.
  rewrite buffer_write_same //= B3.
  by rewrite /value_rswap /row_at -/A Hi Hj.
Qed.

Lemma heap_add_to_row i j (M : aref) (h : heap) :
  i < nrows (read h M) -> j < nrows (read h M) ->
  exists N h',
    [/\ Heap.add_to_row M i j h = Ok (N, h'), unchanged h h', fresh h N,
        valid h' N
      & transposed N = false
        /\ Ok (read h' N) = value_add_to_row (read h M) i j].
Proof.
move=> Hi Hj; set A := read h M.
pose N := ARef (size h) false.
pose r := logical_xor (getrow A i) (getrow A j).
pose h1 := rcons h A.
pose h2 := rcons h1 (Ndarray 1 (size r) [:: r]).
pose h3 := write_row h2 N i r.
have R1 : read h1 N = A by rewrite /read /= buffer_rcons_new.
have V2 : valid h2 N by rewrite /valid /= !size_rcons; slia.
have B2 : buffer h2 (size h) = A.
  rewrite /h2 /h1.
  rewrite buffer_rcons_old; try by rewrite ?size_rcons; slia.
  by rewrite buffer_rcons_new.
have E : Heap.add_to_row M i j h = Ok (N, h3).
  rewrite /Heap.add_to_row /deepcopy /alloc_row /alloc -/A -/h1 -/N.
  rewrite /row_view R1 /row_at Hi Hj /= -/r -/h2.
  by rewrite /read_row /= buffer_rcons_new.
have FN : fresh h N by rewrite /fresh /=.
exists N, h3; split.
- exact: E.
- rewrite /h3 /h2 /h1; apply: unchanged_write_row; [exact: FN|].
  by do 2 apply: unchanged_rcons; rewrite /unchanged take_size.
- exact: FN.
- by rewrite /h3 /valid size_write_row.
- split=> //; rewrite /h3 /read /= buffer_write_same //= B2.
  by rewrite /value_add_to_row /row_at -/A Hi Hj.
Qed.

(** *** Column operations *)

Lemma nrows_transpose_view (h : heap) (a : aref) :
  nrows (read h (transpose_view a)) = ncols (read h a).
Proof. by rewrite /read /=; case: (transposed a). Qed.

Lemma read_transpose_view (h : heap) (a : aref) :
  rectangular (buffer h (base a)) ->
  read h (transpose_view a) = transpose (read h a).
Proof.
by move=> Hr; rewrite /read /=; case: (transposed a) => //=; rewrite transposeK.
Qed.

Lemma heap_cswap i j (Sm : aref) (h : heap) :
  i < ncols (read h Sm) -> j < ncols (read h Sm) ->
  exists N h',
    [/\ Heap._cswap i j Sm h = Ok (N, h'), unchanged h h', fresh h N,
        valid h' N
      & rectangular (buffer h (base Sm)) ->
        Ok (read h' N) = value_cswap i j (read h Sm)].
Proof.
rewrite -!nrows_transpose_view => Hi Hj.
have [N [h' [E U F V [T R]]]] := heap_rswap Hi Hj.
exists (transpose_view N), h'; split=> //; first by rewrite /Heap._cswap E.
move=> Hrect; rewrite /value_cswap -(read_transpose_view Hrect) -R /=.
by rewrite /read /= T.
Qed.

Lemma heap_add_to_column i j (M : aref) (h : heap) :
  i < ncols (read h M) -> j < ncols (read h M) ->
  exists N h',
    [/\ Heap.add_to_column M i j h = Ok (N, h'), unchanged h h', fresh h N,
        valid h' N
      & rectangular (buffer h (base M)) ->
        Ok (read h' N) = value_add_to_column (read h M) i j].
Proof.
rewrite -!nrows_transpose_view => Hi Hj.
have [N [h' [E U F V [T R]]]] := heap_add_to_row Hi Hj.
exists (transpose_view N), h'; split=> //.
  by rewrite /Heap.add_to_column E.
move=> Hrect; rewrite /value_add_to_column -(read_transpose_view Hrect) -R /=.
by rewrite /read /= T.
Qed.

(** *** Operations on a list of arrays *)

Lemma map_heap_fresh (f : aref -> heap -> result (aref * heap))
    (pre : ndarray -> bool) :
  (forall M h, pre (read h M) ->
     exists N h', [/\ f M h = Ok (N, h'), unchanged h h', fresh h N
                    & valid h' N]) ->
  forall args h,
    all (fun M => (base M < size h) && pre (read h M)) args ->
    exists output h',
      [/\ map_heap f args h = Ok (output, h'), unchanged h h',
          all (fun N => size h <= base N) output
        & size output = size args].
Proof.
move=> Hf; elim=> [|M args IH] h /=.
  by move=> _; exists [::], h; split=> //; rewrite /unchanged take_size.
case/andP => /andP[HM Hpre] Hall.
have [N [h1 [E1 U1 F1 V1]]] := Hf M h Hpre.
have Hall1 : all (fun M => (base M < size h1) && pre (read h1 M)) args.
  apply: sub_all Hall => M' /andP[HM' Hpre'].
  by rewrite (unchanged_read U1) // Hpre' andbT; apply: (unchanged_valid U1).
have [output [h' [E2 U2 F2 Hsz]]] := IH h1 Hall1.
exists (N :: output), h'; split=> /=.
- by rewrite E1 /= E2.
- exact: unchanged_trans U1 U2.
- rewrite F1 /=; apply: sub_all F2 => N'.
  by have := unchanged_size U1; slia.
- by rewrite Hsz.
Qed.

Lemma heap_swap_rows i j (args : seq aref) (h : heap) :
  all (fun M => (base M < size h)
                && ((i < nrows (read h M)) && (j < nrows (read h M)))) args ->
  exists output h',
    [/\ Heap.swap_rows i j args h = Ok (output, h'), unchanged h h',
        all (fun N => size h <= base N) output
      & size output = size args].
Proof.
apply: (@map_heap_fresh _ (fun A => (i < nrows A) && (j < nrows A))).
move=> M h0 /andP[Hi Hj].
by have [N [h' [E U F V _]]] := heap_rswap Hi Hj; exists N, h'.
Qed.

Lemma heap_swap_columns i j (args : seq aref) (h : heap) :
  all (fun M => (base M < size h)
                && ((i < ncols (read h M)) && (j < ncols (read h M)))) args ->
  exists output h',
    [/\ Heap.swap_columns i j args h = Ok (output, h'), unchanged h h',
        all (fun N => size h <= base N) output
      & size output = size args].
Proof.
apply: (@map_heap_fresh _ (fun A => (i < ncols A) && (j < ncols A))).
move=> M h0 /andP[Hi Hj].
by have [N [h' [E U F V _]]] := heap_cswap Hi Hj; exists N, h'.
Qed.

End Store.

(** * The claims of the specification *)

Section Claims.

Import GRing.Theory.
Local Open Scope ring_scope.

(** The ones on the diagonal of the Smith normal form count the rank. *)
Lemma smith_normal_form_mod2_rank (M : ndarray) :
  matrix01 M ->
  \rank (mx_of (nrows M) (ncols M) M)
  = match smith_normal_form_mod2 M with
    | Ok (_, _, Sm, _) => diagonal_ones Sm
    | Raise _ => 0%N
    end.
Proof.
move=> HM.
have [L [R [Sm [Linv [t [-> H Ht HP]]]]]] := smith_normal_form_mod2_spec HM.
case: (H) => [[_ _ HS _] _ _ _].
rewrite (pdiag_diagonal_ones HS Ht HP) -(related_rank H) (pdiag_mx HP).
by rewrite rank_pid_mx //; move: Ht; rewrite leq_min => /andP[].
Qed.

(** C1: on a rectangular 0/1 matrix [M], [smith_normal_form_mod2] returns
    0/1 matrices [L], [R], [S], [Linv] of the right shapes with
    [L * M * R = S] and [L * Linv = 1], both as the module's own products
    compute them and as products of matrices over the field of two
    elements; [S] is diagonal, and the number of ones on its diagonal is
    the rank of [M] over that field. *)
Theorem smith_normal_form_mod2_correct (M : ndarray) :
  matrix01 M ->
  let m := nrows M in let n := ncols M in
  exists L R Sm Linv,
    [/\ smith_normal_form_mod2 M = Ok (L, R, Sm, Linv),
        [/\ wf m m L, wf n n R, wf m n Sm & wf m m Linv],
        matmulreduce [:: L; M; R] false = Ok Sm
        /\ mx_of m m L *m mx_of m n M *m mx_of n n R = mx_of m n Sm,
        logical_matmul L Linv = Ok (eye m)
        /\ mx_of m m L *m mx_of m m Linv = 1%:M
      & is_diagonal Sm
        /\ diagonal_ones Sm = \rank (mx_of m n M)].
Proof.
move=> HM m n.
have Hrk := smith_normal_form_mod2_rank HM.
have [L [R [Sm [Linv [t [E H Ht HP]]]]]] := smith_normal_form_mod2_spec HM.
have [HP1 HP2] := related_products (wf_matrix01 HM) H.
case: (H) => [[HL HR HS HLi] H1 H2 _].
exists L, R, Sm, Linv; split.
- exact: E.
- by split.
- by split.
- by split.
- split; first exact: pdiag_is_diagonal HS HP.
  by rewrite Hrk E.
Qed.

Lemma smith_normal_form_mod2_correct_witness :
  exists L R Sm Linv,
    [/\ smith_normal_form_mod2 triangle_bd1 = Ok (L, R, Sm, Linv),
        [/\ wf 3 3 L, wf 3 3 R, wf 3 3 Sm & wf 3 3 Linv],
        matmulreduce [:: L; triangle_bd1; R] false = Ok Sm
        /\ mx_of 3 3 L *m mx_of 3 3 triangle_bd1 *m mx_of 3 3 R
           = mx_of 3 3 Sm,
        logical_matmul L Linv = Ok (eye 3)
        /\ mx_of 3 3 L *m mx_of 3 3 Linv = 1%:M
      & is_diagonal Sm
        /\ diagonal_ones Sm = \rank (mx_of 3 3 triangle_bd1)].
Proof. exact: (@smith_normal_form_mod2_correct triangle_bd1 isT). Defined.

(** C2: on a rectangular 0/1 matrix [M], [reduced_row_echelon_form_mod2]
    returns 0/1 matrices [L], [S], [Linv] of the right shapes with
    [L * M = S] and [L * Linv = 1]; [S] is in reduced row echelon form:
    every pivot is the only non-zero entry of its column, and the pivot
    columns increase strictly from one row to the next. *)
Theorem reduced_row_echelon_form_mod2_correct (M : ndarray) :
  matrix01 M ->
  let m := nrows M in let n := ncols M in
  exists L Sm Linv,
    [/\ reduced_row_echelon_form_mod2 M = Ok (L, Sm, Linv),
        [/\ wf m m L, wf m n Sm & wf m m Linv],
        logical_matmul L M = Ok Sm
        /\ mx_of m m L *m mx_of m n M = mx_of m n Sm,
        logical_matmul L Linv = Ok (eye m)
        /\ mx_of m m L *m mx_of m m Linv = 1%:M
      & is_rref Sm].
Proof.
move=> HM m n.
have [L [Sm [Linv [E H HR]]]] := reduced_row_echelon_form_mod2_spec HM.
case: (H) => [[HL _ HS HLi] H1 H2 _].
have H1' : mx_of m m L *m mx_of m n M = mx_of m n Sm.
  by rewrite -H1 mx_of_eye mulmx1.
exists L, Sm, Linv; split.
- exact: E.
- by split.
- split; last exact: H1'.
  exact: (logical_matmul_mx HL (wf_matrix01 HM) HS H1').
- split; last exact: H2.
  by apply: (logical_matmul_mx HL HLi (wf_eye m)); rewrite mx_of_eye.
- exact: HR.
Qed.

Lemma reduced_row_echelon_form_mod2_correct_witness :
  exists L Sm Linv,
    [/\ reduced_row_echelon_form_mod2 triangle_bd1 = Ok (L, Sm, Linv),
        [/\ wf 3 3 L, wf 3 3 Sm & wf 3 3 Linv],
        logical_matmul L triangle_bd1 = Ok Sm
        /\ mx_of 3 3 L *m mx_of 3 3 triangle_bd1 = mx_of 3 3 Sm,
        logical_matmul L Linv = Ok (eye 3)
        /\ mx_of 3 3 L *m mx_of 3 3 Linv = 1%:M
      & is_rref Sm].
Proof. exact: (@reduced_row_echelon_form_mod2_correct triangle_bd1 isT). Defined.

End Claims.

(** C5: for a hypergraph and [k >= 1], the boundary matrices built from
    its chain bases of dimensions [k - 1], [k] and [k + 1] exist, and
    their product is the matrix of zeros. *)
Theorem boundary_of_boundary_zero (h : Hypergraph) (k : nat) :
  0 < k ->
  exists B1 B2,
    [/\ bkMatrix (kchainbasis h k.-1) (kchainbasis h k) = Ok B1,
        bkMatrix (kchainbasis h k) (kchainbasis h k.+1) = Ok B2
      & logical_matmul B1 B2
        = Ok (zeros (size (kchainbasis h k.-1)) (size (kchainbasis h k.+1)))].
Proof.
case: k => [|k] // _; rewrite [k.+1.-1]/=.
exists (incidence (kchainbasis h k) (kchainbasis h k.+1)),
       (incidence (kchainbasis h k.+1) (kchainbasis h k.+2)); split.
- exact: bkMatrix_kchainbasis.
- exact: bkMatrix_kchainbasis.
- exact: boundary_matrices_compose.
Qed.

Lemma boundary_of_boundary_zero_witness :
  exists B1 B2,
    [/\ bkMatrix (kchainbasis triangle 0) (kchainbasis triangle 1) = Ok B1,
        bkMatrix (kchainbasis triangle 1) (kchainbasis triangle 2) = Ok B2
      & logical_matmul B1 B2
        = Ok (zeros (size (kchainbasis triangle 0))
                    (size (kchainbasis triangle 2)))].
Proof. exact: (@boundary_of_boundary_zero triangle 1 isT). Defined.

(** C6: with the start column 0 the search does not scan from column 0:
    it scans from column [s1], as it does when no start column is given.
    On the matrix [[0, 0], [1, 0]] with [s1 = 1] and [s2 = 0] it reports no
    pivot, though the entry at [(1, 0)] of the submatrix [M[1:, 0:]] is a
    one. *)
Theorem get_next_pivot_start_column_zero :
  (forall M s1, _get_next_pivot M s1 (Some 0) = _get_next_pivot M s1 None)
  /\ _get_next_pivot lower_left 1 (Some 0) = None
  /\ item lower_left 1 0 = 1.
Proof. by []. Qed.

(** C7: when a face of a chain of the k-basis is not in the (k-1)-basis,
    [bkMatrix] raises the [ValueError] of [list.index] and returns no
    matrix. *)
Theorem bkMatrix_missing_face (km1basis kbasis : seq chain) (cell : chain)
    (idx : nat) :
  cell \in kbasis -> idx < size cell -> face cell idx \notin km1basis ->
  bkMatrix km1basis kbasis = Raise ValueError
  /\ forall bk, bkMatrix km1basis kbasis <> Ok bk.
Proof.
move=> Hc Hi Hf; have E := bkMatrix_missing Hc Hi Hf.
by split=> // bk; rewrite E.
Qed.

Lemma bkMatrix_missing_face_witness :
  bkMatrix [:: [:: 1]; [:: 2]] [:: [:: 1; 3]] = Raise ValueError
  /\ forall bk, bkMatrix [:: [:: 1]; [:: 2]] [:: [:: 1; 3]] <> Ok bk.
Proof.
exact: (@bkMatrix_missing_face [:: [:: 1]; [:: 2]] [:: [:: 1; 3]]
          [:: 1; 3] 0 isT isT isT).
Defined.

(** The sum of a matrix without a non-zero entry. *)
Lemma np_sum_all_zeros (A : ndarray) : all_zeros A -> np_sum A = 0.
Proof.
rewrite /all_zeros /np_sum; elim: (data A) => [|r rows IH] //= /andP[Hr Hrows].
rewrite IH // addn0; elim: r Hr => [|x r IHr] //= /andP[/eqP -> Hr].
by rewrite IHr.
Qed.

(** A matrix without columns has no non-zero entry. *)
Lemma all_zeros_no_columns (A : ndarray) :
  rectangular A -> ncols A = 0 -> all_zeros A.
Proof.
move=> /andP[_ /allP Hr] Hn; apply/allP => r /Hr; rewrite Hn.
by case: r.
Qed.

(** C10: when the matrix [im2] of the image basis has no non-zero entry,
    as is the case when it has no columns, [coset] returns [None] for
    every vector [bs], and the shortest-basis search over the rows of
    [proj] yields a list of [None]s. *)
Theorem coset_of_zero_image (im2 : ndarray) (bs : seq nat) (shortest : bool)
    (proj : seq (seq nat)) :
  all_zeros im2 || (rectangular im2 && (ncols im2 == 0)) ->
  coset im2 bs shortest = Ok None
  /\ shortest_search im2 proj = Ok (nseq (size proj) None).
Proof.
move=> H; have Hz : np_sum im2 == 0.
  apply/eqP; apply: np_sum_all_zeros; case/orP: H => // /andP[Hr /eqP Hn].
  exact: all_zeros_no_columns.
have Hc b s : coset im2 b s = Ok None by rewrite /coset Hz.
split=> //; rewrite /shortest_search.
by elim: proj => [|r proj IH] //=; rewrite Hc /= IH.
Qed.

Lemma coset_of_zero_image_witness :
  coset (zeros 3 0) [:: 1; 1; 1] true = Ok None
  /\ shortest_search (zeros 3 0) [:: [:: 1; 1; 1]] = Ok [:: None].
Proof.
exact: (@coset_of_zero_image (zeros 3 0) [:: 1; 1; 1] true [:: [:: 1; 1; 1]]
          isT).
Defined.

(** The rank of the two boundary matrices of the triangle. *)
Lemma rank_by_smith_normal_form (M : ndarray) (r : nat) :
  matrix01 M ->
  match smith_normal_form_mod2 M with
  | Ok (_, _, Sm, _) => diagonal_ones Sm
  | Raise _ => 0
  end = r ->
  \rank (mx_of (nrows M) (ncols M) M) = r.
Proof. by move=> HM <-; apply: smith_normal_form_mod2_rank. Qed.

(** C3, as the code has it: for the hypergraph whose only edge is
    {1, 2, 3} the chain bases of dimensions 0 and 1 are [(1), (2), (3)] and
    [(1, 2), (1, 3), (2, 3)] and the boundary matrix of dimension 1 is
    [[1, 1, 0], [1, 0, 1], [0, 1, 1]], of rank 2; the edge itself is a
    2-chain, the boundary matrix of dimension 2 is [[1], [1], [1]], of
    rank 1, the Betti number logged is 3 - 2 - 1 = 0 and
    [hypergraph_homology_basis] returns the empty basis.  For the
    hypergraph whose edges are {1, 2}, {1, 3} and {2, 3}, with the same
    chains of dimensions 0 and 1, there is no 2-chain, the Betti number
    logged is 3 - 2 - 0 = 1 and the basis returned is the one generator
    made of the three edges. *)
Theorem triangle_homology_basis :
  [/\ kchainbasis triangle 0 = [:: [:: 1]; [:: 2]; [:: 3]]
      /\ kchainbasis triangle 1 = [:: [:: 1; 2]; [:: 1; 3]; [:: 2; 3]],
      bkMatrix (kchainbasis triangle 0) (kchainbasis triangle 1)
      = Ok triangle_bd1
      /\ \rank (mx_of 3 3 triangle_bd1) = 2,
      kchainbasis triangle 2 = [:: [:: 1; 2; 3]]
      /\ bkMatrix (kchainbasis triangle 1) (kchainbasis triangle 2)
         = Ok (Ndarray 3 1 [:: [:: 1]; [:: 1]; [:: 1]])
      /\ \rank (mx_of 3 1 (Ndarray 3 1 [:: [:: 1]; [:: 1]; [:: 1]])) = 1,
      forall shortest,
        returned (hypergraph_homology_basis triangle 1 shortest None no_files)
        = Ok (Basis (if shortest then ShortestChains [::] else Chains [::]))
    & exists2 w,
        hypergraph_homology_basis triangle 1 false (Some log_path) no_files
        = Ok (Basis (Chains [::]), w)
        & logged w log_path (Key_betti 1) = Some (LogInt 0)]
  /\ [/\ kchainbasis hollow_triangle 0 = kchainbasis triangle 0
         /\ kchainbasis hollow_triangle 1 = kchainbasis triangle 1,
         kchainbasis hollow_triangle 2 = [::],
         returned (hypergraph_homology_basis hollow_triangle 1 false None
                     no_files)
         = Ok (Basis (Chains [:: [:: [:: 1; 2]; [:: 1; 3]; [:: 2; 3]]]))
       & exists2 w,
           hypergraph_homology_basis hollow_triangle 1 false (Some log_path)
             no_files
           = Ok (Basis (Chains [:: [:: [:: 1; 2]; [:: 1; 3]; [:: 2; 3]]]), w)
           & logged w log_path (Key_betti 1) = Some (LogInt 1)].
Proof.
split; split.
- by [].
- split; first by vm_compute.
  exact: (@rank_by_smith_normal_form triangle_bd1 2).
- split; first by [].
  split; first by vm_compute.
  exact: (@rank_by_smith_normal_form
            (Ndarray 3 1 [:: [:: 1]; [:: 1]; [:: 1]]) 1).
- by case; vm_compute.
- by eexists; [vm_compute; reflexivity | vm_compute].
- by [].
- by [].
- by vm_compute.
- by eexists; [vm_compute; reflexivity | vm_compute].
Qed.

(** Against C3 as the specification words it: the edge {1, 2, 3} is a
    2-chain of its hypergraph, and the basis returned in dimension 1 is
    not the generator made of the three sides. *)
Lemma triangle_edge_is_a_2_chain :
  kchainbasis triangle 2 <> [::]
  /\ returned (hypergraph_homology_basis triangle 1 false None no_files)
     <> Ok (Basis (Chains [:: [:: [:: 1; 2]; [:: 1; 3]; [:: 2; 3]]])).
Proof. by split; vm_compute. Qed.

(** [np.max] of the edge sizes of a hypergraph that has an edge. *)
Lemma np_max_edge_size (h : Hypergraph) :
  h <> [::] -> np_max [seq len e | e <- h] = Ok (max_edge_size h).
Proof.
case: h => [|e h] // _; rewrite /np_max /max_edge_size /=.
congr Ok; elim: h (len e) => [|e' h IH] x /=; first by rewrite maxn0.
by rewrite IH maxnA.
Qed.

(** C4, as the code has it: on a hypergraph with at least one edge and an
    integer [k] below 1 or above the dimension of the largest simplex,
    [hypergraph_homology_basis] returns ['wrong dim'] at once: no homology
    basis, no exception, and no log written. *)
Theorem hypergraph_homology_basis_wrong_dim (h : Hypergraph) (k : int)
    (shortest : bool) (log : option String.string) (w : world) :
  h <> [::] ->
  (k < 1)%R || (max_simplex_dim h < k)%R ->
  hypergraph_homology_basis h k shortest log w = Ok (WrongDim, w).
Proof.
move=> Hh Hk; rewrite /hypergraph_homology_basis (np_max_edge_size Hh) /=.
by rewrite -/(max_simplex_dim h) orbC Hk.
Qed.

Lemma hypergraph_homology_basis_wrong_dim_witness :
  hypergraph_homology_basis triangle 3 false (Some log_path) no_files
  = Ok (WrongDim, no_files).
Proof.
apply: (@hypergraph_homology_basis_wrong_dim triangle 3 false (Some log_path)
          no_files); first by [].
by vm_compute.
Defined.

(** Against C4 as the specification words it: on the hypergraph without
    edges the largest edge size does not exist and [np.max] raises. *)
Lemma hypergraph_homology_basis_no_edges :
  hypergraph_homology_basis [::] 0 false None no_files = Raise ValueError.
Proof. by []. Qed.

(** ** The log *)

Section Log.

Variables (A B : Type) (rel : result B -> result B -> Prop).

(** Two runs that differ only after a common first step. *)
Lemma bind_rel (c : result A) (k0 k1 : A -> result B) :
  (forall e, rel (Raise e) (Raise e)) ->
  (forall a, c = Ok a -> rel (k0 a) (k1 a)) ->
  rel (bind c k0) (bind c k1).
Proof. by case: c => [a|e] He Hk /=; [apply: Hk | apply: He]. Qed.

End Log.

(** Writing the log at the end of a run. *)
Lemma write_log_last (A : Type) (entries : logdict) (path : String.string)
    (w : world) (b : A) :
  same_unless_log_fails w path
    (do w' <- write_log None entries w; Ok (b, w'))
    (do w' <- write_log (Some path) entries w; Ok (b, w')).
Proof.
rewrite /same_unless_log_fails /log_failure /=; split=> //.
case: path => [|a path] //=; rewrite /pickle_load.
by case: (lookup _ _) => [[d|s| |]|] /=; rewrite /pickle_dump;
  try case: (has _ _).
Qed.

(** C9, as the code has it: [homology_basis] with a log raises what it
    raises without one, and returns what it returns without one whenever
    the update of the log ends without an exception: the file at the
    path is missing, does not unpickle, or holds a dictionary or a set,
    and the path can be opened for writing.  Otherwise the exception of
    the update is raised in place of the basis: [AttributeError] when the
    file holds an object without an [update] method, [OSError] when the
    path cannot be opened for writing. *)
Theorem homology_basis_log (bd : seq (nat * ndarray)) (k : nat)
    (C : option (seq chain)) (shortest : bool) (path : String.string)
    (w : world) :
  same_unless_log_fails w path
    (homology_basis bd k C shortest None w)
    (homology_basis bd k C shortest (Some path) w).
Proof.
rewrite /homology_basis.
apply: bind_rel => [//|bdk _].
apply: bind_rel => [//|[[[L1 R1] S1] L1inv] _].
apply: bind_rel => [//|bdk1 _].
apply: bind_rel => [//|[[[L2 R2] S2] L2inv] _].
apply: bind_rel => [//|prod _].
apply: bind_rel => [//|[[L Sm] Linv] _].
apply: bind_rel => [//|[basis proj] _].
exact: write_log_last.
Qed.

(** Against C9 as the specification words it: where the path of the log
    cannot be opened for writing, the run with the log raises [OSError]
    and the run without it returns a basis. *)
Lemma homology_basis_log_unwritable :
  returned (homology_basis triangle_bd 1 None false (Some log_path) read_only)
  <> returned (homology_basis triangle_bd 1 None false None read_only).
Proof. by vm_compute. Qed.

(** ** The elementary operations and their inputs *)

Section Frame.

Import Heap.

Variables (h : heap) (i j : nat).

Lemma returns_fresh_of (M : aref) (c : result (aref * heap)) :
  valid h M ->
  (exists N h', [/\ c = Ok (N, h'), unchanged h h', fresh h N & valid h' N]) ->
  returns_fresh h M c.
Proof.
move=> HM [N [h' [E U F V]]]; exists N, h'; split=> //.
  exact: unchanged_read.
by move: HM F; rewrite /valid /fresh; slia.
Qed.

Lemma returns_fresh_list_of (args : seq aref)
    (c : result (seq aref * heap)) :
  all (fun A => base A < size h) args ->
  (exists output h',
     [/\ c = Ok (output, h'), unchanged h h',
         all (fun N => size h <= base N) output
       & size output = size args]) ->
  returns_fresh_list h args c.
Proof.
move=> Hargs [output [h' [E U F Hsz]]]; exists output, h'; split=> //.
  elim: args Hargs {Hsz} => [|M args IH] //= /andP[HM Hargs].
  by rewrite (unchanged_read U HM) eqxx IH.
apply: sub_all F => N HN; rewrite HN /=.
by apply: sub_all Hargs => M HM; move: HM HN; slia.
Qed.

Lemma all_valid_and (P : ndarray -> bool) (args : seq aref) :
  all (fun A => base A < size h) args -> all (fun A => P (read h A)) args ->
  all (fun A => (base A < size h) && P (read h A)) args.
Proof.
by elim: args => [|M args IH] //= /andP[-> H1] /andP[-> H2]; rewrite IH.
Qed.

(** C8: on a store [h] of array buffers, each of [add_to_row],
    [add_to_column], [swap_rows] and [swap_columns], called with indices
    in range on arrays of the store, returns; every buffer of [h] is then
    as it was, so every input holds the entries it held; and what is
    returned reads a buffer allocated by the call, which is the buffer of
    no input. *)
Theorem elementary_operations_fresh (M : aref) (args : seq aref) :
  valid h M -> all (fun A => base A < size h) args ->
  [/\ i < nrows (read h M) -> j < nrows (read h M) ->
      returns_fresh h M (Heap.add_to_row M i j h),
      i < ncols (read h M) -> j < ncols (read h M) ->
      returns_fresh h M (Heap.add_to_column M i j h),
      all (fun A => (i < nrows (read h A)) && (j < nrows (read h A))) args ->
      returns_fresh_list h args (Heap.swap_rows i j args h)
    & all (fun A => (i < ncols (read h A)) && (j < ncols (read h A))) args ->
      returns_fresh_list h args (Heap.swap_columns i j args h)].
Proof.
move=> HM Hargs; split.
- move=> Hi Hj; apply: returns_fresh_of => //.
  by have [N [h' [E U F V _]]] := heap_add_to_row Hi Hj; exists N, h'.
- move=> Hi Hj; apply: returns_fresh_of => //.
  by have [N [h' [E U F V _]]] := heap_add_to_column Hi Hj; exists N, h'.
- move=> Hij; apply: returns_fresh_list_of => //.
  apply: heap_swap_rows.
  exact: (@all_valid_and (fun A => (i < nrows A) && (j < nrows A))).
- move=> Hij; apply: returns_fresh_list_of => //.
  apply: heap_swap_columns.
  exact: (@all_valid_and (fun A => (i < ncols A) && (j < ncols A))).
Qed.

End Frame.

Lemma elementary_operations_fresh_witness :
  [/\ returns_fresh one_array its_view (Heap.add_to_row its_view 0 1 one_array),
      returns_fresh one_array its_view
        (Heap.add_to_column its_view 0 1 one_array),
      returns_fresh_list one_array [:: its_view]
        (Heap.swap_rows 0 1 [:: its_view] one_array)
    & returns_fresh_list one_array [:: its_view]
        (Heap.swap_columns 0 1 [:: its_view] one_array)].
Proof.
have [H1 H2 H3 H4] :=
  @elementary_operations_fresh one_array 0 1 its_view [:: its_view] isT isT.
by split; [apply: H1 | apply: H2 | apply: H3 | apply: H4].
Defined.

(** * Further properties of the code *)

(** ** Chain bases *)

Lemma tuple_le_total : total tuple_le.
Proof.
elim=> [|x s IH] [|y t] //=.
case: (ltngtP x y) => //= _; exact: IH.
Qed.

Lemma sorted_uidset_ltn (e : Entity) : sorted ltn (sorted_uidset e).
Proof.
rewrite ltn_sorted_uniq_leq sorted_uidset_uniq /=.
exact: (sort_sorted leq_total).
Qed.

Lemma mem_sorted_uidset (e : Entity) : sorted_uidset e =i e.
Proof. by move=> v; rewrite /sorted_uidset mem_sort mem_undup. Qed.

(** The subsequences of the sorted members of an edge are the increasing
    lists of members. *)
Lemma subseq_sorted_uidset (c : chain) (e : Entity) :
  subseq c (sorted_uidset e) = sorted ltn c && all (fun v => v \in e) c.
Proof.
apply/idP/andP => [Hsub|[Hs /allP Hall]].
  split; first exact: (subseq_sorted ltn_trans Hsub (sorted_uidset_ltn e)).
  by apply/allP => v /(mem_subseq Hsub); rewrite mem_sorted_uidset.
have -> : c = [seq v <- sorted_uidset e | v \in c].
  apply: (irr_sorted_eq ltn_trans ltnn) => //.
    exact: (sorted_filter ltn_trans _ (sorted_uidset_ltn e)).
  move=> v; rewrite mem_filter mem_sorted_uidset.
  by case Hv: (v \in c) => //=; rewrite Hall.
exact: filter_subseq.
Qed.

(** The chains of dimension [k] are the strictly increasing lists of
    [k + 1] members of one edge. *)
Lemma mem_kchainbasis_edges (h : Hypergraph) (k : nat) (c : chain) :
  (c \in kchainbasis h k)
  = [&& size c == k.+1, sorted ltn c
      & has (fun e : Entity => all (fun v => v \in e) c) h].
Proof.
rewrite mem_kchainbasis.
case Hsz: (size c == k.+1) => /=; last first.
  by apply/hasPn => e _; rewrite mem_edge_kchains Hsz !andbF.
case Hs: (sorted ltn c) => /=; last first.
  apply/hasPn => e _; rewrite mem_edge_kchains subseq_sorted_uidset Hs.
  by rewrite andbF.
apply: eq_in_has => e _; rewrite mem_edge_kchains subseq_sorted_uidset Hs Hsz.
rewrite andbT /=; case Hall: (all _ c); rewrite ?andbF ?andbT //.
have Hu : uniq c by apply: sorted_uniq Hs; [exact: ltn_trans | exact: ltnn].
have Hsub : {subset c <= uidset e}.
  by move=> v Hv; rewrite mem_undup; apply: (allP Hall).
have := uniq_leq_size Hu Hsub.
by rewrite (eqP Hsz).
Qed.

(** X1: the chain basis of dimension [k] is in the order of tuples and
    without repetitions, and its chains are the strictly increasing lists
    of [k + 1] members of one edge. *)
Theorem kchainbasis_spec (h : Hypergraph) (k : nat) :
  [/\ sorted tuple_le (kchainbasis h k), uniq (kchainbasis h k)
    & forall c : chain,
        (c \in kchainbasis h k)
        = [&& size c == k.+1, sorted ltn c
            & has (fun e : Entity => all (fun v => v \in e) c) h]].
Proof.
split; [exact: (sort_sorted tuple_le_total) | exact: kchainbasis_uniq |].
exact: mem_kchainbasis_edges.
Qed.

(** X2: the chains of a hypergraph form a simplicial complex: a
    subsequence with [j + 1] elements of a chain of some dimension is a
    chain of dimension [j]. *)
Theorem kchainbasis_downward_closed (h : Hypergraph) (k j : nat)
    (c d : chain) :
  c \in kchainbasis h k -> subseq d c -> size d = j.+1 ->
  d \in kchainbasis h j.
Proof.
rewrite !mem_kchainbasis_edges => /and3P[_ Hs /hasP[e He Hall]] Hsub ->.
rewrite eqxx (subseq_sorted ltn_trans Hsub Hs) /=.
apply/hasP; exists e => //; apply/allP => v /(mem_subseq Hsub).
exact: (allP Hall).
Qed.

Lemma kchainbasis_downward_closed_witness :
  [:: 1; 3] \in kchainbasis [:: [:: 3; 1; 2; 4]] 1.
Proof.
exact: (@kchainbasis_downward_closed [:: [:: 3; 1; 2; 4]] 2 1
          [:: 1; 3; 4] [:: 1; 3] isT isT erefl).
Defined.

(** ** Boundary matrices *)

Section Incidence.

Variables km1basis kbasis : seq chain.
Hypothesis Hu1 : uniq km1basis.
Hypothesis Hu : uniq kbasis.
Hypothesis Hcells : forall cell, cell \in kbasis -> uniq cell.
Hypothesis Hclosed : forall cell idx,
  cell \in kbasis -> idx < size cell -> face cell idx \in km1basis.

(** The ones of a column of the incidence matrix are the faces of its
    chain. *)
Lemma incidence_column_sum c :
  c < size kbasis ->
  sumn [seq item (incidence km1basis kbasis) r c | r <- range 0 (size km1basis)]
  = size (nth [::] kbasis c).
Proof.
move=> Hc; set cell := nth [::] kbasis c.
have Hcell : cell \in kbasis by apply: mem_nth.
rewrite /range subn0.
have -> : [seq item (incidence km1basis kbasis) r c | r <- iota 0 (size km1basis)]
          = [seq (x \in faces cell : nat) | x <- km1basis].
  rewrite -{3}(mkseq_nth [::] km1basis) /mkseq -map_comp.
  apply/eq_in_map => r; rewrite mem_iota add0n /= => Hr.
  by rewrite /incidence item_build.
rewrite sumn_count -size_filter.
have -> : size (nth [::] kbasis c) = size (faces cell).
  by rewrite /faces size_map /range subn0 size_iota.
apply: perm_size; apply: uniq_perm.
- exact: filter_uniq.
- exact: faces_uniq (Hcells Hcell).
move=> f; rewrite mem_filter; case Hf: (f \in faces cell) => //=.
by case/mem_faces: Hf => idx Hidx ->; apply: Hclosed.
Qed.

End Incidence.

(** X3: on lists of chains without repetitions, the chains of the
    k-basis having distinct vertices and all their faces in the
    (k-1)-basis, [bkMatrix] returns the 0/1 matrix with one row for each
    (k-1)-chain and one column for each k-chain whose entry is 1 exactly
    where the chain of the row is a face of the chain of the column; a
    column holds as many ones as its chain has vertices. *)
Theorem bkMatrix_incidence (km1basis kbasis : seq chain) :
  uniq km1basis -> uniq kbasis ->
  (forall cell, cell \in kbasis -> uniq cell) ->
  (forall cell idx,
     cell \in kbasis -> idx < size cell -> face cell idx \in km1basis) ->
  exists bk,
    [/\ bkMatrix km1basis kbasis = Ok bk,
        wf (size km1basis) (size kbasis) bk,
        forall r c, r < size km1basis -> c < size kbasis ->
          item bk r c = (nth [::] km1basis r \in faces (nth [::] kbasis c))
      & forall c, c < size kbasis ->
          sumn [seq item bk r c | r <- range 0 (size km1basis)]
          = size (nth [::] kbasis c)].
Proof.
move=> Hu1 Hu Hcells Hclosed; exists (incidence km1basis kbasis); split.
- exact: bkMatrix_ok.
- exact: wf_incidence.
- by move=> r c Hr Hc; rewrite /incidence item_build.
- by move=> c Hc; apply: incidence_column_sum.
Qed.

Lemma bkMatrix_incidence_witness :
  exists bk,
    [/\ bkMatrix [:: [:: 1]; [:: 2]; [:: 3]] [:: [:: 1; 2]; [:: 2; 3]] = Ok bk,
        wf 3 2 bk,
        forall r c, r < 3 -> c < 2 ->
          item bk r c
          = (nth [::] [:: [:: 1]; [:: 2]; [:: 3]] r
               \in faces (nth [::] [:: [:: 1; 2]; [:: 2; 3]] c))
      & forall c, c < 2 ->
          sumn [seq item bk r c | r <- range 0 3]
          = size (nth [::] [:: [:: 1; 2]; [:: 2; 3]] c)].
Proof.
apply: (@bkMatrix_incidence [:: [:: 1]; [:: 2]; [:: 3]]
          [:: [:: 1; 2]; [:: 2; 3]]) => //.
- by move=> cell; rewrite !inE => /orP[] /eqP ->.
- by move=> cell idx; rewrite !inE => /orP[] /eqP ->; case: idx => [|[|]].
Defined.

(** ** Reading generators as chains *)

Lemma select_mask (Ck : seq chain) (vec : seq nat) :
  size vec = size Ck ->
  [seq nth [::] Ck idx | idx <- range 0 (size vec) & nth 0 vec idx == 1]
  = mask [seq x == 1 | x <- vec] Ck.
Proof.
rewrite /range subn0.
elim: vec Ck => [|x vec IH] [|c Ck] //= [Hsz].
have E : [seq nth [::] (c :: Ck) idx
         | idx <- [seq idx <- iota 1 (size vec) | nth 0 (x :: vec) idx == 1]]
         = mask [seq y == 1 | y <- vec] Ck.
  by rewrite -[1]/(1 + 0) iotaDl filter_map -map_comp -IH.
by case: (x == 1); rewrite /= E.
Qed.

Lemma interpret_mask (Ck : seq chain) (arr : seq (seq nat)) :
  interpret Ck arr
  = if all (fun vec => size vec == size Ck) arr
    then Ok [seq mask [seq x == 1 | x <- vec] Ck | vec <- arr]
    else Raise HyperNetXError.
Proof.
rewrite /interpret; elim: arr => [|vec arr IH] //=.
rewrite eq_sym; case: eqP => [Hsz|_] //=.
by rewrite IH; case: (all _ arr) => //=; rewrite select_mask.
Qed.

(** X4: [interpret] raises [HyperNetXError] when a vector of [arr] is not
    as long as [Ck]; otherwise it returns, for each vector in turn, the
    chains of [Ck] at the positions where the vector holds 1, in the
    order of [Ck]. *)
Theorem interpret_spec (Ck : seq chain) (arr : seq (seq nat)) :
  interpret Ck arr
  = if all (fun vec => size vec == size Ck) arr
    then Ok [seq mask [seq x == 1 | x <- vec] Ck | vec <- arr]
    else Raise HyperNetXError.
Proof. exact: interpret_mask. Qed.

(** ** Arithmetic over the field of two elements *)

(** X5: on two 0/1 vectors, [logical_dot] returns their dot product
    modulo 2 when they are of the same length and raises
    [HyperNetXError] when they are not. *)
Theorem logical_dot_mod2 (ar1 ar2 : seq nat) :
  all (fun x => x <= 1) ar1 -> all (fun x => x <= 1) ar2 ->
  logical_dot ar1 ar2
  = if size ar1 == size ar2
    then Ok (sumn [seq p.1 * p.2 | p <- zip ar1 ar2] %% 2)
    else Raise HyperNetXError.
Proof.
move=> H1 H2; rewrite /logical_dot; case: (size ar1 == size ar2) => //=.
congr Ok; rewrite foldr_addb_odd modn2; congr (nat_of_bool _).
elim: ar1 ar2 H1 H2 => [|x ar1 IH] [|y ar2] //= /andP[Hx H1] /andP[Hy H2].
rewrite !oddD IH //; congr (_ (+) _).
by case: x Hx => [|[|x]] //; case: y Hy => [|[|y]].
Qed.

Lemma logical_dot_mod2_witness :
  logical_dot [:: 1; 1; 0; 1] [:: 1; 0; 1; 1]
  = if size [:: 1; 1; 0; 1] == size [:: 1; 0; 1; 1]
    then Ok (sumn [seq p.1 * p.2
                  | p <- zip [:: 1; 1; 0; 1] [:: 1; 0; 1; 1]] %% 2)
    else Raise HyperNetXError.
Proof. exact: (@logical_dot_mod2 [:: 1; 1; 0; 1] [:: 1; 0; 1; 1] isT isT). Defined.

(** The entry of a product of 0/1 matrices is a dot product modulo 2. *)
Lemma dot01_mod2 m n p A B i j :
  wf m n A -> wf n p B ->
  dot01 n A B i j = sumn [seq item A i k * item B k j | k <- range 0 n] %% 2.
Proof.
move=> HA HB; rewrite /dot01 foldr_addb_odd modn2 /range subn0.
congr (nat_of_bool _); elim: (iota 0 n) => [|k s IH] //=.
rewrite !oddD IH; congr (_ (+) _).
have := wf_item i k HA; have := wf_item k j HB.
by case: (item A i k) => [|[|x]] //; case: (item B k j) => [|[|y]].
Qed.

(** X6: on rectangular 0/1 matrices [logical_matmul] raises
    [HyperNetXError] when the first has not as many columns as the second
    has rows; otherwise it returns the rectangular 0/1 matrix with the
    rows of the first and the columns of the second whose entries are the
    dot products, modulo 2, of the rows of the first with the columns of
    the second. *)
Theorem logical_matmul_spec (A B : ndarray) :
  matrix01 A -> matrix01 B ->
  if ncols A == nrows B then
    exists C,
      [/\ logical_matmul A B = Ok C,
          matrix01 C, nrows C = nrows A /\ ncols C = ncols B
        & forall i j, i < nrows A -> j < ncols B ->
            item C i j
            = sumn [seq item A i k * item B k j | k <- range 0 (ncols A)] %% 2]
  else logical_matmul A B = Raise HyperNetXError.
Proof.
move=> /wf_matrix01 HA /wf_matrix01 HB.
case: eqP => [E|/eqP Hne]; last by rewrite /logical_matmul Hne.
rewrite -E in HB; exists (build (nrows A) (ncols B) (dot01 (ncols A) A B)).
have HC := wf_dot01 (nrows A) (ncols A) (ncols B) A B.
split.
- exact: logical_matmulE.
- by case: HC => _ _ Hr Hb; rewrite /matrix01 Hr Hb.
- by [].
- by move=> i j Hi Hj; rewrite item_build // (dot01_mod2 i j HA HB).
Qed.

Lemma logical_matmul_spec_witness :
  exists C,
    [/\ logical_matmul triangle_bd1 triangle_bd1 = Ok C,
        matrix01 C, nrows C = 3 /\ ncols C = 3
      & forall i j, i < 3 -> j < 3 ->
          item C i j
          = sumn [seq item triangle_bd1 i k * item triangle_bd1 k j
                 | k <- range 0 3] %% 2].
Proof. exact: (@logical_matmul_spec triangle_bd1 triangle_bd1 isT isT). Defined.

Section Products.

Import GRing.Theory.
Local Open Scope ring_scope.

(** The product that the source computes, as a value. *)
Lemma logical_matmul_wf m n p A B :
  wf m n A -> wf n p B ->
  exists C, [/\ logical_matmul A B = Ok C, wf m p C
               & mx_of m p C = mx_of m n A *m mx_of n p B].
Proof.
move=> HA HB; exists (build m p (dot01 n A B)); split.
- exact: logical_matmulE.
- exact: wf_dot01.
- exact: mx_dot01.
Qed.

(** X7: [logical_matmul] is the product of matrices over the field of
    two elements: on 0/1 matrices of matching shapes the result
    represents the product of the matrices that the arguments represent,
    the identity matrices of [np.eye] are neutral on both sides, and the
    two ways of multiplying three matrices return the same array. *)
Theorem logical_matmul_algebra (m n p q : nat) (A B C : ndarray) :
  wf m n A -> wf n p B -> wf p q C ->
  [/\ exists2 P, logical_matmul A B = Ok P
        & wf m p P /\ mx_of m p P = mx_of m n A *m mx_of n p B,
      logical_matmul (eye m) A = Ok A /\ logical_matmul A (eye n) = Ok A
    & (do P <- logical_matmul A B; logical_matmul P C)
      = (do Q <- logical_matmul B C; logical_matmul A Q)].
Proof.
move=> HA HB HC; split.
- by have [P [E HP EP]] := logical_matmul_wf HA HB; exists P.
- split.
    by apply: (logical_matmul_mx (wf_eye m) HA HA); rewrite mx_of_eye mul1mx.
  by apply: (logical_matmul_mx HA (wf_eye n) HA); rewrite mx_of_eye mulmx1.
- have [P [-> HP EP]] := logical_matmul_wf HA HB.
  have [Q [-> HQ EQ]] := logical_matmul_wf HB HC.
  have [R [ER HR ERm]] := logical_matmul_wf HP HC.
  rewrite /= ER; symmetry; apply: (logical_matmul_mx HA HQ HR).
  by rewrite ERm EP EQ mulmxA.
Qed.

Lemma logical_matmul_algebra_witness :
  [/\ exists2 P, logical_matmul triangle_bd1 triangle_bd1 = Ok P
        & wf 3 3 P
          /\ mx_of 3 3 P = mx_of 3 3 triangle_bd1 *m mx_of 3 3 triangle_bd1,
      logical_matmul (eye 3) triangle_bd1 = Ok triangle_bd1
      /\ logical_matmul triangle_bd1 (eye 3) = Ok triangle_bd1
    & (do P <- logical_matmul triangle_bd1 triangle_bd1;
       logical_matmul P (eye 3))
      = (do Q <- logical_matmul triangle_bd1 (eye 3);
         logical_matmul triangle_bd1 Q)].
Proof.
apply: (@logical_matmul_algebra 3 3 3 3 triangle_bd1 triangle_bd1 (eye 3)).
- by [].
- by [].
- exact: wf_eye.
Defined.

End Products.

(** ** Products of lists of matrices *)

Section ListProducts.

Import GRing.Theory.
Local Open Scope ring_scope.

Lemma foldM_cat (T St : Type) (body : St -> T -> result St) (st : St)
    (xs ys : seq T) :
  foldM body st (xs ++ ys) = (do st' <- foldM body st xs; foldM body st' ys).
Proof. by elim: xs st => [|x xs IH] st //=; case: (body st x). Qed.

(** The product of a list that can be multiplied in order. *)
Lemma foldM_matmul m n p P arr :
  wf m n P -> chainable n arr p ->
  exists2 R, foldM logical_matmul P arr = Ok R & wf m p R.
Proof.
elim: arr n P => [|A arr IH] n P HP /=; first by move/eqP <-; exists P.
case/and3P => /wf_matrix01 HA /eqP En Harr; rewrite En in HA.
have [Q [-> HQ _]] := logical_matmul_wf HP HA.
exact: IH HQ Harr.
Qed.

(** A factor on the left can be multiplied in first or last. *)
Lemma foldM_matmul_left m n p q P B arr :
  wf m n P -> wf n p B -> chainable p arr q ->
  (do X <- logical_matmul P B; foldM logical_matmul X arr)
  = (do Y <- foldM logical_matmul B arr; logical_matmul P Y).
Proof.
elim: arr p B => [|C arr IH] p B HP HB /=.
  by move=> _; case: (logical_matmul P B).
case/and3P => /wf_matrix01 HC /eqP Ep Harr; rewrite Ep in HC.
have [X [EX HX EXm]] := logical_matmul_wf HP HB.
have [Y [EY HY EYm]] := logical_matmul_wf HB HC.
have [Z [EZ HZ EZm]] := logical_matmul_wf HX HC.
have EZ' : logical_matmul P Y = Ok Z.
  by apply: (logical_matmul_mx HP HY HZ); rewrite EZm EXm EYm mulmxA.
by rewrite EX /= EZ EY /= -(IH _ _ HP HY Harr) EZ' /=.
Qed.

(** X8: [matmulreduce] multiplies in the order of the list, and in the
    opposite order with [reverse]: for two non-empty lists of 0/1
    matrices that can be multiplied in order, the product of the
    concatenation is the product of the two products, and the reversed
    concatenation with [reverse=True] gives the same matrix. *)
Theorem matmulreduce_cat (m n p : nat) (arr1 arr2 : seq ndarray) :
  arr1 != [::] -> arr2 != [::] ->
  chainable m arr1 n -> chainable n arr2 p ->
  exists P Q R,
    [/\ matmulreduce arr1 false = Ok P /\ wf m n P,
        matmulreduce arr2 false = Ok Q /\ wf n p Q,
        logical_matmul P Q = Ok R /\ wf m p R,
        matmulreduce (arr1 ++ arr2) false = Ok R
      & matmulreduce (rev (arr1 ++ arr2)) true = Ok R].
Proof.
case: arr1 => [|A arr1] // _; case: arr2 => [|B arr2] // _ /=.
case/and3P => /wf_matrix01 HA /eqP EA H1.
case/and3P => /wf_matrix01 HB /eqP EB H2.
rewrite EA in HA; rewrite EB in HB.
have [P EP HP] := foldM_matmul HA H1.
have [Q EQ HQ] := foldM_matmul HB H2.
have [R [ER HR _]] := logical_matmul_wf HP HQ.
have E : matmulreduce ((A :: arr1) ++ B :: arr2) false = Ok R.
  rewrite /matmulreduce /= foldM_cat EP /=.
  by rewrite (foldM_matmul_left HP HB H2) EQ.
exists P, Q, R; split=> //.
by rewrite /matmulreduce revK.
Qed.

Lemma matmulreduce_cat_witness :
  exists P Q R,
    [/\ matmulreduce [:: triangle_bd1; eye 3] false = Ok P /\ wf 3 3 P,
        matmulreduce [:: triangle_bd1] false = Ok Q /\ wf 3 3 Q,
        logical_matmul P Q = Ok R /\ wf 3 3 R,
        matmulreduce ([:: triangle_bd1; eye 3] ++ [:: triangle_bd1]) false
        = Ok R
      & matmulreduce (rev ([:: triangle_bd1; eye 3] ++ [:: triangle_bd1])) true
        = Ok R].
Proof.
exact: (@matmulreduce_cat 3 3 3 [:: triangle_bd1; eye 3] [:: triangle_bd1]
          isT isT isT isT).
Defined.

End ListProducts.

(** ** Sums of matrices *)

Section Sums.

Import GRing.Theory.
Local Open Scope ring_scope.

Lemma logical_mataddE m n A B :
  wf m n A -> wf m n B ->
  logical_matadd (Array2 A) (Array2 B)
  = Ok (Array2 (build m n (fun i j => xor01 (item A i j) (item B i j)))).
Proof.
move=> [HAm HAn _ _] [HBm HBn _ _].
by rewrite /logical_matadd /= HAm HAn HBm HBn eqxx /= /range !subn0.
Qed.

Lemma mx_matadd m n A B :
  wf m n A -> wf m n B ->
  mx_of m n (build m n (fun i j => xor01 (item A i j) (item B i j)))
  = mx_of m n A + mx_of m n B.
Proof.
move=> HA HB; rewrite mx_of_build; apply/matrixP => i j; rewrite !mxE.
by rewrite F2_xor01 //; [apply: wf_item HA | apply: wf_item HB].
Qed.

Lemma wf_matadd m n A B :
  wf m n (build m n (fun i j => xor01 (item A i j) (item B i j))).
Proof. by apply: wf_build => i j _ _; apply: xor01_le1. Qed.

(** X9: [logical_matadd] is the sum of matrices over the field of two
    elements: on two 0/1 matrices of one shape it returns the 0/1 matrix
    that represents the sum of the matrices they represent, whatever the
    order of the arguments; a matrix added to itself gives the matrix of
    zeros; and [logical_matmul] distributes over it. *)
Theorem logical_matadd_sum (m n p : nat) (A B D : ndarray) :
  wf m n A -> wf m n B -> wf p m D ->
  exists C,
    [/\ logical_matadd (Array2 A) (Array2 B) = Ok (Array2 C),
        wf m n C /\ mx_of m n C = mx_of m n A + mx_of m n B,
        logical_matadd (Array2 B) (Array2 A) = Ok (Array2 C),
        logical_matadd (Array2 A) (Array2 A) = Ok (Array2 (zeros m n))
      & (do X <- logical_matmul D A; do Y <- logical_matmul D B;
         logical_matadd (Array2 X) (Array2 Y))
        = (do Z <- logical_matmul D C; Ok (Array2 Z))].
Proof.
move=> HA HB HD.
pose C := build m n (fun i j => xor01 (item A i j) (item B i j)).
have HC : wf m n C by apply: wf_matadd.
have EC : mx_of m n C = mx_of m n A + mx_of m n B by apply: mx_matadd.
exists C; split.
- exact: logical_mataddE.
- by split.
- rewrite (logical_mataddE HB HA); do 2 congr (_ _).
  by apply: (mx_of_inj (wf_matadd m n B A) HC); rewrite mx_matadd // EC addrC.
- rewrite (logical_mataddE HA HA); do 2 congr (_ _).
  apply: (mx_of_inj (wf_matadd m n A A) (wf_zeros m n)).
  by rewrite mx_matadd // mx_of_zeros mxF2_addxx.
- have [X [-> HX EX]] := logical_matmul_wf HD HA.
  have [Y [-> HY EY]] := logical_matmul_wf HD HB.
  have [Z [-> HZ EZ]] := logical_matmul_wf HD HC.
  rewrite /= (logical_mataddE HX HY); do 2 congr (_ _).
  apply: (mx_of_inj (wf_matadd p n X Y) HZ).
  by rewrite mx_matadd // EX EY EZ EC mulmxDr.
Qed.

Lemma logical_matadd_sum_witness :
  exists C,
    [/\ logical_matadd (Array2 triangle_bd1) (Array2 (eye 3)) = Ok (Array2 C),
        wf 3 3 C /\ mx_of 3 3 C = mx_of 3 3 triangle_bd1 + mx_of 3 3 (eye 3),
        logical_matadd (Array2 (eye 3)) (Array2 triangle_bd1) = Ok (Array2 C),
        logical_matadd (Array2 triangle_bd1) (Array2 triangle_bd1)
        = Ok (Array2 (zeros 3 3))
      & (do X <- logical_matmul triangle_bd1 triangle_bd1;
         do Y <- logical_matmul triangle_bd1 (eye 3);
         logical_matadd (Array2 X) (Array2 Y))
        = (do Z <- logical_matmul triangle_bd1 C; Ok (Array2 Z))].
Proof.
apply: (@logical_matadd_sum 3 3 3 triangle_bd1 (eye 3) triangle_bd1).
- by [].
- exact: wf_eye.
- by [].
Defined.

End Sums.

(** X10: on two 0/1 vectors [logical_matadd] returns the vector of the
    sums modulo 2 of their entries when they are of one length and raises
    [HyperNetXError] when they are not; a vector and a matrix are never
    of one shape, so that their sum raises it too. *)
Theorem logical_matadd_vectors (v1 v2 : seq nat) :
  all (fun x => x <= 1) v1 -> all (fun x => x <= 1) v2 ->
  logical_matadd (Array1 v1) (Array1 v2)
  = (if size v1 == size v2
     then Ok (Array1 [seq (p.1 + p.2) %% 2 | p <- zip v1 v2])
     else Raise HyperNetXError)
  /\ forall A, logical_matadd (Array1 v1) (Array2 A) = Raise HyperNetXError.
Proof.
move=> H1 H2; split; last first.
  by move=> A; rewrite /logical_matadd /= eqseq_cons andbF.
rewrite /logical_matadd /= eqseq_cons andbT.
case: eqP => [Hsz|_] //=; do 2 congr (_ _).
rewrite /range subn0.
apply: (@eq_from_nth _ 0); first by rewrite !size_map size_iota size_zip Hsz minnn.
move=> k; rewrite size_map size_iota => Hk.
rewrite (nth_map 0) ?size_iota // nth_iota // add0n.
rewrite (nth_map (0, 0)) ?size_zip -?Hsz ?minnn // nth_zip //=.
have := allP H1 _ (mem_nth 0 Hk).
have Hk2 : k < size v2 by rewrite -Hsz.
have := allP H2 _ (mem_nth 0 Hk2).
by case: (nth 0 v1 k) => [|[|x]] //; case: (nth 0 v2 k) => [|[|y]].
Qed.

Lemma logical_matadd_vectors_witness :
  logical_matadd (Array1 [:: 1; 1; 0]) (Array1 [:: 1; 0; 0])
  = (if size [:: 1; 1; 0] == size [:: 1; 0; 0]
     then Ok (Array1 [seq (p.1 + p.2) %% 2
                     | p <- zip [:: 1; 1; 0] [:: 1; 0; 0]])
     else Raise HyperNetXError)
  /\ forall A,
       logical_matadd (Array1 [:: 1; 1; 0]) (Array2 A) = Raise HyperNetXError.
Proof.
exact: (@logical_matadd_vectors [:: 1; 1; 0] [:: 1; 0; 0] isT isT).
Defined.

(** ** The elementary operations *)

Lemma swapnK i j : involutive (swapn i j).
Proof.
move=> r; rewrite /swapn.
case: (r =P j) => [->|/eqP Hj]; first by rewrite eqxx; case: eqP.
case: (r =P i) => [->|/eqP Hi]; first by rewrite eqxx.
by rewrite (negbTE Hj) (negbTE Hi).
Qed.

Lemma xor01K a b : a <= 1 -> xor01 (xor01 a b) b = a.
Proof. by case: a => [|[|a]] //; case: b. Qed.

Lemma xor01xx a : xor01 a a = 0.
Proof. by case: a. Qed.

(** X11: the elementary operations are their own inverses, as the source
    says of them: on a rectangular 0/1 matrix and indices in range,
    swapping the same two rows, or columns, twice gives the matrix back,
    and so does adding a row, or a column, to another one twice.  Adding
    a row to itself is no such operation: it sets the row to zero. *)
Theorem elementary_operations_involutive (m n : nat) (A : ndarray)
    (i j : nat) :
  wf m n A ->
  [/\ i < m -> j < m -> (do N <- _rswap i j A; _rswap i j N) = Ok A,
      i < n -> j < n -> (do N <- _cswap i j A; _cswap i j N) = Ok A,
      i < m -> j < m -> i != j ->
      (do N <- add_to_row A i j; add_to_row N i j) = Ok A,
      i < n -> j < n -> i != j ->
      (do N <- add_to_column A i j; add_to_column N i j) = Ok A
    & i < m ->
      add_to_row A i i
      = Ok (build m n (fun r c => if r == i then 0 else item A r c))].
Proof.
move=> HA; split.
- move=> Hi Hj; rewrite (rswapE HA) //= (rswapE (wf_rsw HA i j)) //.
  congr Ok; apply: (wf_ext (wf_rsw (wf_rsw HA i j) i j) HA) => r c Hr Hc.
  rewrite item_build // item_build ?swapnK //.
  exact: swapn_lt.
- move=> Hi Hj; rewrite (cswapE HA) //= (cswapE (wf_csw HA i j)) //.
  congr Ok; apply: (wf_ext (wf_csw (wf_csw HA i j) i j) HA) => r c Hr Hc.
  rewrite item_build // item_build ?swapnK //.
  exact: swapn_lt.
- move=> Hi Hj Hij; rewrite (add_to_rowE HA) //= (add_to_rowE (wf_radd HA i j)) //.
  congr Ok; apply: (wf_ext (wf_radd (wf_radd HA i j) i j) HA) => r c Hr Hc.
  rewrite item_build //; case: (r =P i) => [->|/eqP Hri].
    rewrite !item_build // eqxx eq_sym (negbTE Hij) xor01K //.
    exact: wf_item HA.
  by rewrite item_build // (negbTE Hri).
- move=> Hi Hj Hij.
  rewrite (add_to_columnE HA) //= (add_to_columnE (wf_cadd HA i j)) //.
  congr Ok; apply: (wf_ext (wf_cadd (wf_cadd HA i j) i j) HA) => r c Hr Hc.
  rewrite item_build //; case: (c =P i) => [->|/eqP Hci].
    rewrite !item_build // eqxx eq_sym (negbTE Hij) xor01K //.
    exact: wf_item HA.
  by rewrite item_build // (negbTE Hci).
- move=> Hi; rewrite (add_to_rowE HA) //; congr Ok.
  by apply: build_ext => r c Hr Hc; rewrite xor01xx.
Qed.

Lemma elementary_operations_involutive_witness :
  [/\ (do N <- _rswap 0 2 triangle_bd1; _rswap 0 2 N) = Ok triangle_bd1,
      (do N <- _cswap 0 2 triangle_bd1; _cswap 0 2 N) = Ok triangle_bd1,
      (do N <- add_to_row triangle_bd1 0 2; add_to_row N 0 2)
      = Ok triangle_bd1,
      (do N <- add_to_column triangle_bd1 0 2; add_to_column N 0 2)
      = Ok triangle_bd1
    & add_to_row triangle_bd1 0 0
      = Ok (build 3 3 (fun r c => if r == 0 then 0 else item triangle_bd1 r c))].
Proof.
have HA : wf 3 3 triangle_bd1 by [].
have [H1 H2 H3 H4 H5] := @elementary_operations_involutive 3 3 triangle_bd1 0 2 HA.
have [_ _ _ _ H6] := @elementary_operations_involutive 3 3 triangle_bd1 0 0 HA.
by split; [apply: H1 | apply: H2 | apply: H3 | apply: H4 | apply: H6].
Defined.

Section OperationsAsProducts.

Import GRing.Theory.
Local Open Scope ring_scope.

(** X12: on a rectangular 0/1 matrix the elementary operations are
    products with elementary matrices over the field of two elements: a
    swap of rows is the product with a transposition matrix on the left,
    a swap of columns the product with it on the right; adding row [j]
    to row [i] is the product on the left with the identity plus the
    matrix unit at [(i, j)], and adding column [l] to column [k] the
    product on the right with the identity plus the matrix unit at
    [(l, k)]. *)
Theorem elementary_operations_products (m n : nat) (A : ndarray)
    (i j : 'I_m) (k l : 'I_n) :
  wf m n A ->
  exists N1 N2 N3 N4,
    [/\ _rswap i j A = Ok N1
        /\ mx_of m n N1 = tperm_mx i j *m mx_of m n A,
        _cswap k l A = Ok N2
        /\ mx_of m n N2 = mx_of m n A *m tperm_mx k l,
        add_to_row A i j = Ok N3
        /\ mx_of m n N3 = (1%:M + delta_mx i j) *m mx_of m n A
      & add_to_column A k l = Ok N4
        /\ mx_of m n N4 = mx_of m n A *m (1%:M + delta_mx l k)].
Proof.
move=> HA.
exists (rsw m n i j A), (csw m n k l A), (radd m n i j A), (cadd m n k l A).
split; split.
- exact: rswapE.
- exact: mx_rswap.
- exact: cswapE.
- exact: mx_cswap.
- exact: add_to_rowE.
- exact: (mx_add_to_row HA).
- exact: add_to_columnE.
- exact: (mx_add_to_column HA).
Qed.

Lemma elementary_operations_products_witness :
  exists N1 N2 N3 N4,
    [/\ _rswap 0 2 triangle_bd1 = Ok N1
        /\ mx_of 3 3 N1
           = tperm_mx (@Ordinal 3 0 isT) (@Ordinal 3 2 isT)
             *m mx_of 3 3 triangle_bd1,
        _cswap 0 1 triangle_bd1 = Ok N2
        /\ mx_of 3 3 N2
           = mx_of 3 3 triangle_bd1
             *m tperm_mx (@Ordinal 3 0 isT) (@Ordinal 3 1 isT),
        add_to_row triangle_bd1 0 2 = Ok N3
        /\ mx_of 3 3 N3
           = (1%:M + delta_mx (@Ordinal 3 0 isT) (@Ordinal 3 2 isT))
             *m mx_of 3 3 triangle_bd1
      & add_to_column triangle_bd1 0 1 = Ok N4
        /\ mx_of 3 3 N4
           = mx_of 3 3 triangle_bd1
             *m (1%:M + delta_mx (@Ordinal 3 1 isT) (@Ordinal 3 0 isT))].
Proof.
apply: (@elementary_operations_products 3 3 triangle_bd1
          (@Ordinal 3 0 isT) (@Ordinal 3 2 isT)
          (@Ordinal 3 0 isT) (@Ordinal 3 1 isT)).
by [].
Defined.

End OperationsAsProducts.

(** ** The pivot search *)

(** X13: [_get_next_pivot] started at row [s1] and a column [s2] that is
    not 0, or at row 0, returns the first non-zero entry of the submatrix
    [M[s1:, s2:]], columns in turn and each from the top, and [None] when
    the submatrix is zero; without a start column it does so for
    [M[s1:, s1:]]. *)
Theorem get_next_pivot_first (M : ndarray) (s1 s2 : nat) :
  (0 < s2) || (s1 == 0) ->
  first_nonzero M s1 s2 (_get_next_pivot M s1 (Some s2))
  /\ first_nonzero M s1 s1 (_get_next_pivot M s1 None).
Proof.
move=> Hs; split; first exact: get_next_pivot_from.
rewrite /first_nonzero /_get_next_pivot {2}/range.
case: (scan_columns _ _ _) (scan_columns_iota M s1 (nrows M) s1 (ncols M - s1)).
  by move=> [r c] [H1 H2 H3 H4 H5]; split=> //; slia.
by move=> H r' c' Hr' Hc'; apply: H => //; slia.
Qed.

Lemma get_next_pivot_first_witness :
  first_nonzero lower_left 0 0 (_get_next_pivot lower_left 0 (Some 0))
  /\ first_nonzero lower_left 0 0 (_get_next_pivot lower_left 0 None).
Proof. exact: (@get_next_pivot_first lower_left 0 0 isT). Defined.

(** ** More on the Smith normal form *)

Lemma sumn_indicator (i n : nat) (b : bool) :
  sumn (mkseq (fun j => ((i == j) && b) : nat) n) = (i < n) && b.
Proof.
elim: n => [|n IH]; first by rewrite ltn0.
rewrite mkseqS sumn_rcons IH ltnS (leq_eqVlt i n).
by case: (i =P n) => [->|_]; rewrite /= ?ltnn ?addn0.
Qed.

(** The sum of a diagonal matrix of [t] ones. *)
Lemma np_sum_pdiag m n t Sm :
  wf m n Sm -> t <= minn m n -> pdiag m n t Sm -> np_sum Sm = t.
Proof.
move=> HS Ht HP; rewrite (wf_eq HS) /np_sum /build /= -map_comp.
have -> : [seq (sumn \o (fun i => mkseq (fun j => item Sm i j) n)) i
          | i <- iota 0 m]
          = [seq ((i < t) : nat) | i <- iota 0 m].
  apply/eq_in_map => i; rewrite mem_iota add0n /= => Hi.
  have -> : mkseq (fun j => item Sm i j) n
            = mkseq (fun j => ((i == j) && (i < t)) : nat) n.
    by apply/eq_in_map => j; rewrite mem_iota add0n /= => Hj; rewrite HP.
  rewrite sumn_indicator; move: Ht; rewrite leq_min => /andP[_ Htn].
  by case Hit: (i < t); rewrite ?andbF // andbT (leq_trans Hit Htn).
rewrite sumn_count count_ltn_iota; move: Ht; rewrite leq_min => /andP[Htm _].
by apply/minn_idPl.
Qed.

Section NormalForms.

Import GRing.Theory.
Local Open Scope ring_scope.

(** What the Smith normal form returns, with the sum of [S]. *)
Lemma smith_normal_form_mod2_sum (M : ndarray) :
  matrix01 M ->
  exists L R Sm Linv,
    [/\ smith_normal_form_mod2 M = Ok (L, R, Sm, Linv),
        related (nrows M) (ncols M) M (L, R, Sm, Linv),
        pdiag (nrows M) (ncols M) (np_sum Sm) Sm,
        (np_sum Sm <= minn (nrows M) (ncols M))%N
      & np_sum Sm = \rank (mx_of (nrows M) (ncols M) M)].
Proof.
move=> HM.
have [L [R [Sm [Linv [t [E H Ht HP]]]]]] := smith_normal_form_mod2_spec HM.
case: (H) => [[_ _ HS _] _ _ _]; have Et := np_sum_pdiag HS Ht HP.
exists L, R, Sm, Linv; split; rewrite ?Et //.
rewrite -(related_rank H) (pdiag_mx HP) rank_pid_mx //.
  by move: Ht; rewrite leq_min => /andP[].
by move: Ht; rewrite leq_min => /andP[].
Qed.

(** X14: the matrix [S] of the Smith normal form of a rectangular 0/1
    matrix [M] has ones at the first [r] places of its diagonal and zeros
    elsewhere, where [r = np.sum(S)] is the rank of [M] over the field of
    two elements; [Linv] is the inverse of [L] on both sides, [R] is
    invertible, and [M = Linv * S * R^-1]. *)
Theorem smith_normal_form_mod2_normal (M : ndarray) :
  matrix01 M ->
  let m := nrows M in let n := ncols M in
  exists L R Sm Linv,
    [/\ smith_normal_form_mod2 M = Ok (L, R, Sm, Linv),
        forall i j, (i < m)%N -> (j < n)%N ->
          item Sm i j = ((i == j) && (i < np_sum Sm)%N),
        np_sum Sm = \rank (mx_of m n M),
        logical_matmul Linv L = Ok (eye m) /\ mx_of n n R \in unitmx
      & mx_of m n M = mx_of m m Linv *m mx_of m n Sm *m invmx (mx_of n n R)].
Proof.
move=> HM m n.
have [L [R [Sm [Linv [E H HP Ht Hrk]]]]] := smith_normal_form_mod2_sum HM.
case: (H) => [[HL HR HS HLi] H1 H2 H3].
have H2' : mx_of m m Linv *m mx_of m m L = 1%:M by apply: mulmx1C.
exists L, R, Sm, Linv; split.
- exact: E.
- exact: HP.
- exact: Hrk.
- split; last exact: H3.
  by apply: (logical_matmul_mx HLi HL (wf_eye m)); rewrite mx_of_eye.
- by rewrite -H1 !mulmxA H2' mul1mx mulmxK.
Qed.

Lemma smith_normal_form_mod2_normal_witness :
  exists L R Sm Linv,
    [/\ smith_normal_form_mod2 triangle_bd1 = Ok (L, R, Sm, Linv),
        forall i j, (i < 3)%N -> (j < 3)%N ->
          item Sm i j = ((i == j) && (i < np_sum Sm)%N),
        np_sum Sm = \rank (mx_of 3 3 triangle_bd1),
        logical_matmul Linv L = Ok (eye 3) /\ mx_of 3 3 R \in unitmx
      & mx_of 3 3 triangle_bd1
        = mx_of 3 3 Linv *m mx_of 3 3 Sm *m invmx (mx_of 3 3 R)].
Proof. exact: (@smith_normal_form_mod2_normal triangle_bd1 isT). Defined.

End NormalForms.

(** ** More on the reduced row echelon form *)

(** A property of the first numbers that holds downwards holds below
    the number of times it holds. *)
Lemma prefix_count (p : pred nat) (m : nat) :
  (forall i r, r < i -> i < m -> p i -> p r) ->
  forall i, i < m -> p i = (i < count p (iota 0 m)).
Proof.
elim: m => [|m IH] Hdown i //.
have IH' := IH (fun i r Hr Hi => Hdown i r Hr (ltnW Hi)).
have Hle : count p (iota 0 m) <= m.
  by have := count_size p (iota 0 m); rewrite size_iota.
have -> : iota 0 m.+1 = iota 0 m ++ [:: m] by rewrite -addn1 iotaD.
rewrite count_cat /= addn0 ltnS leq_eqVlt.
case: (i =P m) => [-> _|_ /= Hi]; last first.
  rewrite IH' //; case Hpm: (p m); last by rewrite addn0.
  have Hall : count p (iota 0 m) = m.
    rewrite -{2}(size_iota 0 m); apply/eqP; rewrite -all_count.
    apply/allP => r; rewrite mem_iota add0n /= => Hr.
    exact: (Hdown m r Hr (ltnSn m) Hpm).
  by rewrite Hall addn1 Hi ltnS (ltnW Hi).
case Hpm: (p m); last by rewrite addn0 ltnNge Hle.
have Hall : count p (iota 0 m) = m.
  rewrite -{2}(size_iota 0 m); apply/eqP; rewrite -all_count.
  apply/allP => r; rewrite mem_iota add0n /= => Hr.
  exact: (Hdown m r Hr (ltnSn m) Hpm).
by rewrite Hall addn1 ltnSn.
Qed.

Section EchelonRank.

Import GRing.Theory.
Local Open Scope ring_scope.

Variables (m n : nat) (Sm : ndarray).
Hypothesis HS : wf m n Sm.
Hypothesis Hrref : is_rref Sm.

Let nz (i : nat) : bool := (pivot_col Sm i < n)%N.
Let t : nat := count nz (iota 0 m).

Lemma rref_sole i r :
  (i < m)%N -> nz i -> (r < m)%N -> r != i -> item Sm r (pivot_col Sm i) = 0%N.
Proof.
move=> Hi Hnz Hr Hri; case: (HS) => Hm Hn _ _.
move: Hrref; rewrite /is_rref Hm Hn => /allP /(_ i).
rewrite mem_range /= Hi => /(_ isT); rewrite -/(nz i) Hnz /=.
case/andP => /allP /(_ r); rewrite mem_range /= Hr => /(_ isT).
by rewrite (negbTE Hri) /= => /eqP.
Qed.

Lemma rref_incr i r :
  (i < m)%N -> nz i -> (r < i)%N -> (pivot_col Sm r < pivot_col Sm i)%N.
Proof.
move=> Hi Hnz Hr; case: (HS) => Hm Hn _ _.
move: Hrref; rewrite /is_rref Hm Hn => /allP /(_ i).
rewrite mem_range /= Hi => /(_ isT); rewrite -/(nz i) Hnz /=.
by case/andP => _ /allP /(_ r); rewrite mem_range /= Hr => /(_ isT).
Qed.

Lemma rref_nz_lt i : (i < m)%N -> nz i = (i < t)%N.
Proof.
apply: prefix_count => {}i r Hr Hi Hnz.
exact: leq_trans (rref_incr Hi Hnz Hr) (ltnW Hnz).
Qed.

Lemma rref_t_le : (t <= m)%N.
Proof. by have := count_size nz (iota 0 m); rewrite size_iota. Qed.

Lemma rref_pivot_one i : (i < m)%N -> nz i -> item Sm i (pivot_col Sm i) = 1%N.
Proof.
move=> Hi Hnz; have [Hne _] := pivot_col_lt HS Hi Hnz.
by have := wf_item i (pivot_col Sm i) HS; case: (item _ _ _) Hne => [|[|x]].
Qed.

Lemma rref_zero_row i c : (i < m)%N -> ~~ nz i -> (c < n)%N -> item Sm i c = 0%N.
Proof.
move=> Hi Hnz Hc; move: Hnz; rewrite /nz -leqNgt (pivot_colE HS Hi) => Hle.
have Hlt : (c < find (fun x => x != 0%N) (mkseq (item Sm i) n))%N.
  exact: leq_trans Hc Hle.
by have := before_find 0%N Hlt; rewrite nth_mkseq // => /negbFE/eqP.
Qed.

(** The rank of a matrix in reduced row echelon form is the number of
    its non-zero rows. *)
Lemma rref_rank : \rank (mx_of m n Sm) = t.
Proof.
apply/eqP; rewrite eqn_leq; apply/andP; split.
  have -> : mx_of m n Sm = (pid_mx t : 'M_m) *m mx_of m n Sm.
    apply/matrixP => r c; rewrite !mxE (bigD1 r) //= big1 ?addr0.
      move=> k Hk; rewrite !mxE; rewrite -val_eqE /= in Hk.
      by rewrite eq_sym (negbTE Hk) /= mul0r.
    rewrite !mxE eqxx /= -rref_nz_lt //; case Hnz: (nz r); first by rewrite mul1r.
    by rewrite mul0r rref_zero_row // Hnz.
  by apply: leq_trans (mxrankM_maxl _ _) _; rewrite rank_pid_mx // rref_t_le.
pose P : 'M['F_2]_(n, m) :=
  \matrix_(k, i) (nz i && (k == pivot_col Sm i :> nat))%:R.
have E : mx_of m n Sm *m P = (pid_mx t : 'M_m).
  apply/matrixP => r i; rewrite !mxE.
  case Hnz: (nz i); last first.
    rewrite big1 => [k _|]; first by rewrite !mxE Hnz /= mulr0.
    case: (@eqP _ (r : nat) (i : nat)) => [E|_] //=.
    by rewrite E -rref_nz_lt // Hnz.
  rewrite (bigD1 (Ordinal Hnz)) //= big1 ?addr0.
    by move=> k Hk; rewrite !mxE Hnz /= -val_eqE /= in Hk *; rewrite (negbTE Hk) mulr0.
  rewrite !mxE Hnz eqxx /= mulr1.
  case: (@eqP _ (r : nat) (i : nat)) => [E|/eqP Hri] /=.
    by rewrite E rref_pivot_one // -rref_nz_lt // Hnz.
  by rewrite rref_sole.
by have := mxrankM_maxl (mx_of m n Sm) P; rewrite E rank_pid_mx ?rref_t_le.
Qed.

End EchelonRank.

(** The rows that [np.any] keeps are the rows with a pivot, and they come
    first. *)
Lemma np_any_pivot m n Sm i :
  wf m n Sm -> i < m -> np_any (nth [::] (data Sm) i) = (pivot_col Sm i < n).
Proof.
move=> HS Hi; rewrite (pivot_colE HS Hi) -/(getrow Sm i) (wf_getrow HS Hi).
by rewrite /np_any has_find size_mkseq.
Qed.

Lemma nonzero_rows_take m n Sm :
  wf m n Sm -> is_rref Sm ->
  [seq row <- data Sm | np_any row]
  = take (count (fun i => pivot_col Sm i < n) (iota 0 m)) (data Sm).
Proof.
move=> HS Hr; set t := count _ _.
have Hsz : size (data Sm) = m by case: (HS) => <- _ /andP[/eqP -> _] _.
have Ht : t <= m by apply: rref_t_le.
rewrite -{1}(cat_take_drop t (data Sm)) filter_cat.
have -> : [seq row <- take t (data Sm) | np_any row] = take t (data Sm).
  apply/all_filterP/(all_nthP [::]) => i; rewrite size_take Hsz.
  have -> : (if t < m then t else m) = t by case: ltnP => //; slia.
  move=> Hi; have Him : i < m by exact: leq_trans Hi Ht.
  by rewrite nth_take // (np_any_pivot HS Him) (rref_nz_lt HS Hr Him).
have -> : [seq row <- drop t (data Sm) | np_any row] = [::].
  apply/eqP; rewrite -size_eq0 size_filter -leqn0 leqNgt -has_count.
  apply/negP => /(has_nthP [::])[i]; rewrite size_drop Hsz nth_drop => Hi.
  have Him : t + i < m by slia.
  by rewrite (np_any_pivot HS Him) (rref_nz_lt HS Hr Him); slia.
by rewrite cats0.
Qed.

Section EchelonResult.

Import GRing.Theory.
Local Open Scope ring_scope.

(** What the reduction to echelon form returns, with its rank. *)
Lemma reduced_row_echelon_form_mod2_rows (M : ndarray) :
  matrix01 M ->
  exists L Sm Linv,
    [/\ reduced_row_echelon_form_mod2 M = Ok (L, Sm, Linv),
        related (nrows M) (ncols M) M (L, eye (ncols M), Sm, Linv),
        is_rref Sm
      & [seq row <- data Sm | np_any row]
        = take (\rank (mx_of (nrows M) (ncols M) M)) (data Sm)].
Proof.
move=> HM.
have [L [Sm [Linv [E H HR]]]] := reduced_row_echelon_form_mod2_spec HM.
case: (H) => [[_ _ HS _] _ _ _].
exists L, Sm, Linv; split=> //.
by rewrite (nonzero_rows_take HS HR) -(rref_rank HS HR) (related_rank H).
Qed.

(** X15: for a rectangular 0/1 matrix [M] the matrices returned by
    [reduced_row_echelon_form_mod2] satisfy [M = Linv * S], as the
    docstring says, and [Linv * L = 1]; the non-zero rows of [S] are its
    first rows, and there are as many of them as the rank of [M] over
    the field of two elements. *)
Theorem reduced_row_echelon_form_mod2_rank (M : ndarray) :
  matrix01 M ->
  let m := nrows M in let n := ncols M in
  exists L Sm Linv,
    [/\ reduced_row_echelon_form_mod2 M = Ok (L, Sm, Linv),
        logical_matmul Linv Sm = Ok M,
        logical_matmul Linv L = Ok (eye m),
        [seq row <- data Sm | np_any row] = take (\rank (mx_of m n M)) (data Sm)
      & size [seq row <- data Sm | np_any row] = \rank (mx_of m n M)].
Proof.
move=> HM m n.
have [L [Sm [Linv [E H HR Hrows]]]] := reduced_row_echelon_form_mod2_rows HM.
case: (H) => [[HL _ HS HLi] H1 H2 _].
have H2' : mx_of m m Linv *m mx_of m m L = 1%:M by apply: mulmx1C.
exists L, Sm, Linv; split=> //.
- apply: (logical_matmul_mx HLi HS (wf_matrix01 HM)).
  by rewrite -H1 mx_of_eye mulmx1 mulmxA H2' mul1mx.
- by apply: (logical_matmul_mx HLi HL (wf_eye m)); rewrite mx_of_eye.
- rewrite Hrows size_take; case: (HS) => Hm _ /andP[/eqP -> _] _.
  rewrite Hm; case: ltnP => // Hle; apply/eqP.
  by rewrite eqn_leq Hle rank_leq_row.
Qed.

Lemma reduced_row_echelon_form_mod2_rank_witness :
  exists L Sm Linv,
    [/\ reduced_row_echelon_form_mod2 triangle_bd1 = Ok (L, Sm, Linv),
        logical_matmul Linv Sm = Ok triangle_bd1,
        logical_matmul Linv L = Ok (eye 3),
        [seq row <- data Sm | np_any row]
        = take (\rank (mx_of 3 3 triangle_bd1)) (data Sm)
      & size [seq row <- data Sm | np_any row]
        = \rank (mx_of 3 3 triangle_bd1)].
Proof. exact: (@reduced_row_echelon_form_mod2_rank triangle_bd1 isT). Defined.

End EchelonResult.

(** ** The homology basis *)

(** *** The linear algebra of the construction *)

Section Selectors.

Import GRing.Theory.
Local Open Scope ring_scope.

Variable n : nat.

Lemma pid_sel a r : (pid_mx r : 'M_(a, n)) *m sel n r = 0.
Proof.
apply/matrixP => i j; rewrite !mxE big1 // => k _; rewrite !mxE.
case: (@eqP _ (i : nat) (k : nat)) => [->|_] /=; last by rewrite mul0r.
case Hk: (k < r)%N; last by rewrite mul0r.
have -> : ((k : nat) == (r + j)%N) = false by apply/negbTE; slia.
by rewrite mulr0.
Qed.

Lemma sel_selT r : sel n r *m (sel n r)^T + pid_mx r = 1%:M.
Proof.
apply/matrixP => k l; rewrite !mxE.
case: (leqP r k) => Hk; last first.
  rewrite andbT big1 ?add0r // => j _; rewrite !mxE.
  have -> : ((k : nat) == (r + j)%N) = false by apply/negbTE; slia.
  by rewrite mul0r.
rewrite andbF addr0.
have Hj : (k - r < n - r)%N by have := ltn_ord k; slia.
rewrite (bigD1 (Ordinal Hj)) //= big1 ?addr0.
  move=> j Hne; rewrite !mxE.
  have -> : ((k : nat) == (r + j)%N) = false.
    apply/negbTE; move: Hne; rewrite -val_eqE /=; slia.
  by rewrite mul0r.
rewrite !mxE /= subnKC // eqxx mul1r -val_eqE /= eq_sym.
by [].
Qed.

Lemma selT_sel r : (sel n r)^T *m sel n r = 1%:M.
Proof.
apply/matrixP => i j; rewrite !mxE.
have Hk : (r + i < n)%N by have := ltn_ord i; slia.
rewrite (bigD1 (Ordinal Hk)) //= big1 ?addr0.
  move=> k Hne; rewrite !mxE.
  have -> : ((k : nat) == (r + i)%N) = false.
    by apply/negbTE; move: Hne; rewrite -val_eqE /=.
  by rewrite mul0r.
by rewrite !mxE /= eqxx mul1r eqn_add2l -val_eqE.
Qed.

End Selectors.

Section HomologyAlgebra.

Import GRing.Theory.
Local Open Scope ring_scope.

Variables (m n p : nat).
Variables (A1 : 'M['F_2]_(m, n)) (A2 : 'M['F_2]_(n, p)).
Variables (L1 : 'M['F_2]_m) (R1 : 'M['F_2]_n) (r1 : nat).
Variables (L2 L2inv : 'M['F_2]_n) (R2 : 'M['F_2]_p) (r2 : nat).

Hypothesis H12 : A1 *m A2 = 0.
Hypothesis HS1 : L1 *m A1 *m R1 = pid_mx r1.
Hypothesis HL1 : L1 \in unitmx.
Hypothesis HR1 : R1 \in unitmx.
Hypothesis Hr1 : (r1 <= m)%N.
Hypothesis HS2 : L2 *m A2 *m R2 = pid_mx r2.
Hypothesis HL2 : L2 *m L2inv = 1%:M.
Hypothesis HR2 : R2 \in unitmx.
Hypothesis Hr2 : (r2 <= p)%N.

(** The basis of the kernel of [A1], the projection along the image of
    [A2], and the matrix the generators are read from. *)
Let K : 'M_(n, n - r1) := R1 *m sel n r1.
Let Pm : 'M_n := L2inv *m sel n r2 *m (sel n r2)^T *m L2.
Let W : 'M_(n - r1, n) := (Pm *m K)^T.

Lemma hom_L2invL2 : L2inv *m L2 = 1%:M.
Proof. exact: mulmx1C. Qed.

Lemma hom_A1R1 : A1 *m R1 = invmx L1 *m pid_mx r1.
Proof. by rewrite -HS1 -!mulmxA mulKmx. Qed.

Lemma hom_A1K : A1 *m K = 0.
Proof. by rewrite /K mulmxA hom_A1R1 -mulmxA pid_sel mulmx0. Qed.

Lemma hom_A2R2 : A2 *m R2 = L2inv *m pid_mx r2.
Proof. by rewrite -HS2 -!mulmxA mulmxA mulmxA hom_L2invL2 mul1mx. Qed.

Lemma hom_boundary :
  L2inv *m (pid_mx r2 : 'M_n) = A2 *m R2 *m (pid_mx r2 : 'M_(p, n)).
Proof. by rewrite hom_A2R2 -mulmxA pid_mx_id. Qed.

Lemma hom_image :
  (r2 <= n)%N -> \rank A2 = r2 ->
  ((L2inv *m (pid_mx r2 : 'M_(n, r2)))^T :=: A2^T)%MS.
Proof.
move=> Hr2n Hrank.
have E : L2inv *m (pid_mx r2 : 'M_(n, r2))
         = A2 *m (R2 *m (pid_mx r2 : 'M_(p, r2))).
  by rewrite mulmxA hom_A2R2 -mulmxA pid_mx_id.
have Hsub : ((L2inv *m (pid_mx r2 : 'M_(n, r2)))^T <= A2^T)%MS.
  by rewrite E trmx_mul submxMl.
apply/eqmxP; rewrite -(geq_leqif (mxrank_leqif_eq Hsub)).
have [_ HLu] := mulmx1_unit HL2.
have -> : \rank A2^T = r2 by rewrite mxrank_tr.
have Hfree : row_free L2inv^T by rewrite row_free_unit unitmx_tr.
by rewrite trmx_mul (mxrankMfree _ Hfree) mxrank_tr rank_pid_mx.
Qed.

Lemma hom_Pm : Pm = 1%:M - L2inv *m (pid_mx r2 : 'M_n) *m L2.
Proof.
rewrite /Pm -(mulmxA L2inv) -[sel n r2 *m _](addrK (pid_mx r2)) sel_selT.
by rewrite mulmxBr mulmx1 mulmxBl hom_L2invL2.
Qed.

Lemma hom_Pm_A2 : Pm *m A2 = 0.
Proof.
have -> : A2 = L2inv *m pid_mx r2 *m invmx R2 by rewrite -hom_A2R2 mulmxK.
rewrite /Pm !mulmxA -(mulmxA _ L2 L2inv) HL2 mulmx1.
rewrite -(mulmxA _ (sel n r2)^T) -[(sel n r2)^T *m _]trmxK trmx_mul trmxK.
by rewrite tr_pid_mx pid_sel trmx0 mulmx0 mul0mx.
Qed.

Lemma hom_Pm_idem : Pm *m Pm = Pm.
Proof.
rewrite /Pm !mulmxA -(mulmxA _ L2 L2inv) HL2 mulmx1.
by rewrite -(mulmxA _ (sel n r2)^T (sel n r2)) selT_sel mulmx1.
Qed.

(** The generators are cycles. *)
Lemma hom_cycles : W *m A1^T = 0.
Proof.
rewrite /W -trmx_mul mulmxA hom_Pm mulmxBr mulmx1 mulmxBl hom_A1K sub0r.
by rewrite hom_boundary !mulmxA H12 !mul0mx oppr0 trmx0.
Qed.

(** No combination of generators is a boundary. *)
Lemma hom_cap : (W :&: A2^T)%MS = 0.
Proof.
apply/eqP; rewrite -submx0; set X := (W :&: A2^T)%MS.
have /submxP[U EU] : (X <= W)%MS by apply: capmxSl.
have /submxP[V EV] : (X <= A2^T)%MS by apply: capmxSr.
have E1 : X *m Pm^T = X.
  by rewrite EU /W -mulmxA -trmx_mul mulmxA hom_Pm_idem.
have E2 : X *m Pm^T = 0.
  by rewrite EV -mulmxA -trmx_mul hom_Pm_A2 trmx0 mulmx0.
by rewrite -E1 E2 sub0mx.
Qed.

(** Every cycle is a combination of generators and a boundary. *)
Lemma hom_sum : (kermx A1^T <= W + A2^T)%MS.
Proof.
set Z := kermx A1^T.
have EZ : Z *m A1^T = 0 by apply: mulmx_ker.
have -> : Z = Z *m Pm^T + Z *m (L2inv *m (pid_mx r2 : 'M_n) *m L2)^T.
  by rewrite -mulmxDr -raddfD /= hom_Pm subrK trmx1 mulmx1.
apply: addmx_sub_adds; last first.
  by rewrite hom_boundary !trmx_mul !mulmxA submxMl.
rewrite /W trmx_mul; apply: submxMr.
pose Y := Z *m (invmx R1)^T.
have EY : Z = Y *m R1^T by rewrite /Y -mulmxA -trmx_mul mulmxV // trmx1 mulmx1.
have Y0 : Y *m (pid_mx r1 : 'M_(n, m)) = 0.
  have := EZ; rewrite EY -mulmxA -trmx_mul hom_A1R1 trmx_mul tr_pid_mx mulmxA.
  move/(congr1 (mulmx^~ L1^T)).
  by rewrite mul0mx -mulmxA -trmx_mul mulmxV // trmx1 mulmx1.
have Y1 : Y = Y *m sel n r1 *m (sel n r1)^T.
  rewrite -mulmxA -[sel n r1 *m _](addrK (pid_mx r1)) sel_selT mulmxBr mulmx1.
  by rewrite -(@pid_mx_id _ n m n) // mulmxA Y0 mul0mx subr0.
rewrite EY {1}Y1 /K trmx_mul -(mulmxA (Y *m sel n r1)).
exact: submxMl.
Qed.

Lemma hom_direct : (W + A2^T :=: kermx A1^T)%MS.
Proof.
apply/eqmxP; rewrite hom_sum andbT addsmx_sub; apply/andP; split.
  by apply/sub_kermxP; apply: hom_cycles.
by apply/sub_kermxP; rewrite -trmx_mul H12 trmx0.
Qed.

(** The number of independent generators is the Betti number. *)
Lemma hom_rank : \rank W = (n - \rank A1 - \rank A2)%N.
Proof.
have := mxrank_disjoint_sum hom_cap; rewrite hom_direct mxrank_ker !mxrank_tr.
by move=> ->; rewrite addnK.
Qed.

End HomologyAlgebra.

(** *** The slices of the construction *)

Lemma wf_cols_from m n A r : wf m n A -> wf m (n - r) (cols_from A r).
Proof.
move=> [Hm Hn /andP[/eqP Hs /allP Hr] /allP Hb]; split; rewrite /= ?Hm ?Hn //.
  rewrite /rectangular /= size_map Hs eqxx /=.
  by apply/allP => row /mapP[x /Hr /eqP Hx ->]; rewrite size_drop Hx.
apply/allP => row /mapP[x /Hb /allP Hx ->].
by apply/allP => y /mem_drop /Hx.
Qed.

Lemma item_cols_from m n A r i j :
  wf m n A -> i < m -> item (cols_from A r) i j = item A i (r + j).
Proof.
move=> [Hm _ /andP[/eqP Hs _] _] Hi; rewrite /item /getrow /=.
by rewrite (nth_map [::]) ?Hs ?Hm // nth_drop.
Qed.

Lemma wf_cols_upto m n A r : wf m n A -> wf m (minn r n) (cols_upto A r).
Proof.
move=> [Hm Hn /andP[/eqP Hs /allP Hr] /allP Hb]; split; rewrite /= ?Hm ?Hn //.
  rewrite /rectangular /= size_map Hs eqxx /=.
  apply/allP => row /mapP[x /Hr /eqP Hx ->]; rewrite size_take Hx.
  by rewrite /minn; case: ltnP.
apply/allP => row /mapP[x /Hb /allP Hx ->].
by apply/allP => y /mem_take /Hx.
Qed.

Lemma item_cols_upto m n A r i j :
  wf m n A -> i < m -> j < r -> item (cols_upto A r) i j = item A i j.
Proof.
move=> [Hm _ /andP[/eqP Hs _] _] Hi Hj; rewrite /item /getrow /=.
by rewrite (nth_map [::]) ?Hs ?Hm // nth_take.
Qed.

Lemma wf_rows_from m n A r : wf m n A -> wf (m - r) n (rows_from A r).
Proof.
move=> [Hm Hn /andP[/eqP Hs /allP Hr] /allP Hb]; split; rewrite /= ?Hm ?Hn //.
  rewrite /rectangular /= size_drop Hs eqxx /=.
  by apply/allP => row /mem_drop /Hr.
by apply/allP => row /mem_drop /Hb.
Qed.

Lemma item_rows_from A r i j : item (rows_from A r) i j = item A (r + i) j.
Proof. by rewrite /item /getrow /= nth_drop. Qed.

Section SliceMatrices.

Import GRing.Theory.
Local Open Scope ring_scope.

Lemma mx_of_transpose m n A :
  wf m n A -> mx_of n m (transpose A) = (mx_of m n A)^T.
Proof.
by move=> HA; apply/matrixP => i j; rewrite !mxE (item_transpose HA).
Qed.

Lemma mx_cols_from m n A r :
  wf m n A -> mx_of m (n - r) (cols_from A r) = mx_of m n A *m sel n r.
Proof.
move=> HA; apply/matrixP => i j; rewrite !mxE (item_cols_from _ _ HA) //.
have Hk : (r + j < n)%N by have := ltn_ord j; slia.
rewrite (bigD1 (Ordinal Hk)) //= big1 ?addr0.
  move=> k Hne; rewrite !mxE.
  have -> : ((k : nat) == (r + j)%N) = false.
    by apply/negbTE; move: Hne; rewrite -val_eqE.
  by rewrite mulr0.
by rewrite !mxE /= eqxx mulr1.
Qed.

Lemma mx_cols_upto m n A r :
  wf m n A -> (r <= n)%N ->
  mx_of m r (cols_upto A r) = mx_of m n A *m (pid_mx r : 'M_(n, r)).
Proof.
move=> HA Hr; apply/matrixP => i j; rewrite !mxE (item_cols_upto HA) //.
have Hk : (j < n)%N by apply: leq_trans Hr.
rewrite (bigD1 (Ordinal Hk)) //= big1 ?addr0.
  move=> k Hne; rewrite !mxE.
  have -> : ((k : nat) == (j : nat)) = false.
    by apply/negbTE; move: Hne; rewrite -val_eqE.
  by rewrite mulr0.
by rewrite !mxE /= eqxx ltn_ord mulr1.
Qed.

Lemma mx_rows_from m n A r :
  mx_of (m - r) n (rows_from A r) = (sel m r)^T *m mx_of m n A.
Proof.
apply/matrixP => i j; rewrite !mxE item_rows_from.
have Hk : (r + i < m)%N by have := ltn_ord i; slia.
rewrite (bigD1 (Ordinal Hk)) //= big1 ?addr0.
  move=> k Hne; rewrite !mxE.
  have -> : ((k : nat) == (r + i)%N) = false.
    by apply/negbTE; move: Hne; rewrite -val_eqE.
  by rewrite mul0r.
by rewrite !mxE /= eqxx mul1r.
Qed.

End SliceMatrices.

(** *** The non-zero rows of the echelon form *)

Section Generators.

Import GRing.Theory.
Local Open Scope ring_scope.

Variables (q n : nat) (Sm : ndarray).
Hypothesis HS : wf q n Sm.
Hypothesis Hrref : is_rref Sm.

Let t : nat := \rank (mx_of q n Sm).
Let G : ndarray := Ndarray t n (take t (data Sm)).

Lemma gen_t_le : (t <= q)%N.
Proof. exact: rank_leq_row. Qed.

Lemma gen_wf : wf t n G.
Proof.
case: (HS) => Hq Hn /andP[/eqP Hs /allP Hr] /allP Hb; split=> //=.
  rewrite /rectangular /= size_take Hs Hq.
  have -> : (if (t < q)%N then t else q) = t.
    by have := gen_t_le; case: ltnP => //; slia.
  by rewrite eqxx /=; apply/allP => row /mem_take /Hr; rewrite Hn.
by apply/allP => row /mem_take /Hb.
Qed.

Lemma gen_item i j : (i < t)%N -> item G i j = item Sm i j.
Proof. by move=> Hi; rewrite /item /getrow /= nth_take. Qed.

Lemma gen_zero_row i j : (t <= i)%N -> (i < q)%N -> (j < n)%N -> item Sm i j = 0%N.
Proof.
move=> Hti Hi Hj; apply: (rref_zero_row HS) => //.
by rewrite (rref_nz_lt HS Hrref) // -(rref_rank HS Hrref) -/t -leqNgt.
Qed.

Lemma gen_mx : mx_of t n G = (pid_mx t : 'M_(t, q)) *m mx_of q n Sm.
Proof.
apply/matrixP => i j; rewrite !mxE gen_item //.
have Hi : (i < q)%N by apply: leq_trans (ltn_ord i) gen_t_le.
rewrite (bigD1 (Ordinal Hi)) //= big1 ?addr0.
  move=> k Hne; rewrite !mxE.
  have -> : ((i : nat) == (k : nat)) = false.
    by apply/negbTE; move: Hne; rewrite -val_eqE /= eq_sym.
  by rewrite mul0r.
by rewrite !mxE /= eqxx ltn_ord mul1r.
Qed.

Lemma gen_mx_back : mx_of q n Sm = (pid_mx t : 'M_(q, t)) *m mx_of t n G.
Proof.
apply/matrixP => r j; rewrite !mxE.
case: (ltnP r t) => Hr; last first.
  rewrite gen_zero_row // big1 // => i _; rewrite !mxE.
  have -> : ((r : nat) == (i : nat)) = false.
    by apply/negbTE; have := ltn_ord i; slia.
  by rewrite mul0r.
rewrite (bigD1 (Ordinal Hr)) //= big1 ?addr0.
  move=> i Hne; rewrite !mxE.
  have -> : ((r : nat) == (i : nat)) = false.
    by apply/negbTE; move: Hne; rewrite -val_eqE /= eq_sym.
  by rewrite mul0r.
by rewrite !mxE /= eqxx Hr mul1r gen_item.
Qed.

Lemma gen_eqmx : (mx_of t n G :=: mx_of q n Sm)%MS.
Proof.
apply/eqmxP; apply/andP; split; first by rewrite gen_mx submxMl.
by rewrite {1}gen_mx_back submxMl.
Qed.

Lemma gen_free : row_free (mx_of t n G).
Proof. by rewrite /row_free gen_eqmx. Qed.

Lemma gen_rows : [seq row <- data Sm | np_any row] = data G.
Proof. by rewrite (nonzero_rows_take HS Hrref) -(rref_rank HS Hrref). Qed.

End Generators.

(** *** The run of [homology_basis] *)

Lemma matrix01_wf m n A : wf m n A -> matrix01 A.
Proof. by case=> _ _ Hr Hb; rewrite /matrix01 Hr Hb. Qed.

Section HomologyRun.

Import GRing.Theory.
Local Open Scope ring_scope.

Variables (bd : seq (nat * ndarray)) (k m n p : nat) (M1 M2 : ndarray).
Hypothesis Hk : dict_get bd k = Ok M1.
Hypothesis Hk1 : dict_get bd k.+1 = Ok M2.
Hypothesis H1 : wf m n M1.
Hypothesis H2 : wf n p M2.

Let A1 := mx_of m n M1.
Let A2 := mx_of n p M2.

Lemma homology_basis_run :
  exists G im2 : ndarray,
    [/\ forall (C : option (seq chain)) (shortest : bool) (w : world),
        homology_basis bd k C shortest None w
        = (do basis <-
             (if shortest then
                do shortest_basis <- shortest_search im2 (data G);
                if C is Some (c :: C')
                then do b <- mapM (interpret_coset (c :: C')) shortest_basis;
                     Ok (ShortestChains b)
                else Ok (ShortestChains [::])
              else
                if C is Some (c :: C')
                then do b <- interpret (c :: C') (data G); Ok (Chains b)
                else Ok (Generators (data G)));
           Ok (basis, w)),
        wf (nrows G) n G
        /\ (wf n (\rank A2) im2
            /\ ((mx_of n (\rank A2) im2)^T :=: A2^T)%MS),
        row_free (mx_of (nrows G) n G)
      & A1 *m A2 = 0 ->
        [/\ nrows G = (n - \rank A1 - \rank A2)%N,
            mx_of (nrows G) n G *m A1^T = 0,
            (mx_of (nrows G) n G :&: A2^T)%MS = 0
          & (mx_of (nrows G) n G + A2^T :=: kermx A1^T)%MS]].
Proof.
have [L1 [R1 [S1 [L1inv [E1 Hrel1 HP1 Hr1 Hrk1]]]]] :=
  smith_normal_form_mod2_sum (matrix01_wf H1).
have [L2 [R2 [S2 [L2inv [E2 Hrel2 HP2 Hr2 Hrk2]]]]] :=
  smith_normal_form_mod2_sum (matrix01_wf H2).
case: (H1) => Em1 En1 _ _; case: (H2) => Em2 En2 _ _.
rewrite Em1 En1 in Hrel1 HP1 Hr1 Hrk1; rewrite Em2 En2 in Hrel2 HP2 Hr2 Hrk2.
case: (Hrel1) => [[HL1 HR1 HS1 HL1i] F1 G1 U1].
case: (Hrel2) => [[HL2 HR2 HS2 HL2i] F2 G2 U2].
set r1 := np_sum S1 in HP1 Hr1 Hrk1 *; set r2 := np_sum S2 in HP2 Hr2 Hrk2 *.
have Hker := wf_cols_from r1 HR1.
have Hcok := wf_cols_from r2 HL2i.
have Hprj := wf_rows_from r2 HL2.
have [X [EX HX EXm]] := logical_matmul_wf Hcok Hprj.
have [Y [EY HY EYm]] := logical_matmul_wf HX Hker.
have HT := wf_transpose HY.
have [L [Sm [Linv [E3 Hrel3 Hrref Hrows]]]] :=
  reduced_row_echelon_form_mod2_rows (matrix01_wf HT).
case: (HT) => Em3 En3 _ _; rewrite Em3 En3 in Hrel3 Hrows.
case: (Hrel3) => [[HL3 _ HS3 _] F3 G3 _].
pose t := \rank (mx_of (n - r1) n Sm).
pose G := Ndarray t n (take t (data Sm)).
exists G, (cols_upto L2inv r2).
have EW : mx_of (n - r1) n (transpose Y)
          = (mx_of n n L2inv *m sel n r2 *m (sel n r2)^T *m mx_of n n L2
             *m (mx_of n n R1 *m sel n r1))^T.
  by rewrite (mx_of_transpose HY) EYm EXm !mx_cols_from // mx_rows_from !mulmxA.
have [HLu _] := mulmx1_unit G3.
have Hfull : row_full (mx_of (n - r1) (n - r1) L).
  rewrite row_full_unit; exact: HLu.
have Eq1 : (mx_of t n G :=: mx_of (n - r1) n (transpose Y))%MS.
  apply: (eqmx_trans (gen_eqmx HS3 Hrref)).
  by rewrite -F3 mx_of_eye mulmx1; apply: eqmxMfull.
have S1pid : mx_of m m L1 *m A1 *m mx_of n n R1 = pid_mx r1.
  by rewrite F1 (pdiag_mx HP1).
have S2pid : mx_of n n L2 *m A2 *m mx_of p p R2 = pid_mx r2.
  by rewrite F2 (pdiag_mx HP2).
have [HL1u _] := mulmx1_unit G1.
have Hr1m : (r1 <= m)%N by move: Hr1; rewrite leq_min => /andP[].
have Hr2p : (r2 <= p)%N by move: Hr2; rewrite leq_min => /andP[].
split.
- move=> C shortest w.
  rewrite /homology_basis Hk /= E1 /= Hk1 /= E2 /=.
  rewrite /matmulreduce /= EX /= EY /= E3 /= (gen_rows HS3 Hrref) /=.
  case: shortest => /=.
    case: (shortest_search _ _) => [sb|e] //=.
    by case: C => [[|c C']|] //=; case: (mapM _ _).
  by case: C => [[|c C']|] //=; case: (interpret _ _).
- split; first exact: gen_wf.
  have Hr2n : (r2 <= n)%N by move: Hr2; rewrite leq_min => /andP[].
  rewrite -Hrk2; split.
    have := wf_cols_upto r2 HL2i.
    by have -> : minn r2 n = r2 by move: Hr2n; slia.
  rewrite (mx_cols_upto HL2i Hr2n).
  by apply: (hom_image S2pid G2 Hr2p Hr2n); rewrite -Hrk2.
- exact: gen_free.
- move=> H12; rewrite EW in Eq1.
  have Hcap := hom_cap (mx_of n n R1) r1 S2pid G2 U2.
  have Hdir := hom_direct H12 S1pid HL1u U1 Hr1m S2pid G2 Hr2p.
  have Hrk := hom_rank H12 S1pid HL1u U1 Hr1m S2pid G2 U2 Hr2p.
  have Hcyc := hom_cycles H12 S1pid HL1u S2pid G2 Hr2p.
  split.
  + by rewrite /= -Hrk -Eq1.1 (gen_eqmx HS3 Hrref).1.
  + set Wm := (_ *m _)^T in Eq1 Hcyc.
    have /submxP[U ->] : (mx_of t n G <= Wm)%MS by rewrite Eq1 submx_refl.
    by rewrite -mulmxA Hcyc mulmx0.
  + apply/eqP; rewrite -mxrank_eq0 (cap_eqmx Eq1 (eqmx_refl _)) Hcap.
    by rewrite mxrank0.
  + exact: (eqmx_trans (adds_eqmx Eq1 (eqmx_refl _)) Hdir).
Qed.

End HomologyRun.

Section HomologyBasis.

Import GRing.Theory.
Local Open Scope ring_scope.

Lemma matmul_zero m n p M1 M2 :
  wf m n M1 -> wf n p M2 -> logical_matmul M1 M2 = Ok (zeros m p) ->
  mx_of m n M1 *m mx_of n p M2 = 0.
Proof.
move=> H1 H2 E; have [Z [EZ _ <-]] := logical_matmul_wf H1 H2.
by move: EZ; rewrite E => -[<-]; rewrite mx_of_zeros.
Qed.

(** A row of one matrix times a row of another, as [logical_dot] has
    it. *)
Lemma logical_dot_rows m n q M G (i : 'I_m) (a : 'I_q) :
  wf m n M -> wf q n G ->
  exists2 d : nat,
    logical_dot (getrow M i) (getrow G a) = Ok d
    & (d <= 1)%N /\ d%:R = (mx_of q n G *m (mx_of m n M)^T) a i :> 'F_2.
Proof.
move=> HM HG.
have HsM : size (getrow M i) = n by rewrite (wf_getrow HM) ?size_mkseq.
have HsG : size (getrow G a) = n by rewrite (wf_getrow HG) ?size_mkseq.
rewrite (logical_dotE HsM HsG); eexists; first by reflexivity.
split; first by case: (foldr _ _ _).
rewrite F2_foldr_addb !mxE.
have -> : iota 0 n = index_iota 0 n by rewrite /index_iota subn0.
rewrite big_mkord; apply: eq_bigr => j _; rewrite !mxE /=.
rewrite -/(item M i j) -/(item G a j) mulrC F2_and01 //.
  exact: wf_item HM.
exact: wf_item HG.
Qed.

(** What [homology_basis] returns without the search for shortest
    representatives. *)
Lemma homology_basis_generators (bd : seq (nat * ndarray)) (k m n p : nat)
    (M1 M2 : ndarray) (C : option (seq chain)) (w : world) :
  dict_get bd k = Ok M1 -> dict_get bd k.+1 = Ok M2 ->
  wf m n M1 -> wf n p M2 ->
  logical_matmul M1 M2 = Ok (zeros m p) ->
  (forall c, C = Some c -> size c = n) ->
  exists proj : seq (seq nat),
    [/\ homology_basis bd k C false None w
        = Ok (match C with
              | Some (c :: C') =>
                  Chains [seq mask [seq x == 1%N | x <- g] (c :: C')
                         | g <- proj]
              | _ => Generators proj
              end, w),
        size proj = (n - \rank (mx_of m n M1) - \rank (mx_of n p M2))%N,
        all (fun g => (size g == n) && all (fun x => (x <= 1)%N) g) proj
      & forall g i, g \in proj -> (i < m)%N ->
          logical_dot (getrow M1 i) g = Ok 0%N].
Proof.
move=> Hk Hk1 H1 H2 E12 HC.
have H12 := matmul_zero H1 H2 E12.
have [G [im2 [/(_ C false w) E [HG _] _ /(_ H12) [Hn Hcyc _ _]]]] :=
  homology_basis_run Hk Hk1 H1 H2.
case: (HG) => _ HGn /andP[/eqP HGs /allP HGr] /allP HGb.
have Hall : all (fun g => (size g == n) && all (fun x => (x <= 1)%N) g) (data G).
  by apply/allP => g Hg; rewrite -HGn (HGr _ Hg) (HGb _ Hg).
exists (data G); split.
- rewrite E /=; case: C HC {E} => [[|c C']|] //= HC.
  rewrite interpret_mask (HC _ erefl).
  have -> : all (fun vec => size vec == n) (data G).
    by apply/allP => g /(allP Hall) /andP[].
  by [].
- by rewrite HGs.
- exact: Hall.
- move=> g i Hg Hi.
  have Ha : (index g (data G) < nrows G)%N by rewrite -HGs index_mem.
  have [d Ed [Hd1 Hd]] := logical_dot_rows (Ordinal Hi) (Ordinal Ha) H1 HG.
  move: Ed; rewrite /getrow /= nth_index // => ->; congr Ok.
  by apply: (F2_natr_inj Hd1 (leq0n 1)); rewrite Hd Hcyc mxE.
Qed.


(** X16: when [bd] holds under [k] and [k + 1] two 0/1 matrices that
    compose, of shapes [m] by [n] and [n] by [p], with product zero, and
    [C] is absent or a list of [n] chains, [homology_basis] without a
    log returns; the generators are 0/1 vectors of length [n], as many as
    the Betti number [n - rank bd[k] - rank bd[k + 1]], and each of them
    is a cycle: its product with every row of [bd[k]] is 0.  With a
    non-empty [C] each generator is returned as the list of the chains it
    selects. *)
Theorem homology_basis_betti (bd : seq (nat * ndarray)) (k m n p : nat)
    (M1 M2 : ndarray) (C : option (seq chain)) (w : world) :
  dict_get bd k = Ok M1 -> dict_get bd k.+1 = Ok M2 ->
  wf m n M1 -> wf n p M2 ->
  logical_matmul M1 M2 = Ok (zeros m p) ->
  (forall c, C = Some c -> size c = n) ->
  exists proj : seq (seq nat),
    [/\ homology_basis bd k C false None w
        = Ok (match C with
              | Some (c :: C') =>
                  Chains [seq mask [seq x == 1%N | x <- g] (c :: C')
                         | g <- proj]
              | _ => Generators proj
              end, w),
        size proj = (n - \rank (mx_of m n M1) - \rank (mx_of n p M2))%N,
        all (fun g => (size g == n) && all (fun x => (x <= 1)%N) g) proj
      & forall g i, g \in proj -> (i < m)%N ->
          logical_dot (getrow M1 i) g = Ok 0%N].
Proof. exact: homology_basis_generators. Qed.

Lemma homology_basis_betti_witness :
  exists proj : seq (seq nat),
    [/\ homology_basis triangle_bd 1 None false None no_files
        = Ok (Generators proj, no_files),
        size proj
        = (3 - \rank (mx_of 3 3 triangle_bd1)
           - \rank (mx_of 3 1 (Ndarray 3 1 [:: [:: 1%N]; [:: 1%N]; [:: 1%N]])))%N,
        all (fun g => (size g == 3) && all (fun x => (x <= 1)%N) g) proj
      & forall g i, g \in proj -> (i < 3)%N ->
          logical_dot (getrow triangle_bd1 i) g = Ok 0%N].
Proof.
apply: (@homology_basis_betti triangle_bd 1 3 3 1 triangle_bd1
          (Ndarray 3 1 [:: [:: 1%N]; [:: 1%N]; [:: 1%N]]) None no_files) => //.
Defined.

(** X17: under the same conditions the generators that
    [homology_basis] returns are a basis of the homology: they are
    linearly independent over the field of two elements, no non-zero
    combination of them is a boundary, and together with the boundaries
    (the columns of [bd[k + 1]]) they span the cycles (the kernel of
    [bd[k]]). *)
Theorem homology_basis_complement (bd : seq (nat * ndarray)) (k m n p : nat)
    (M1 M2 : ndarray) (w : world) :
  dict_get bd k = Ok M1 -> dict_get bd k.+1 = Ok M2 ->
  wf m n M1 -> wf n p M2 ->
  logical_matmul M1 M2 = Ok (zeros m p) ->
  exists G : ndarray,
    let g := mx_of (nrows G) n G in
    [/\ homology_basis bd k None false None w = Ok (Generators (data G), w),
        wf (nrows G) n G,
        row_free g,
        (g :&: (mx_of n p M2)^T)%MS = 0
      & (g + (mx_of n p M2)^T :=: kermx (mx_of m n M1)^T)%MS].
Proof.
move=> Hk Hk1 H1 H2 E12.
have H12 := matmul_zero H1 H2 E12.
have [G [im2 [/(_ None false w) E [HG _] Hfree /(_ H12) [_ _ Hcap Hsum]]]] :=
  homology_basis_run Hk Hk1 H1 H2.
by exists G; split.
Qed.

Lemma homology_basis_complement_witness :
  exists G : ndarray,
    let g := mx_of (nrows G) 3 G in
    let d2 := Ndarray 3 1 [:: [:: 1%N]; [:: 1%N]; [:: 1%N]] in
    [/\ homology_basis triangle_bd 1 None false None no_files
        = Ok (Generators (data G), no_files),
        wf (nrows G) 3 G,
        row_free g,
        (g :&: (mx_of 3 1 d2)^T)%MS = 0
      & (g + (mx_of 3 1 d2)^T :=: kermx (mx_of 3 3 triangle_bd1)^T)%MS].
Proof.
apply: (@homology_basis_complement triangle_bd 1 3 3 1 triangle_bd1
          (Ndarray 3 1 [:: [:: 1%N]; [:: 1%N]; [:: 1%N]]) no_files) => //.
Defined.

Lemma all_zeros_item A i j : all_zeros A -> item A i j = 0%N.
Proof.
move=> /allP H; rewrite /item /getrow.
case: (ltnP i (size (data A))) => Hi; last first.
  by rewrite (@nth_default _ [::] (data A)) // nth_nil.
have /allP Hr := H _ (mem_nth [::] Hi).
case: (ltnP j (size (nth [::] (data A) i))) => Hj; last by rewrite nth_default.
by have /eqP := Hr _ (mem_nth 0%N Hj).
Qed.

Lemma shortest_search_zero im2 proj :
  np_sum im2 = 0%N -> shortest_search im2 proj = Ok (nseq (size proj) None).
Proof.
move=> Hz; rewrite /shortest_search.
have Hc g : coset im2 g true = Ok None by rewrite /coset Hz.
by elim: proj => [|g proj IH] //=; rewrite Hc /= IH.
Qed.

(** X18: a search for shortest representatives fails where there is
    nothing to choose from: when [bd[k + 1]] is a matrix of zeros, as it
    is when there are no chains of dimension [k + 1], [bd[k]] has a
    non-trivial kernel and [C] is the list of the [n] chains,
    [homology_basis] with [shortest=True] raises [TypeError]: [coset]
    returns [None] for the first generator and [interpret] iterates over
    it. *)
Theorem homology_basis_shortest_fails (bd : seq (nat * ndarray))
    (k m n p : nat) (M1 M2 : ndarray) (C : seq chain) (w : world) :
  dict_get bd k = Ok M1 -> dict_get bd k.+1 = Ok M2 ->
  wf m n M1 -> wf n p M2 -> all_zeros M2 ->
  size C = n -> (\rank (mx_of m n M1) < n)%N ->
  homology_basis bd k (Some C) true None w = Raise TypeError.
Proof.
move=> Hk Hk1 H1 H2 Hz HC Hrk.
have A20 : mx_of n p M2 = 0.
  by apply/matrixP => i j; rewrite !mxE all_zeros_item.
have H12 : mx_of m n M1 *m mx_of n p M2 = 0 by rewrite A20 mulmx0.
have [G [im2 [/(_ (Some C) true w) E [HG [Him _]] _ /(_ H12) [Hn _ _ _]]]] :=
  homology_basis_run Hk Hk1 H1 H2.
rewrite A20 mxrank0 in Him Hn.
have Hsum : np_sum im2 = 0%N.
  apply: np_sum_all_zeros; apply: all_zeros_no_columns; first by case: Him.
  by case: Him.
case: (HG) => _ _ /andP[/eqP HGs _] _.
have Hpos : (0 < size (data G))%N by rewrite HGs Hn subn0 subn_gt0.
rewrite E (shortest_search_zero _ Hsum) /=.
case: C HC {E} => [|c C'] HC; first by move: Hrk; rewrite -HC.
by case: (size (data G)) Hpos.
Qed.

Lemma homology_basis_shortest_fails_witness :
  homology_basis [:: (1%N, triangle_bd1); (2, zeros 3 0)] 1
    (Some [:: [:: 1%N; 2]; [:: 1%N; 3]; [:: 2; 3]]) true None no_files
  = Raise TypeError.
Proof.
apply: (@homology_basis_shortest_fails
          [:: (1%N, triangle_bd1); (2, zeros 3 0)] 1 3 3 0 triangle_bd1
          (zeros 3 0) [:: [:: 1%N; 2]; [:: 1%N; 3]; [:: 2; 3]] no_files) => //.
rewrite (@rank_by_smith_normal_form triangle_bd1 2) //.
Defined.

End HomologyBasis.

(** *** The homology basis of a hypergraph *)

Lemma max_edge_size_has (h : Hypergraph) (k : nat) :
  k < max_edge_size h -> has (fun e => k < len e) h.
Proof.
rewrite /max_edge_size; elim: h => [|e h IH] //=.
by rewrite leq_max => /orP[-> //|/IH ->]; rewrite orbT.
Qed.

Lemma kchainbasis_nonempty (h : Hypergraph) (k : nat) :
  has (fun e => k < len e) h -> kchainbasis h k != [::].
Proof.
case/hasP => e He Hk.
have Hc : take k.+1 (sorted_uidset e) \in kchainbasis h k.
  rewrite mem_kchainbasis; apply/hasP; exists e => //.
  rewrite mem_edge_kchains Hk /= size_take size_sorted_uidset.
  have -> : (if k.+1 < len e then k.+1 else len e) = k.+1.
    by case: ltnP => //; move: Hk; slia.
  by rewrite eqxx andbT -{2}(cat_take_drop k.+1 (sorted_uidset e)) prefix_subseq.
by case: (kchainbasis h k) Hc.
Qed.

(** The chains that a generator selects among those that a row of the
    boundary matrix marks. *)
Lemma count_mask_zip (T : Type) (P : pred T) (s : seq T) (g : seq nat) :
  size g = size s -> all (fun x => x <= 1) g ->
  count (fun q : nat * nat => (q.1 != 0) && (q.2 != 0))
        (zip [seq (P c : nat) | c <- s] g)
  = count P (mask [seq x == 1 | x <- g] s).
Proof.
elim: s g => [|c s IH] [|x g] //= [Hsz] /andP[Hx Hg].
rewrite IH //; case: x Hx => [|[|x]] //= _; first by rewrite andbF.
by rewrite andbT; case: (P c).
Qed.

Lemma getrow_incidence (U V : seq chain) i :
  i < size U ->
  getrow (incidence U V) i
  = [seq ((nth [::] U i \in faces c) : nat) | c <- V].
Proof.
move=> Hi; rewrite (wf_getrow (wf_incidence U V)) //.
rewrite -{3}(mkseq_nth [::] V) /mkseq -map_comp.
apply/eq_in_map => j; rewrite mem_iota add0n /= => Hj.
by rewrite /incidence item_build.
Qed.

Section HypergraphHomology.

Import GRing.Theory.

Variables (h : Hypergraph) (k : nat).
Hypothesis Hk : 0 < k.
Hypothesis Hmax : k < max_edge_size h.

Let Cm := kchainbasis h k.-1.
Let Ck := kchainbasis h k.
Let Cp := kchainbasis h k.+1.

Lemma hhb_valid_dimension :
  ((((max_edge_size h)%:Z - 1 < k%:Z) || (k%:Z < 1))%R) = false.
Proof.
rewrite Num.Theory.ltrBlDr -PoszD !ltz_nat addn1 ltnS.
by rewrite leqNgt Hmax /= ltnNge Hk.
Qed.

Lemma hhb_run (shortest : bool) (w : world) :
  hypergraph_homology_basis h k%:Z shortest None w
  = (do '(b, w') <- homology_basis
                      [:: (k, incidence Cm Ck); (k.+1, incidence Ck Cp)]
                      k (Some Ck) shortest None w;
     Ok (Basis b, w')).
Proof.
have Hh : h <> [::] by move=> E; move: Hmax; rewrite E.
rewrite /hypergraph_homology_basis (np_max_edge_size Hh) /=.
rewrite hhb_valid_dimension /=.
have Er1 : range k.-1 k.+2 = [:: k.-1; k; k.+1].
  have -> : range k.-1 k.+2 = iota k.-1 3 by rewrite /range; congr iota; slia.
  by rewrite /= prednK.
have Er2 : range k k.+2 = [:: k; k.+1].
  by have -> : range k k.+2 = iota k 2 by rewrite /range; congr iota; slia.
rewrite Er1 Er2 /= subnn.
have -> : k - k.-1 = 1 by slia.
have -> : k.+1 - k.-1 = 2 by slia.
rewrite /= -/Cm -/Ck -/Cp.
have -> : bkMatrix Cm Ck = Ok (incidence Cm Ck).
  by rewrite /Cm /Ck -{2 4}(prednK Hk); apply: bkMatrix_kchainbasis.
by rewrite /= (bkMatrix_kchainbasis h k).
Qed.

End HypergraphHomology.

Section HypergraphBasis.

Import GRing.Theory.
Local Open Scope ring_scope.

(** X19: for a hypergraph [h] and a dimension [k] from 1 to the
    dimension of its largest simplex, [hypergraph_homology_basis]
    without a log and without the search for shortest representatives
    returns a list of lists of [k]-chains, not ['wrong dim'] and no
    exception.  It has as many elements as the Betti number, the number
    of [k]-chains minus the ranks of the two boundary matrices; each
    element lists some of the [k]-chains, in their order, and is a
    cycle: every chain of dimension [k - 1] is a face of an even number
    of its chains. *)
Theorem hypergraph_homology_basis_cycles (h : Hypergraph) (k : nat)
    (w : world) :
  (0 < k)%N -> (k < max_edge_size h)%N ->
  let Cm := kchainbasis h k.-1 in
  let Ck := kchainbasis h k in
  let Cp := kchainbasis h k.+1 in
  exists b : seq (seq chain),
    [/\ hypergraph_homology_basis h k%:Z false None w
        = Ok (Basis (Chains b), w),
        size b
        = (size Ck
           - \rank (mx_of (size Cm) (size Ck) (incidence Cm Ck))
           - \rank (mx_of (size Ck) (size Cp) (incidence Ck Cp)))%N,
        all (fun cyc => subseq cyc Ck) b
      & forall cyc rho, cyc \in b -> rho \in Cm ->
          ~~ odd (count (fun c : chain => rho \in faces c) cyc)].
Proof.
move=> Hk Hmax Cm Ck Cp.
pose bd := [:: (k, incidence Cm Ck); (k.+1, incidence Ck Cp)].
have D1 : dict_get bd k = Ok (incidence Cm Ck) by rewrite /= eqxx.
have D2 : dict_get bd k.+1 = Ok (incidence Ck Cp).
  by rewrite /= eqxx (ltn_eqF (ltnSn k)).
have E12 : logical_matmul (incidence Cm Ck) (incidence Ck Cp)
           = Ok (zeros (size Cm) (size Cp)).
  by rewrite /Cm /Ck /Cp -{2 3 4 6}(prednK Hk); apply: boundary_matrices_compose.
have HC : forall c, Some Ck = Some c -> size c = size Ck by move=> c [<-].
have [proj [E Hsz Hall Hcyc]] :=
  homology_basis_generators w D1 D2 (wf_incidence Cm Ck) (wf_incidence Ck Cp)
    E12 HC.
have Hne : Ck != [::] by apply/kchainbasis_nonempty/max_edge_size_has.
exists [seq mask [seq x == 1%N | x <- g] Ck | g <- proj]; split.
- rewrite (hhb_run Hk Hmax) -/Cm -/Ck -/Cp -/bd E.
  by case: (Ck) Hne.
- by rewrite size_map.
- by apply/allP => cyc /mapP[g _ ->]; apply: mask_subseq.
- move=> cyc rho /mapP[g Hg ->] Hrho.
  have Hi : (index rho Cm < size Cm)%N by rewrite index_mem.
  have := Hcyc g _ Hg Hi; rewrite getrow_incidence // nth_index //.
  have /andP[/eqP Hgs Hgb] := allP Hall _ Hg.
  rewrite /logical_dot size_map Hgs eqxx /= foldr_addb_odd count_mask_zip //.
  by case=> /eqP; rewrite eqb0.
Qed.

Lemma hypergraph_homology_basis_cycles_witness :
  let Cm := kchainbasis hollow_triangle 0 in
  let Ck := kchainbasis hollow_triangle 1 in
  let Cp := kchainbasis hollow_triangle 2 in
  exists b : seq (seq chain),
    [/\ hypergraph_homology_basis hollow_triangle 1 false None no_files
        = Ok (Basis (Chains b), no_files),
        size b
        = (size Ck
           - \rank (mx_of (size Cm) (size Ck) (incidence Cm Ck))
           - \rank (mx_of (size Ck) (size Cp) (incidence Ck Cp)))%N,
        all (fun cyc => subseq cyc Ck) b
      & forall cyc rho, cyc \in b -> rho \in Cm ->
          ~~ odd (count (fun c : chain => rho \in faces c) cyc)].
Proof.
exact: (@hypergraph_homology_basis_cycles hollow_triangle 1 no_files isT isT).
Defined.

End HypergraphBasis.

(** ** What a run leaves in the log *)

Lemma logkey_eqbP (a b : logkey) : reflect (a = b) (logkey_eqb a b).
Proof.
case: a; case: b => /=; try (by constructor);
  move=> i j; apply: (iffP eqP) => [->|[]] //.
Qed.

Lemma dict_lookup_set (d : logdict) (key : logkey) (v : logval)
    (key' : logkey) :
  dict_lookup (dict_set d key v) key' =
  if logkey_eqb key key' then Some v else dict_lookup d key'.
Proof.
elim: d => [|[k1 v1] d IH] //=.
case: (logkey_eqbP k1 key) => [->|Hne] /=.
  by case: (logkey_eqb key key').
rewrite IH; case: (logkey_eqbP k1 key') => [E1|] //.
by case: (logkey_eqbP key key') => [E2|] //; case: Hne; rewrite E1 E2.
Qed.

Lemma dict_lookup_cat (d1 d2 : logdict) (key : logkey) :
  dict_lookup (d1 ++ d2) key =
  if dict_lookup d1 key is Some v then Some v else dict_lookup d2 key.
Proof. by elim: d1 => [|[k1 v1] d1 IH] //=; case: (logkey_eqb k1 key). Qed.

Lemma dict_lookup_update (entries d : logdict) (key : logkey) :
  dict_lookup (foldl (fun d kv => dict_set d kv.1 kv.2) d entries) key =
  if dict_lookup (rev entries) key is Some v then Some v
  else dict_lookup d key.
Proof.
elim: entries d => [|[k1 v1] es IH] d //=.
rewrite IH rev_cons -cats1 dict_lookup_cat dict_lookup_set /=.
by case: (dict_lookup (rev es) key) => //; case: (logkey_eqb k1 key).
Qed.

Lemma lookup_filter (V : Type) (fs : seq (String.string * V))
    (path path' : String.string) :
  path' <> path ->
  lookup [seq f <- fs | ~~ String.eqb f.1 path] path' = lookup fs path'.
Proof.
move=> Hne; elim: fs => [|[p v] fs IH] //=.
case E: (String.eqb p path) => /=; last by rewrite IH.
move/String.eqb_eq: E => ->.
by rewrite IH; move/String.eqb_neq: Hne; rewrite String.eqb_sym => ->.
Qed.

(** The block that writes the log, when it succeeds: a set at the path
    has taken the keys of the entries; otherwise the path holds a
    dictionary with the new entries over the old ones; and nothing else
    in the file system has changed. *)
Lemma write_log_logged (path : String.string) (entries : logdict)
    (w w' : world) :
  path <> String.EmptyString ->
  write_log (Some path) entries w = Ok w' ->
  [/\ match lookup (files w) path with
      | Some (PickledSet s) =>
          lookup (files w') path
          = Some (PickledSet
                    (foldl (fun s kv => set_add s (KeyName kv.1)) s entries))
      | _ =>
          exists2 d', lookup (files w') path = Some (PickledDict d')
            & forall key, dict_lookup d' key =
                if dict_lookup (rev entries) key is Some v then Some v
                else logged w path key
      end,
      forall path', path' <> path ->
        lookup (files w') path' = lookup (files w) path'
    & unwritable w' = unwritable w].
Proof.
case: path => [|a path] // _; rewrite /write_log /pickle_load /logged.
move: (String.String a path) => pth.
have Hdump obj : pickle_dump w pth obj = Ok w' ->
    [/\ lookup (files w') pth = Some (pickled obj),
        forall path', path' <> pth ->
          lookup (files w') path' = lookup (files w) path'
      & unwritable w' = unwritable w].
  rewrite /pickle_dump; case: (has _ _) => // -[<-].
  rewrite [files _]/= [unwritable _]/=; split=> // [|path' Hne].
    by rewrite [lookup _ _]/= String.eqb_refl.
  rewrite [LHS]/= (lookup_filter _ Hne).
  by move/String.eqb_neq: Hne; rewrite String.eqb_sym => ->.
have Hd d : (do logdict <- dict_update (LoadedDict d) entries;
             pickle_dump w pth logdict) = Ok w' ->
    [/\ exists2 d', lookup (files w') pth = Some (PickledDict d')
          & forall key, dict_lookup d' key =
              if dict_lookup (rev entries) key is Some v then Some v
              else dict_lookup d key,
        forall path', path' <> pth ->
          lookup (files w') path' = lookup (files w) path'
      & unwritable w' = unwritable w].
  rewrite /dict_update /bind => /Hdump[Hl Hf Hu]; split=> //.
  by eexists; [exact: Hl | move=> key; exact: dict_lookup_update].
case: (lookup (files w) pth) => [[d|s| |]|] //; try exact: Hd.
by rewrite /dict_update /bind => /Hdump[Hl Hf Hu].
Qed.

Lemma logged_of_dict (w : world) (path : String.string) (d : logdict)
    (key : logkey) :
  lookup (files w) path = Some (PickledDict d) ->
  logged w path key = dict_lookup d key.
Proof. by rewrite /logged => ->. Qed.

Lemma bind_Ok (A B : Type) (c : result A) (k : A -> result B) (r : B) :
  bind c k = Ok r -> exists2 a, c = Ok a & k a = Ok r.
Proof. by case: c => [a|e] //= Hk; exists a. Qed.

(** A run of [homology_basis] that returns has written its six entries
    last. *)
Lemma homology_basis_writes (bd : seq (nat * ndarray)) (k : nat)
    (C : option (seq chain)) (shortest : bool) (log : option String.string)
    (w w' : world) (b : basis_result) :
  homology_basis bd k C shortest log w = Ok (b, w') ->
  exists betti ker1 im2 proj,
    write_log log
      [:: (Key_k, LogInt k%:Z); (Key_betti k, LogInt betti);
          (Key_ker, LogArray ker1); (Key_im, LogArray im2);
          (Key_proj, proj); (Key_basis, LogBasis b)] w = Ok w'.
Proof.
rewrite /homology_basis => H.
have [bdk _ {}H] := bind_Ok H.
have [[[[L1 R1] S1] L1inv] _ {}H] := bind_Ok H.
have [bdk1 _ {}H] := bind_Ok H.
have [[[[L2 R2] S2] L2inv] _ {}H] := bind_Ok H.
have [prod _ {}H] := bind_Ok H.
have [[[u proj] v] _ {}H] := bind_Ok H.
have [[basis lproj] _ {}H] := bind_Ok H.
have [w1 Hw [Hb Hw1]] := bind_Ok H.
rewrite -Hb -Hw1.
by eexists; eexists; eexists; eexists; exact: Hw.
Qed.

Section HypergraphLog.

Import GRing.Theory.

Variables (h : Hypergraph) (k : nat).
Hypothesis Hk : 0 < k.
Hypothesis Hmax : k < max_edge_size h.

Let Cm := kchainbasis h k.-1.
Let Ck := kchainbasis h k.
Let Cp := kchainbasis h k.+1.

Lemma hhb_run_log (shortest : bool) (log : option String.string)
    (w : world) :
  hypergraph_homology_basis h k%:Z shortest log w
  = (do w1 <- write_log log
                [:: (Key_maxdim, LogInt ((max_edge_size h)%:Z - 1)%R);
                    (Key_kchains,
                     LogChainDict [:: (k.-1, Cm); (k, Ck); (k.+1, Cp)]);
                    (Key_bd,
                     LogArrayDict [:: (k, incidence Cm Ck);
                                      (k.+1, incidence Ck Cp)])] w;
     do '(b, w') <- homology_basis
                      [:: (k, incidence Cm Ck); (k.+1, incidence Ck Cp)]
                      k (Some Ck) shortest log w1;
     Ok (Basis b, w')).
Proof.
have Hh : h <> [::] by move=> E; move: Hmax; rewrite E.
rewrite /hypergraph_homology_basis (np_max_edge_size Hh) [bind (Ok _) _]/=.
rewrite hhb_valid_dimension //.
have Er1 : range k.-1 k.+2 = [:: k.-1; k; k.+1].
  have -> : range k.-1 k.+2 = iota k.-1 3 by rewrite /range; congr iota; slia.
  by rewrite /= prednK.
have Er2 : range k k.+2 = [:: k; k.+1].
  by have -> : range k k.+2 = iota k 2 by rewrite /range; congr iota; slia.
rewrite Er1 Er2 [map _ _]/= [mapM _ _]/= subnn.
have -> : k - k.-1 = 1 by slia.
have -> : k.+1 - k.-1 = 2 by slia.
rewrite [nth _ _ 0]/= [nth _ _ 1]/= [nth _ _ 2]/= -/Cm -/Ck -/Cp.
have -> : bkMatrix Cm Ck = Ok (incidence Cm Ck).
  by rewrite /Cm /Ck -{2 4}(prednK Hk); apply: bkMatrix_kchainbasis.
by rewrite /= (bkMatrix_kchainbasis h k).
Qed.

End HypergraphLog.

Section LogRoundTrip.

Import GRing.Theory.
Local Open Scope ring_scope.

(** X20: when [homology_basis], called with a log path that is not the
    empty string, returns, what the file at the path holds depends on
    what it held.  A set has taken the names of the six keys that the
    function writes.  Otherwise the file holds a dictionary whose entry
    ['k'] is [k] and whose entry ['basis'] is the basis returned, and
    whose entries under other keys than the six are those of the
    dictionary that the file held before, none if it held none.  No
    other file has changed. *)
Theorem homology_basis_log_written (bd : seq (nat * ndarray)) (k : nat)
    (C : option (seq chain)) (shortest : bool) (path : String.string)
    (w w' : world) (b : basis_result) :
  path <> String.EmptyString ->
  homology_basis bd k C shortest (Some path) w = Ok (b, w') ->
  [/\ match lookup (files w) path with
      | Some (PickledSet s) =>
          lookup (files w') path
          = Some (PickledSet
                    (foldl set_add s
                       [seq KeyName key
                       | key <- [:: Key_k; Key_betti k; Key_ker; Key_im;
                                    Key_proj; Key_basis]]))
      | _ =>
          [/\ logged w' path Key_k = Some (LogInt k%:Z),
              logged w' path Key_basis = Some (LogBasis b)
            & forall key,
                ~~ has (logkey_eqb key)
                     [:: Key_k; Key_betti k; Key_ker; Key_im; Key_proj;
                         Key_basis] ->
                logged w' path key = logged w path key]
      end,
      forall path', path' <> path ->
        lookup (files w') path' = lookup (files w) path'
    & unwritable w' = unwritable w].
Proof.
move=> Hp /homology_basis_writes[betti [ker1 [im2 [proj Hw]]]].
have [Hl Hf Hu] := write_log_logged Hp Hw; split=> //.
have Hd : (exists2 d', lookup (files w') path = Some (PickledDict d')
            & forall key, dict_lookup d' key =
                if dict_lookup
                     (rev [:: (Key_k, LogInt k%:Z); (Key_betti k, LogInt betti);
                              (Key_ker, LogArray ker1); (Key_im, LogArray im2);
                              (Key_proj, proj); (Key_basis, LogBasis b)]) key
                is Some v then Some v else logged w path key) ->
    [/\ logged w' path Key_k = Some (LogInt k%:Z),
        logged w' path Key_basis = Some (LogBasis b)
      & forall key,
          ~~ has (logkey_eqb key)
               [:: Key_k; Key_betti k; Key_ker; Key_im; Key_proj; Key_basis] ->
          logged w' path key = logged w path key].
  case=> d' Hl' Hd; rewrite {1 2 3}/logged Hl'; split; rewrite ?Hd //.
  move=> key; rewrite Hd; case: key => [|j|||||||] //=.
  by rewrite orbF eq_sym => /negbTE->.
by case: (lookup (files w) path) Hl => [[d|s| |]|] //; exact: Hd.
Qed.

Lemma homology_basis_log_written_witness :
  (exists (b : basis_result) (w' : world),
     [/\ homology_basis [:: (1%N, triangle_bd1); (2%N, zeros 3 0)] 1 None
           false (Some log_path) no_files = Ok (b, w'),
         logged w' log_path Key_k = Some (LogInt 1),
         logged w' log_path Key_basis = Some (LogBasis b)
       & logged w' log_path Key_bd = None])
  /\ (exists (b : basis_result) (w' : world),
        homology_basis [:: (1%N, triangle_bd1); (2%N, zeros 3 0)] 1 None
          false (Some log_path)
          (World [:: (log_path, PickledSet [:: Hashed 7; KeyName Key_k])]
                 [::]) = Ok (b, w')
        /\ lookup (files w') log_path
           = Some (PickledSet
                     [:: Hashed 7; KeyName Key_k; KeyName (Key_betti 1);
                         KeyName Key_ker; KeyName Key_im; KeyName Key_proj;
                         KeyName Key_basis])).
Proof.
have Hp : log_path <> String.EmptyString by [].
split.
  case E: (homology_basis _ _ _ _ _ _) => [[b w']|e]; last by vm_compute in E.
  have [[Hk Hb Ho] _ _] := homology_basis_log_written Hp E.
  by exists b, w'; split=> //; rewrite Ho.
case E: (homology_basis _ _ _ _ _ _) => [[b w']|e]; last by vm_compute in E.
have [Hs _ _] := homology_basis_log_written Hp E.
by exists b, w'.
Defined.

(** X21: when [hypergraph_homology_basis], called with a log path that
    is not the empty string, returns ['wrong dim'], it has written
    nothing.  When it returns a basis, the file at the path has been
    updated by both functions that log, the second reading what the
    first has written: a set has taken the names of their nine keys;
    otherwise the file holds a dictionary in which ['maxdim'] is the
    dimension of the largest simplex, ['kchains'] the chain bases of
    the dimensions [k - 1], [k] and [k + 1], ['bd'] the boundary
    matrices of the dimensions [k] and [k + 1], ['k'] is [k], and
    ['basis'] is the basis returned. *)
Theorem hypergraph_homology_basis_log_written (h : Hypergraph) (k : int)
    (shortest : bool) (path : String.string) (w w' : world)
    (r : hhb_result) :
  path <> String.EmptyString ->
  hypergraph_homology_basis h k shortest (Some path) w = Ok (r, w') ->
  let Cm := kchainbasis h (absz k).-1 in
  let Ck := kchainbasis h (absz k) in
  let Cp := kchainbasis h (absz k).+1 in
  match r with
  | WrongDim => w' = w
  | Basis b =>
      match lookup (files w) path with
      | Some (PickledSet s) =>
          lookup (files w') path
          = Some (PickledSet
                    (foldl set_add s
                       [seq KeyName key
                       | key <- [:: Key_maxdim; Key_kchains; Key_bd; Key_k;
                                    Key_betti (absz k); Key_ker; Key_im;
                                    Key_proj; Key_basis]]))
      | _ =>
          [/\ logged w' path Key_maxdim
              = Some (LogInt ((max_edge_size h)%:Z - 1)),
              logged w' path Key_kchains
              = Some (LogChainDict
                        [:: ((absz k).-1, Cm); ((absz k), Ck);
                            ((absz k).+1, Cp)]),
              logged w' path Key_bd
              = Some (LogArrayDict [:: ((absz k), incidence Cm Ck);
                                       ((absz k).+1, incidence Ck Cp)]),
              logged w' path Key_k = Some (LogInt k)
            & logged w' path Key_basis = Some (LogBasis b)]
      end
  end.
Proof.
move=> Hp H Cm Ck Cp.
have Hh : h <> [::] by move=> E; move: H; rewrite E.
case Hdim: (((max_edge_size h)%:Z - 1 < k) || (k < 1)).
  move: H; rewrite /hypergraph_homology_basis (np_max_edge_size Hh).
  by rewrite [bind (Ok _) _]/= Hdim => -[<- <-].
move/negbT: (Hdim); rewrite negb_or -!Order.TotalTheory.leNgt.
case/andP => Hk2 Hk1.
have Ek : k = (absz k)%:Z.
  by rewrite gez0_abs //; apply: Order.POrderTheory.le_trans Hk1.
have Hk : (0 < (absz k))%N by rewrite -ltz_nat -Ek.
have Hmax : ((absz k) < max_edge_size h)%N.
  by rewrite -ltz_nat -Ek -lezD1 -Num.Theory.lerBrDr.
move: H; rewrite {1}Ek (hhb_run_log Hk Hmax) => H.
have [w1 Hw1 {}H] := bind_Ok H.
have [[b0 w0] Hhb [<- <-]] := bind_Ok H.
have [betti [ker1 [im2 [proj Hw]]]] := homology_basis_writes Hhb.
have [Hl _ _] := write_log_logged Hp Hw.
have [Hl1 _ _] := write_log_logged Hp Hw1.
case E: (lookup (files w) path) Hl1 => [[d|s| |]|] Hl1;
  try (case: Hl1 => d1 Hl1 Hd1; move: Hl; rewrite Hl1 => -[d0 Hl0 Hd0];
       by split; rewrite (logged_of_dict _ Hl0) Hd0 /=
                   ?(logged_of_dict _ Hl1) ?Hd1 /= -?Ek).
by move: Hl; rewrite Hl1.
Qed.

Lemma hypergraph_homology_basis_log_written_witness :
  exists (b : basis_result) (w' : world),
    [/\ hypergraph_homology_basis hollow_triangle 1 false (Some log_path)
          no_files = Ok (Basis b, w'),
        logged w' log_path Key_maxdim = Some (LogInt 1),
        logged w' log_path Key_k = Some (LogInt 1)
      & logged w' log_path Key_basis = Some (LogBasis b)].
Proof.
case E: (hypergraph_homology_basis _ _ _ _ _) => [[[|b] w']|e];
  try by vm_compute in E.
have Hp : log_path <> String.EmptyString by [].
have [Hm _ _ Hk Hb] := hypergraph_homology_basis_log_written Hp E.
exists b, w'; split; [by [] | by rewrite Hm | exact: Hk | exact: Hb].
Defined.

End LogRoundTrip.

(** ** Cosets of the boundary group *)

(** The first tuple of coefficients is the one of zeros. *)
Lemma product01_cons (d : nat) :
  exists s : seq (seq nat), product01 d = nseq d 0 :: s.
Proof.
elim: d => [|d [s IH]] /=; first by exists [::].
by rewrite IH /=; eexists.
Qed.

Lemma foldM_cons (A St : Type) (body : St -> A -> result St) (st : St)
    (x : A) (xs : seq A) :
  foldM body st (x :: xs) = (do st' <- body st x; foldM body st' xs).
Proof. by []. Qed.

(** The reduction returns no vector. *)
Lemma xor_reduce_raises (n : nat) (rows : seq (seq nat)) :
  xor_reduce n rows = Raise TypeError \/ xor_reduce n rows = Raise ValueError.
Proof. by rewrite /xor_reduce; case: (all _ _); [left | right]. Qed.

(** The vectors that a pass of the loop of [coset] hands to the
    reduction have the length of [bs] when [bs] is as long as the columns
    of [im2]. *)
Lemma coset_rows (im2 : ndarray) (bs alpha : seq nat) :
  size alpha = nrows (transpose im2) -> size bs = nrows im2 ->
  all (fun r => size r == size bs)
    ([seq [seq nth 0 alpha idx * x | x <- getrow (transpose im2) idx]
     | idx <- range 0 (size alpha)] ++ [:: bs]).
Proof.
move=> Ha Hbs; rewrite all_cat /= eqxx !andbT; apply/allP => r /mapP[idx].
rewrite mem_range /= Ha /transpose /= => Hidx ->.
by rewrite size_map /getrow /= nth_mkseq // size_mkseq Hbs.
Qed.

Lemma coset_loop_raises (im2 : ndarray) (bs : seq nat) (shortest : bool)
    (st : seq (seq nat) * nat) :
  exists2 e,
    foldM (coset_step (transpose im2) bs shortest) st
          (product01 (nrows (transpose im2))) = Raise e
    & size bs = nrows im2 -> e = TypeError.
Proof.
have [s ->] := product01_cons (nrows (transpose im2)).
rewrite foldM_cons; case: st => acc mu; rewrite /coset_step.
set rows := _ ++ _.
case: (xor_reduce_raises (size bs) rows) => E; rewrite E /=.
  by exists TypeError.
exists ValueError => // Hbs; move: E.
by rewrite /xor_reduce /rows coset_rows // size_nseq.
Qed.

Lemma coset_raises (im2 : ndarray) (bs : seq nat) (shortest : bool) :
  np_sum im2 != 0 -> size bs = nrows im2 ->
  coset im2 bs shortest = Raise TypeError.
Proof.
move=> Hnz Hbs; rewrite /coset (negbTE Hnz).
by have [e -> /(_ Hbs) ->] :=
  coset_loop_raises im2 bs shortest ([::], sumn bs).
Qed.

(** X22: where there are boundaries [coset] fails.  For an array [im2]
    that is not zero and a vector [bs] as long as the columns of [im2],
    [coset] raises [TypeError], with [shortest=True] and without: the
    first pass of its loop asks numpy for a reduction by [logical_xor]
    with integer results, which numpy does not have. *)
Theorem coset_nonzero_image (im2 : ndarray) (bs : seq nat) (shortest : bool) :
  np_sum im2 != 0 -> size bs = nrows im2 ->
  coset im2 bs shortest = Raise TypeError.
Proof. exact: coset_raises. Qed.

Lemma coset_nonzero_image_witness :
  coset (Ndarray 3 1 [:: [:: 1]; [:: 1]; [:: 1]]) [:: 1; 0; 0] true
  = Raise TypeError.
Proof.
exact: (@coset_nonzero_image (Ndarray 3 1 [:: [:: 1]; [:: 1]; [:: 1]])
          [:: 1; 0; 0] true isT erefl).
Defined.

(** X23: [coset] returns no list of vectors, whatever its arguments: it
    returns [None] when the entries of [im2] sum to zero, and only then,
    and raises an exception otherwise. *)
Theorem coset_returns_no_list (im2 : ndarray) (bs : seq nat)
    (shortest : bool) :
  (coset im2 bs shortest = Ok None <-> np_sum im2 = 0)
  /\ forall l : seq (seq nat), coset im2 bs shortest <> Ok (Some l).
Proof.
rewrite /coset; case: eqP => [Hz|Hnz]; first by split.
have [e -> _] := coset_loop_raises im2 bs shortest ([::], sumn bs).
by split=> //; split.
Qed.

(** ** The search for shortest representatives *)

Lemma sumn_eq0 (s : seq nat) : sumn s = 0 -> all (fun x => x == 0) s.
Proof.
elim: s => [|x s IH] //= /eqP; rewrite addn_eq0 => /andP[-> /eqP Hs].
exact: IH.
Qed.

Lemma np_sum_eq0 (A : ndarray) : np_sum A = 0 -> all_zeros A.
Proof.
rewrite /np_sum /all_zeros => /sumn_eq0 /allP H.
apply/allP => r Hr; apply: sumn_eq0; apply/eqP; apply: H.
exact: map_f.
Qed.

Section ZeroMatrices.

Import GRing.Theory.
Local Open Scope ring_scope.

Lemma np_sum_mx (m n : nat) (A : ndarray) :
  wf m n A -> (np_sum A == 0%N) = (mx_of m n A == 0).
Proof.
move=> HA; apply/eqP/eqP => [/np_sum_eq0 Hz|/matrixP E].
  by apply/matrixP => i j; rewrite !mxE all_zeros_item.
have -> : A = zeros m n.
  apply: (wf_ext HA (wf_zeros m n)) => i j Hi Hj.
  have := E (Ordinal Hi) (Ordinal Hj); rewrite !mxE /= item_zeros.
  by move/eqP; rewrite (F2_natr (wf_item i j HA)) => /eqP.
apply: np_sum_all_zeros; rewrite /all_zeros /=.
by apply/allP => r /nseqP[-> _]; apply/allP => x /nseqP[->].
Qed.

End ZeroMatrices.

Section Shortest.

Import GRing.Theory.
Local Open Scope ring_scope.

Variables (bd : seq (nat * ndarray)) (k m n p : nat) (M1 M2 : ndarray).
Hypothesis Hk : dict_get bd k = Ok M1.
Hypothesis Hk1 : dict_get bd k.+1 = Ok M2.
Hypothesis H1 : wf m n M1.
Hypothesis H2 : wf n p M2.

(** The runs with [shortest=True], by the generators of the run
    without. *)
Lemma shortest_core :
  exists proj : seq (seq nat),
    [/\ forall w, homology_basis bd k None false None w
                  = Ok (Generators proj, w),
        forall C w, homology_basis bd k C true None w
                    = if nilp proj || (~~ truthy C && (np_sum M2 == 0%N))
                      then Ok (ShortestChains [::], w)
                      else Raise TypeError
      & mx_of m n M1 *m mx_of n p M2 = 0 ->
        size proj
        = (n - \rank (mx_of m n M1) - \rank (mx_of n p M2))%N].
Proof.
have [G [im2 [E [HG [Him Heq]] _ Hbetti]]] := homology_basis_run Hk Hk1 H1 H2.
case: (HG) => _ HGn /andP[/eqP HGs /allP HGr] _.
exists (data G); split=> [w|C w|/Hbetti[<- _ _ _] //]; rewrite E //.
case Eproj: (data G) => [|g proj] /=.
  by rewrite /shortest_search /=; case: C => [[|c C']|].
have Hg : size g = nrows im2.
  have /HGr /eqP-> : g \in data G by rewrite Eproj mem_head.
  by rewrite HGn; case: Him.
case Hz: (np_sum M2 == 0%N).
  have Hrk : \rank (mx_of n p M2) = 0%N.
    by move: Hz; rewrite (np_sum_mx H2) => /eqP->; rewrite mxrank0.
  have Hsum : np_sum im2 = 0%N.
    rewrite Hrk in Him.
    apply: np_sum_all_zeros; apply: all_zeros_no_columns; first by case: Him.
    by case: Him.
  rewrite (shortest_search_zero _ Hsum) /= andbT.
  by case: C => [[|c C']|].
have Hnz : np_sum im2 != 0%N.
  rewrite (np_sum_mx Him); apply/eqP => Hz'.
  have : \rank (mx_of n p M2) = 0%N.
    by rewrite -mxrank_tr -Heq.1 Hz' trmx0 mxrank0.
  by move/eqP; rewrite mxrank_eq0 -(np_sum_mx H2) Hz.
by rewrite /shortest_search /= (coset_raises _ Hnz Hg) /= andbF.
Qed.

End Shortest.

(** An exception of a run without a log is raised with a log too. *)
Lemma homology_basis_raise_log (bd : seq (nat * ndarray)) (k : nat)
    (C : option (seq chain)) (shortest : bool) (log : option String.string)
    (w : world) (e : exn) :
  homology_basis bd k C shortest None w = Raise e ->
  homology_basis bd k C shortest log w = Raise e.
Proof.
rewrite /homology_basis.
case: (dict_get bd k) => [bdk|e1] //=.
case: (smith_normal_form_mod2 bdk) => [[[[L1 R1] S1] L1inv]|e1] //=.
case: (dict_get bd k.+1) => [bdk1|e1] //=.
case: (smith_normal_form_mod2 bdk1) => [[[[L2 R2] S2] L2inv]|e1] //=.
case: (matmulreduce _ _) => [prod|e1] //=.
case: (reduced_row_echelon_form_mod2 _) => [[[L Sm] Linv]|e1] //=.
by case: (if shortest then _ else _) => [[basis proj]|e1].
Qed.

Section ShortestBasis.

Import GRing.Theory.
Local Open Scope ring_scope.

(** X24: the search for shortest representatives fails where there are
    boundaries.  When [bd] holds under [k] and [k + 1] two 0/1 matrices
    that compose, the second one not zero, and the run without the
    search returns at least one generator, [homology_basis] with
    [shortest=True] raises [TypeError], whatever [C] and the log, and
    writes no log: [coset] fails for the first generator. *)
Theorem homology_basis_shortest (bd : seq (nat * ndarray)) (k m n p : nat)
    (M1 M2 : ndarray) (g : seq nat) (proj : seq (seq nat))
    (C : option (seq chain)) (log : option String.string) (w : world) :
  dict_get bd k = Ok M1 -> dict_get bd k.+1 = Ok M2 ->
  wf m n M1 -> wf n p M2 -> np_sum M2 != 0%N ->
  homology_basis bd k None false None w = Ok (Generators (g :: proj), w) ->
  homology_basis bd k C true log w = Raise TypeError.
Proof.
move=> Hk Hk1 H1 H2 Hnz Hgen.
have [proj' [E1 E2 _]] := shortest_core Hk Hk1 H1 H2.
apply: homology_basis_raise_log; rewrite E2.
by move: Hgen; rewrite E1 => -[->] /=; rewrite (negbTE Hnz) andbF.
Qed.

Lemma homology_basis_shortest_witness :
  let M1 := Ndarray 4 5 [:: [:: 1; 1; 0; 0; 0]; [:: 1; 0; 1; 1; 0];
                            [:: 0; 1; 1; 0; 1]; [:: 0; 0; 0; 1; 1]]%N in
  let M2 := Ndarray 5 1 [:: [:: 1]; [:: 1]; [:: 1]; [:: 0]; [:: 0]]%N in
  let C := [:: [:: 1; 2]; [:: 1; 3]; [:: 2; 3]; [:: 2; 4]; [:: 3; 4]]%N in
  homology_basis [:: (1%N, M1); (2%N, M2)] 1 (Some C) true None no_files
  = Raise TypeError.
Proof.
move=> M1 M2 C.
have H1 : wf 4 5 M1 by [].
have H2 : wf 5 1 M2 by [].
have E : homology_basis [:: (1%N, M1); (2%N, M2)] 1 None false None no_files
         = Ok (Generators [:: [:: 0; 0; 1; 1; 1]%N], no_files).
  by vm_compute.
exact: (@homology_basis_shortest [:: (1%N, M1); (2%N, M2)] 1 4 5 1 M1 M2
          [:: 0; 0; 1; 1; 1]%N [::] (Some C) None no_files erefl erefl H1 H2
          isT E).
Defined.

(** X25: what [homology_basis] returns with [shortest=True] and without
    a log, for two 0/1 matrices that compose under [k] and [k + 1].  It
    never returns shortest representatives.  It returns the empty list
    when the run without the search returns no generator, and also when
    [bd[k + 1]] is zero and [C] is absent or empty; in every other case
    it raises [TypeError]. *)
Theorem homology_basis_shortest_unreturned (bd : seq (nat * ndarray))
    (k m n p : nat) (M1 M2 : ndarray) (w : world) :
  dict_get bd k = Ok M1 -> dict_get bd k.+1 = Ok M2 ->
  wf m n M1 -> wf n p M2 ->
  exists proj : seq (seq nat),
    homology_basis bd k None false None w = Ok (Generators proj, w)
    /\ forall C : option (seq chain),
         homology_basis bd k C true None w
         = if nilp proj || (~~ truthy C && (np_sum M2 == 0%N))
           then Ok (ShortestChains [::], w)
           else Raise TypeError.
Proof.
move=> Hk Hk1 H1 H2.
have [proj [E1 E2 _]] := shortest_core Hk Hk1 H1 H2.
by exists proj.
Qed.

Lemma homology_basis_shortest_unreturned_witness :
  exists proj : seq (seq nat),
    homology_basis [:: (1%N, triangle_bd1); (2%N, zeros 3 0)] 1 None false
      None no_files = Ok (Generators proj, no_files)
    /\ forall C : option (seq chain),
         homology_basis [:: (1%N, triangle_bd1); (2%N, zeros 3 0)] 1 C true
           None no_files
         = if nilp proj || (~~ truthy C && (np_sum (zeros 3 0) == 0%N))
           then Ok (ShortestChains [::], no_files)
           else Raise TypeError.
Proof.
by apply: (@homology_basis_shortest_unreturned
             [:: (1%N, triangle_bd1); (2%N, zeros 3 0)] 1 3 3 0 triangle_bd1
             (zeros 3 0) no_files).
Defined.

(** X29: the search for shortest representatives on a hypergraph.  For
    a hypergraph [h] and a dimension [k] from 1 to the dimension of its
    largest simplex, [hypergraph_homology_basis] with [shortest=True]
    and without a log returns the empty list of representatives when the
    Betti number, the number of [k]-chains minus the ranks of the two
    boundary matrices, is zero, and raises [TypeError] when it is not:
    it returns no shortest representative. *)
Theorem hypergraph_homology_basis_shortest (h : Hypergraph) (k : nat)
    (w : world) :
  (0 < k)%N -> (k < max_edge_size h)%N ->
  let Cm := kchainbasis h k.-1 in
  let Ck := kchainbasis h k in
  let Cp := kchainbasis h k.+1 in
  hypergraph_homology_basis h k%:Z true None w
  = if (size Ck
        - \rank (mx_of (size Cm) (size Ck) (incidence Cm Ck))
        - \rank (mx_of (size Ck) (size Cp) (incidence Ck Cp)) == 0)%N
    then Ok (Basis (ShortestChains [::]), w)
    else Raise TypeError.
Proof.
move=> Hk Hmax Cm Ck Cp.
pose bd := [:: (k, incidence Cm Ck); (k.+1, incidence Ck Cp)].
have D1 : dict_get bd k = Ok (incidence Cm Ck) by rewrite /= eqxx.
have D2 : dict_get bd k.+1 = Ok (incidence Ck Cp).
  by rewrite /= eqxx (ltn_eqF (ltnSn k)).
have E12 : logical_matmul (incidence Cm Ck) (incidence Ck Cp)
           = Ok (zeros (size Cm) (size Cp)).
  by rewrite /Cm /Ck /Cp -{2 3 4 6}(prednK Hk); apply: boundary_matrices_compose.
have H12 := matmul_zero (wf_incidence Cm Ck) (wf_incidence Ck Cp) E12.
have [proj [_ E2 /(_ H12) Hsz]] :=
  shortest_core D1 D2 (wf_incidence Cm Ck) (wf_incidence Ck Cp).
have Hne : Ck != [::] by apply/kchainbasis_nonempty/max_edge_size_has.
rewrite (hhb_run Hk Hmax) -/Cm -/Ck -/Cp -/bd E2 -Hsz.
have -> : truthy (Some Ck) by case: (Ck) Hne.
by rewrite /= orbF; case: proj {E2 Hsz}.
Qed.

Lemma hypergraph_homology_basis_shortest_witness :
  let Cm := kchainbasis hollow_triangle 0 in
  let Ck := kchainbasis hollow_triangle 1 in
  let Cp := kchainbasis hollow_triangle 2 in
  hypergraph_homology_basis hollow_triangle 1 true None no_files
  = if (size Ck
        - \rank (mx_of (size Cm) (size Ck) (incidence Cm Ck))
        - \rank (mx_of (size Ck) (size Cp) (incidence Ck Cp)) == 0)%N
    then Ok (Basis (ShortestChains [::]), no_files)
    else Raise TypeError.
Proof.
exact: (@hypergraph_homology_basis_shortest hollow_triangle 1 no_files isT isT).
Defined.

End ShortestBasis.

(** ** Boundary matrices that do not fit *)

(** X26: when the two boundary matrices do not compose, [bd[k]] having
    [n] columns and [bd[k + 1]] another number of rows, [homology_basis]
    raises [HyperNetXError], whatever its other arguments, and writes no
    log: the two Smith normal forms are computed, and the product of the
    projection on the cokernel with the kernel basis fails. *)
Theorem homology_basis_shape_mismatch (bd : seq (nat * ndarray))
    (k m n n' p : nat) (M1 M2 : ndarray) (C : option (seq chain))
    (shortest : bool) (log : option String.string) (w : world) :
  dict_get bd k = Ok M1 -> dict_get bd k.+1 = Ok M2 ->
  wf m n M1 -> wf n' p M2 -> n != n' ->
  homology_basis bd k C shortest log w = Raise HyperNetXError.
Proof.
move=> Hk Hk1 H1 H2 Hne.
have [L1 [R1 [S1 [L1inv [E1 Hrel1 _ _ _]]]]] :=
  smith_normal_form_mod2_sum (matrix01_wf H1).
have [L2 [R2 [S2 [L2inv [E2 Hrel2 _ _ _]]]]] :=
  smith_normal_form_mod2_sum (matrix01_wf H2).
case: (H1) => Em1 En1 _ _; case: (H2) => Em2 En2 _ _.
rewrite Em1 En1 in Hrel1; rewrite Em2 En2 in Hrel2.
case: (Hrel1) => [[HL1 HR1 HS1 HL1i] _ _ _].
case: (Hrel2) => [[HL2 HR2 HS2 HL2i] _ _ _].
have Hcok := wf_cols_from (np_sum S2) HL2i.
have Hprj := wf_rows_from (np_sum S2) HL2.
have [X [EX [_ HXn _ _] _]] := logical_matmul_wf Hcok Hprj.
rewrite /homology_basis Hk /= E1 /= Hk1 /= E2 /= /matmulreduce /= EX /=.
have -> // : logical_matmul X (cols_from R1 (np_sum S1)) = Raise HyperNetXError.
rewrite /logical_matmul HXn /=.
by case: (HR1) => -> _ _ _; rewrite eq_sym Hne.
Qed.

Lemma homology_basis_shape_mismatch_witness :
  homology_basis [:: (1, triangle_bd1); (2, zeros 2 1)] 1 None false None
    no_files = Raise HyperNetXError.
Proof.
by apply: (@homology_basis_shape_mismatch
             [:: (1, triangle_bd1); (2, zeros 2 1)] 1 3 3 2 1 triangle_bd1
             (zeros 2 1)).
Defined.

(** X27: [homology_basis] raises [KeyError] when [bd] has no matrix under
    [k], and also when it has a rectangular 0/1 matrix under [k] and none
    under [k + 1]; no log is written. *)
Theorem homology_basis_missing_key (bd : seq (nat * ndarray)) (k : nat)
    (C : option (seq chain)) (shortest : bool) (log : option String.string)
    (w : world) :
  dict_get bd k = Raise KeyError
  \/ (exists2 M1, dict_get bd k = Ok M1 & matrix01 M1)
     /\ dict_get bd k.+1 = Raise KeyError ->
  homology_basis bd k C shortest log w = Raise KeyError.
Proof.
rewrite /homology_basis; case=> [->|[[M1 -> HM] ->]] //=.
by have [L1 [R1 [S1 [L1inv [-> _ _ _ _]]]]] := smith_normal_form_mod2_sum HM.
Qed.

Lemma homology_basis_missing_key_witness :
  homology_basis [:: (1, triangle_bd1)] 1 None false None no_files
  = Raise KeyError.
Proof.
apply: (@homology_basis_missing_key [:: (1, triangle_bd1)] 1); right.
by split=> //; exists triangle_bd1.
Defined.

(** ** Swaps of rows and columns out of range *)

Lemma rswap_bounds (A : ndarray) (i j : nat) :
  matrix01 A ->
  _rswap i j A
  = if (i < nrows A) && (j < nrows A)
    then Ok (rsw (nrows A) (ncols A) i j A) else Raise IndexError.
Proof.
move=> /wf_matrix01 HA; case: ifP => [/andP[Hi Hj]|]; first exact: rswapE.
by rewrite /_rswap /row_at; case: (i < nrows A) => //=; case: (j < nrows A).
Qed.

Lemma cswap_bounds (A : ndarray) (i j : nat) :
  matrix01 A ->
  _cswap i j A
  = if (i < ncols A) && (j < ncols A)
    then Ok (csw (nrows A) (ncols A) i j A) else Raise IndexError.
Proof.
move=> /wf_matrix01 HA; case: ifP => [/andP[Hi Hj]|]; first exact: cswapE.
rewrite /_cswap /_rswap /row_at /=.
by case: (i < ncols A) => //=; case: (j < ncols A).
Qed.

Lemma mapM_bounds (f : ndarray -> result ndarray) (g : ndarray -> ndarray)
    (ok : pred ndarray) (args : seq ndarray) :
  (forall A, A \in args ->
     f A = if ok A then Ok (g A) else Raise IndexError) ->
  mapM f args = if all ok args then Ok [seq g A | A <- args]
                else Raise IndexError.
Proof.
elim: args => [|A args IH] //= H.
rewrite H ?mem_head //; case: (ok A) => //=.
have HI B : B \in args -> f B = if ok B then Ok (g B) else Raise IndexError.
  by move=> HB; apply: H; rewrite inE HB orbT.
by rewrite (IH HI); case: (all ok args).
Qed.

(** X28: on a list of rectangular 0/1 matrices, [swap_rows] returns the
    list of the matrices with rows [i] and [j] swapped when every matrix
    has rows [i] and [j], and raises [IndexError], returning none of
    them, as soon as one has not; [swap_columns] does the same with the
    columns. *)
Theorem swap_rows_columns_bounds (i j : nat) (args : seq ndarray) :
  all matrix01 args ->
  swap_rows i j args
  = (if all (fun A => (i < nrows A) && (j < nrows A)) args
     then Ok [seq rsw (nrows A) (ncols A) i j A | A <- args]
     else Raise IndexError)
  /\ swap_columns i j args
     = (if all (fun A => (i < ncols A) && (j < ncols A)) args
        then Ok [seq csw (nrows A) (ncols A) i j A | A <- args]
        else Raise IndexError).
Proof.
move=> /allP Hall; split.
  by apply: mapM_bounds => A /Hall; apply: rswap_bounds.
by apply: mapM_bounds => A /Hall; apply: cswap_bounds.
Qed.

Lemma swap_rows_columns_bounds_witness :
  swap_rows 0 2 [:: triangle_bd1; zeros 2 3]
  = (if all (fun A => (0 < nrows A) && (2 < nrows A))
            [:: triangle_bd1; zeros 2 3]
     then Ok [seq rsw (nrows A) (ncols A) 0 2 A
             | A <- [:: triangle_bd1; zeros 2 3]]
     else Raise IndexError)
  /\ swap_columns 0 2 [:: triangle_bd1; zeros 2 3]
     = (if all (fun A => (0 < ncols A) && (2 < ncols A))
               [:: triangle_bd1; zeros 2 3]
        then Ok [seq csw (nrows A) (ncols A) 0 2 A
                | A <- [:: triangle_bd1; zeros 2 3]]
        else Raise IndexError).
Proof.
exact: (@swap_rows_columns_bounds 0 2 [:: triangle_bd1; zeros 2 3] isT).
Defined.
